(** * A model of [demo_debugpy.py]

    The script is a linear sequence of nine demonstration sections.  This file
    embeds the Python it runs: the values it computes with (arbitrary-precision
    integers as [Z], floats as IEEE binary64, [str] as byte strings, a dict
    used as a map as [gmap]), the exceptions it raises, the console and the
    debugger as a trace of events, and the worker threads as an interleaving
    semantics.  The definitions come first, then the vocabulary of the
    specifications, then the properties, section by section.

    What the model takes from the interpreter and its surroundings:
    - the calls of [debugpy] return, and are events of the trace;
    - [print] writes its line in one piece, also in a thread;
    - [input] returns the next line of the console input and raises
      [EOFError] at its end;
    - a function takes arguments of the types that the script passes to it;
    - a dict literal with fixed keys that is only read is a record. *)

From Stdlib Require Import ZArith List String Ascii Floats Lia.
From Stdlib Require Import DecimalString DecimalPos DecimalZ.
From stdpp Require Import gmap strings list.
Set Warnings "-inexact-float".

Local Open Scope Z_scope.

(** ** Exceptions and fallible computations *)

(** The exception classes that the script can meet.  [UnboundLocalError] is a
    subclass of [NameError], every class is a subclass of itself. *)
Inductive exn_class :=
| ZeroDivisionError
| ValueError
| KeyError
| NameError
| UnboundLocalError
| OverflowError
| EOFError.

Definition exn_class_eqb (c d : exn_class) : bool :=
  match c, d with
  | ZeroDivisionError, ZeroDivisionError
  | ValueError, ValueError
  | KeyError, KeyError
  | NameError, NameError
  | UnboundLocalError, UnboundLocalError
  | OverflowError, OverflowError
  | EOFError, EOFError => true
  | _, _ => false
  end.

(** [issubclass c d]: an exception of class [c] is caught by [except d]. *)
Definition issubclass (c d : exn_class) : bool :=
  exn_class_eqb c d ||
  match c, d with
  | UnboundLocalError, NameError => true
  | _, _ => false
  end.

(** A raised exception: its class and the text of [str(e)]. *)
Record exn := Exn { exn_cls : exn_class; exn_msg : string }.

(** The result of evaluating a Python expression. *)
Inductive outcome (A : Type) :=
| Ok (a : A)
| Raise (e : exn).
Arguments Ok {A} a.
Arguments Raise {A} e.

#[global] Instance outcome_ret : MRet outcome := fun A a => Ok a.
#[global] Instance outcome_bind : MBind outcome := fun A B f m =>
  match m with
  | Ok a => f a
  | Raise e => Raise e
  end.

Definition raises {A} (m : outcome A) (c : exn_class) : Prop :=
  match m with
  | Ok _ => False
  | Raise e => issubclass (exn_cls e) c = true
  end.

Definition returns {A} (m : outcome A) (a : A) : Prop := m = Ok a.

(** ** Numbers *)

(** *** Integers and floats

    A Python [int] is a [Z].  A Python [float] is a C double: Rocq's primitive
    binary64 [float], whose operations are the IEEE ones. *)

Definition is_inf (x : float) : bool :=
  match Prim2SF x with
  | S754_infinity _ => true
  | _ => false
  end.

(** The double nearest to the int [n], ties to even; an infinity when [n] is
    beyond the range of a double. *)
Definition nearest_float (n : Z) : float :=
  SF2Prim (binary_normalize prec emax n 0 false).

(** The conversion of an int operand in arithmetic with a float, and
    [float(n)]: an int beyond the range of a double raises. *)
Definition float_of_int (n : Z) : outcome float :=
  let x := nearest_float n in
  if is_inf x
  then Raise (Exn OverflowError "int too large to convert to float")
  else Ok x.

Definition Zsign_bit (n : Z) : bool := n <? 0.

(** [a / b] on two ints (true division): the correctly rounded quotient. *)
Definition int_truediv (a b : Z) : outcome float :=
  match b with
  | 0 => Raise (Exn ZeroDivisionError "division by zero")
  | _ =>
      match a with
      | 0 => Ok (if Zsign_bit b then (-0)%float else 0%float)
      | _ =>
          let q := SF2Prim (SFdiv prec emax
                              (S754_finite (Zsign_bit a) (Z.to_pos (Z.abs a)) 0)
                              (S754_finite (Zsign_bit b) (Z.to_pos (Z.abs b)) 0)) in
          if is_inf q
          then Raise (Exn OverflowError "integer division result too large for a float")
          else Ok q
      end
  end.

(** [a / b] on two floats: a zero divisor of either sign raises. *)
Definition float_truediv (a b : float) : outcome float :=
  if PrimFloat.eqb b 0%float
  then Raise (Exn ZeroDivisionError "float division by zero")
  else Ok (a / b)%float.

(** [x * n] for a float and an int: the int is converted first. *)
Definition float_mul_int (x : float) (n : Z) : outcome float :=
  y ← float_of_int n; mret (x * y)%float.

(** Comparison of a float with an int is exact in Python: no conversion of the
    int takes place.  [None] when the float is a NaN. *)
Definition float_cmp_int (x : float) (n : Z) : option comparison :=
  match Prim2SF x with
  | S754_nan => None
  | S754_infinity s => Some (if s then Lt else Gt)
  | S754_zero _ => Some (0 ?= n)
  | S754_finite s m e =>
      let v := if s then Z.neg m else Z.pos m in
      Some (if 0 <=? e then (v * 2 ^ e ?= n) else (v ?= n * 2 ^ (- e)))
  end.

Definition float_gt_int (x : float) (n : Z) : bool :=
  match float_cmp_int x n with
  | Some Gt => true
  | _ => false
  end.

(** [min(a, b)] on floats: the second argument only when it is smaller. *)
Definition py_min (a b : float) : float :=
  if (b <? a)%float then b else a.

(** *** Decimal rounding

    [round(x, ndigits)] and the [f] presentation type both round the exact
    value of the double to a number of decimals, ties to even. *)

(** The integer nearest to [m * 2^e * 10^p], ties to even. *)
Definition scaled_half_even (m : positive) (e : Z) (p : nat) : Z :=
  let num := Z.pos m * 10 ^ Z.of_nat p in
  if 0 <=? e then num * 2 ^ e
  else
    let den := 2 ^ (- e) in
    let q := num / den in
    let r := num mod den in
    match 2 * r ?= den with
    | Lt => q
    | Gt => q + 1
    | Eq => if Z.even q then q else q + 1
    end.

(** The double nearest to the decimal [c * 10^q], ties to even, as reading
    a decimal literal gives it. *)
Definition nearest_double (s : bool) (c : positive) (q : Z) : float :=
  SF2Prim
    (if 0 <=? q
     then binary_normalize prec emax ((if s then Z.neg c else Z.pos c) * 10 ^ q) 0 false
     else SFdiv prec emax (S754_finite s c 0)
            (S754_finite false (Z.to_pos (10 ^ (- q))) 0)).

(** [round(x, ndigits)] for a float and [ndigits >= 0]: the double nearest to
    the decimal that is nearest to [x]. *)
Definition py_round (x : float) (ndigits : nat) : outcome float :=
  match Prim2SF x with
  | S754_finite s m e =>
      match scaled_half_even m e ndigits with
      | Z.pos n =>
          let r := nearest_double s n (- Z.of_nat ndigits) in
          if is_inf r
          then Raise (Exn OverflowError "rounded value too large to represent")
          else Ok r
      | _ => Ok (if s then (-0)%float else 0%float)
      end
  | _ => Ok x
  end.

(** ** Strings *)

(** [str(n)] for an int, which is also what an f-string puts for [{n}].  An
    int of more than 4300 digits has no text: [str] raises [ValueError] on it.
    The model gives the digits of every int, and the theorems on an int that
    is not the script's bound it (see [str_limit]). *)
Definition str_of_int (n : Z) : string := NilZero.string_of_int (Z.to_int n).

Definition spaces (n : nat) : string := string_of_list_ascii (replicate n " "%char).

(** [s * n]: the string repeated. *)
Fixpoint str_repeat (s : string) (n : nat) : string :=
  match n with
  | O => ""
  | S n' => s +:+ str_repeat s n'
  end.

(** [len(s)] counts code points, a [string] holds the bytes of the UTF-8
    encoding: every byte but the continuation bytes [10xxxxxx] starts one. *)
Definition starts_code_point (c : ascii) : bool :=
  negb (Z.land (Z.of_nat (nat_of_ascii c)) 192 =? 128).

Definition str_len (s : string) : nat :=
  length (filter (fun c => starts_code_point c = true) (list_ascii_of_string s)).

(** Alignment in a format field: [>] pads on the left, [<] on the right. *)
Definition align_right (width : nat) (s : string) : string :=
  spaces (width - str_len s) +:+ s.

Definition align_left (width : nat) (s : string) : string :=
  s +:+ spaces (width - str_len s).

(** [zfill]: the digits of a natural number on [p] places. *)
Definition zfill (p : nat) (s : string) : string :=
  str_repeat "0" (p - String.length s) +:+ s.

(** The [,] option: the digits of the integer part in groups of three. *)
Fixpoint group_rev (l : list ascii) (k : nat) : list ascii :=
  match l with
  | [] => []
  | c :: l' =>
      if (k =? 3)%nat then ","%char :: c :: group_rev l' 1
      else c :: group_rev l' (S k)
  end.

Definition group_thousands (digits : string) : string :=
  string_of_list_ascii (rev (group_rev (rev (list_ascii_of_string digits)) 0)).

(** [format(x, ".pf")], and with [grouping] [format(x, ",.pf")]: the exact
    value of the double on [p] decimals, ties to even. *)
Definition fmt_f (grouping : bool) (p : nat) (x : float) : string :=
  let body (n : Z) :=
    let ip := str_of_int (n / 10 ^ Z.of_nat p) in
    let ip := if grouping then group_thousands ip else ip in
    match p with
    | O => ip
    | _ => ip +:+ "." +:+ zfill p (str_of_int (n mod 10 ^ Z.of_nat p))
    end in
  match Prim2SF x with
  | S754_nan => "nan"
  | S754_infinity s => if s then "-inf" else "inf"
  | S754_zero s => (if s then "-" else "") +:+ body 0
  | S754_finite s m e => (if s then "-" else "") +:+ body (scaled_half_even m e p)
  end.

(** [format(n, "wd")]: an int, right-aligned on [w] places. *)
Definition fmt_d (width : nat) (n : Z) : string := align_right width (str_of_int n).

(** *** [int(s)] for a string

    Leading and trailing whitespace is dropped, a sign may come first, and the
    digits may be separated by single underscores; a literal of more than 4300
    digits is refused.  The model is [int] on ASCII text: on other text [int]
    also reads the decimal digits and the blanks of Unicode, which the model
    takes for characters that cannot stand in a literal.  The theorems on a
    text that is not the script's are stated for ASCII text (see
    [ascii_text]). *)

(** The whitespace that [int] skips: tab, line feed, vertical tab, form feed,
    carriage return and space.  (The separators 28 to 31, which [str.strip]
    drops, are no whitespace for [int].) *)
Definition is_space (c : ascii) : bool :=
  let n := nat_of_ascii c in
  ((9 <=? n) && (n <=? 13) || (n =? 32))%nat.

Fixpoint lstrip (s : string) : string :=
  match s with
  | String c t => if is_space c then lstrip t else s
  | EmptyString => EmptyString
  end.

Fixpoint rstrip (s : string) : string :=
  match s with
  | String c t =>
      match rstrip t with
      | EmptyString => if is_space c then EmptyString else String c EmptyString
      | t' => String c t'
      end
  | EmptyString => EmptyString
  end.

Definition strip (s : string) : string := rstrip (lstrip s).

(** The ASCII digits. *)
Definition is_digit (c : ascii) : bool :=
  match uint_of_char c (Some Decimal.Nil) with
  | Some _ => true
  | None => false
  end.

(** The digits of [d (_? d)*], most significant first. *)
Fixpoint digit_run (s : string) : option Decimal.uint :=
  match s with
  | EmptyString => None
  | String c t =>
      match t with
      | EmptyString => uint_of_char c (Some Decimal.Nil)
      | String u t' =>
          if Ascii.eqb u "_" then uint_of_char c (digit_run t')
          else uint_of_char c (digit_run t)
      end
  end.

Definition int_literal (s : string) : option Z :=
  match s with
  | String "-" t => d ← digit_run t; Some (- Z.of_uint d)
  | String "+" t => d ← digit_run t; Some (Z.of_uint d)
  | _ => d ← digit_run s; Some (Z.of_uint d)
  end.

(** The text of [repr(s)] for the strings met here (no quote, no escape). *)
Definition repr_str (s : string) : string := "'" +:+ s +:+ "'".

(** The run of digits and single underscores that [int] scans before it
    converts: the number of its digits, or [None] for a run with an underscore
    where none may stand.  [us] holds where that is: at the start and after an
    underscore; the end of the run is such a place too. *)
Fixpoint scan_run (us : bool) (s : string) : option nat :=
  match s with
  | String c t =>
      if is_digit c then S <$> scan_run false t
      else if Ascii.eqb c "_" then (if us then None else scan_run true t)
      else if us then None else Some O
  | EmptyString => if us then None else Some O
  end.

(** The most digits that [int] and [str] convert
    ([sys.get_int_max_str_digits()]). *)
Definition int_max_str_digits : nat := 4300.

(** The text after the sign. *)
Definition unsigned_part (s : string) : string :=
  match s with
  | String "-" t => t
  | String "+" t => t
  | _ => s
  end.

(** The length of the run is checked before anything that follows the run is
    looked at. *)
Definition int_of_str (s : string) : outcome Z :=
  let invalid :=
    Raise (Exn ValueError ("invalid literal for int() with base 10: " +:+ repr_str s)) in
  match scan_run true (unsigned_part (strip s)) with
  | Some n =>
      if (int_max_str_digits <? n)%nat
      then Raise (Exn ValueError
             ("Exceeds the limit (" +:+ str_of_int (Z.of_nat int_max_str_digits)
              +:+ " digits) for integer string conversion: value has "
              +:+ str_of_int (Z.of_nat n)
              +:+ " digits; use sys.set_int_max_str_digits() to increase the limit"))
      else match int_literal (strip s) with
           | Some v => Ok v
           | None => invalid
           end
  | None => invalid
  end.

(** ** Sequences *)

(** [range(start, stop, step)] as the list of its elements. *)
Definition py_range (start stop step : Z) : outcome (list Z) :=
  match step with
  | 0 => Raise (Exn ValueError "range() arg 3 must not be zero")
  | Z.pos _ =>
      let n := Z.to_nat ((stop - start + step - 1) / step) in
      Ok (map (fun k => start + Z.of_nat k * step) (seq 0 n))
  | Z.neg _ =>
      let n := Z.to_nat ((start - stop - step - 1) / (- step)) in
      Ok (map (fun k => start + Z.of_nat k * step) (seq 0 n))
  end.

(** [l[lo:hi]]: a negative bound counts from the end, and both are clamped. *)
Definition slice_bound {A} (l : list A) (i : Z) : nat :=
  let n := Z.of_nat (length l) in
  Z.to_nat (Z.min n (Z.max 0 (if i <? 0 then i + n else i))).

Definition py_slice {A} (l : list A) (lo hi : Z) : list A :=
  let a := slice_bound l lo in
  let b := slice_bound l hi in
  take (b - a) (drop a l).

(** [sum(xs)] on floats: the items are added from left to right, starting from
    the int [0], which the first addition converts to [0.0].  This is the
    builtin of the interpreters before CPython 3.12. *)
Definition py_sum (xs : list float) : float :=
  fold_left PrimFloat.add xs 0%float.

(** From CPython 3.12 on the builtin also carries the rounding errors of the
    additions (Neumaier's algorithm) and adds them at the end.  The sums of
    the script are the same under both. *)
Fixpoint neumaier (xs : list float) (total c : float) : float * float :=
  match xs with
  | [] => (total, c)
  | x :: xs' =>
      let t := (total + x)%float in
      let c' := if (abs x <=? abs total)%float
                then (c + ((total - t) + x))%float
                else (c + ((x - t) + total))%float in
      neumaier xs' t c'
  end.

Definition py_sum_compensated (xs : list float) : float :=
  let '(total, c) := neumaier xs 0%float 0%float in
  if negb (c =? 0)%float && is_finite c then (total + c)%float else total.

(** *** [repr(x)] for a float

    The shortest decimal that reads back as [x]; among the decimals of that
    length, the one nearest to [x]. *)

(** [floor (m * 2^e * 10^s)] and whether the value is that integer. *)
Definition scaled_floor (m : positive) (e s : Z) : Z * bool :=
  let num := Z.pos m * (if 0 <=? e then 2 ^ e else 1) * (if 0 <=? s then 10 ^ s else 1) in
  let den := (if 0 <=? e then 1 else 2 ^ (- e)) * (if 0 <=? s then 1 else 10 ^ (- s)) in
  (num / den, num mod den =? 0).

(** [2 * (m * 2^e * 10^s - lo) ?= 1]: on which side of the middle of
    [lo, lo + 1] the scaled value lies. *)
Definition scaled_side (m : positive) (e s : Z) (lo : Z) : comparison :=
  let num := Z.pos m * (if 0 <=? e then 2 ^ e else 1) * (if 0 <=? s then 10 ^ s else 1) in
  let den := (if 0 <=? e then 1 else 2 ^ (- e)) * (if 0 <=? s then 1 else 10 ^ (- s)) in
  (2 * (num - lo * den) ?= den).

(** The decimal exponent: [10^e10 <= m * 2^e < 10^(e10+1)]. *)
Definition decimal_exponent (m : positive) (e : Z) : Z :=
  Z.of_nat (String.length (str_of_int (fst (scaled_floor m e 400)))) - 1 - 400.

Definition reads_back (m : positive) (e : Z) (c : Z) (q : Z) : bool :=
  match c with
  | Z.pos c' => PrimFloat.eqb (nearest_double false c' q) (SF2Prim (S754_finite false m e))
  | _ => false
  end.

(** The digits on [k] places that read back as [m * 2^e], if there are any:
    the returned [(c, q)] stands for [c * 10^q]. *)
Definition digits_on (m : positive) (e : Z) (k : Z) : option (Z * Z) :=
  let s := k - 1 - decimal_exponent m e in
  let '(lo, exact) := scaled_floor m e s in
  let hi := lo + 1 in
  if exact then (if reads_back m e lo (- s) then Some (lo, - s) else None)
  else
    match reads_back m e lo (- s), reads_back m e hi (- s) with
    | true, false => Some (lo, - s)
    | false, true => Some (hi, - s)
    | false, false => None
    | true, true =>
        match scaled_side m e s lo with
        | Lt => Some (lo, - s)
        | Gt => Some (hi, - s)
        | Eq => Some (if Z.even lo then lo else hi, - s)
        end
    end.

Fixpoint shortest_digits (m : positive) (e : Z) (k : Z) (fuel : nat) : Z * Z :=
  match fuel with
  | O => (Z.pos m, e)
  | S fuel' =>
      match digits_on m e k with
      | Some r => r
      | None => shortest_digits m e (k + 1) fuel'
      end
  end.

Fixpoint drop_trailing_zeros (s : string) : string :=
  match s with
  | String c t =>
      match drop_trailing_zeros t with
      | EmptyString => if Ascii.eqb c "0" then EmptyString else String c EmptyString
      | t' => String c t'
      end
  | EmptyString => EmptyString
  end.

(** The digits and the place of the decimal point written out: the exponent
    form when the point is more than 16 places to the right of the first digit
    or more than 3 to its left. *)
Definition repr_digits (ds : string) (decpt : Z) : string :=
  let n := Z.of_nat (String.length ds) in
  if (decpt <=? -4) || (16 <? decpt) then
    let ex := decpt - 1 in
    String.substring 0 1 ds
    +:+ (if 1 <? n then "." +:+ String.substring 1 (String.length ds - 1) ds else "")
    +:+ "e" +:+ (if ex <? 0 then "-" else "+") +:+ zfill 2 (str_of_int (Z.abs ex))
  else if decpt <=? 0 then
    "0." +:+ str_repeat "0" (Z.to_nat (- decpt)) +:+ ds
  else if n <=? decpt then
    ds +:+ str_repeat "0" (Z.to_nat (decpt - n)) +:+ ".0"
  else
    String.substring 0 (Z.to_nat decpt) ds +:+ "."
    +:+ String.substring (Z.to_nat decpt) (String.length ds - Z.to_nat decpt) ds.

(** [repr(x)], which is also [str(x)] and what an f-string with no format
    specification writes. *)
Definition float_repr (x : float) : string :=
  match Prim2SF x with
  | S754_nan => "nan"
  | S754_infinity s => if s then "-inf" else "inf"
  | S754_zero s => if s then "-0.0" else "0.0"
  | S754_finite s m e =>
      let '(c, q) := shortest_digits m e 1 17 in
      let all := str_of_int c in
      (if s then "-" else "")
      +:+ repr_digits (drop_trailing_zeros all) (Z.of_nat (String.length all) + q)
  end.

(** ** The console, the debugger and the script's monad *)

(** What the script does to the outside, in the order it does it. *)
Inductive event :=
| Print (s : string)                       (* print(s): s and a newline *)
| Prompt (s : string)                      (* input(s) writes its prompt *)
| DebugListen (host : string) (port : Z)   (* debugpy.listen((host, port)) *)
| DebugWaitForClient                       (* debugpy.wait_for_client() *)
| DebugBreakpoint.                         (* debugpy.breakpoint() *)

(** The world the script runs in: the lines still to be read from the console,
    the events so far (oldest first), and the choices the thread scheduler will
    make. *)
Record world := World {
  stdin : list string;
  trace : list event;
  schedule : list nat
}.

Definition M (A : Type) : Type := world → outcome A * world.

#[global] Instance M_ret : MRet M := fun A a w => (Ok a, w).
#[global] Instance M_bind : MBind M := fun A B f m w =>
  match m w with
  | (Ok a, w') => f a w'
  | (Raise e, w') => (Raise e, w')
  end.

(** A pure, fallible expression evaluated in the script. *)
Definition lift {A} (o : outcome A) : M A := fun w => (o, w).

Definition emit (ev : event) : M unit := fun w =>
  (Ok (), World (stdin w) (trace w ++ [ev]) (schedule w)).

Definition print (s : string) : M unit := emit (Print s).

(** [input(prompt)]: the prompt is written, then a line is read; at the end of
    the input [EOFError] is raised. *)
Definition input (prompt : string) : M string := fun w =>
  let tr := trace w ++ [Prompt prompt] in
  match stdin w with
  | line :: rest => (Ok line, World rest tr (schedule w))
  | [] => (Raise (Exn EOFError "EOF when reading a line"), World [] tr (schedule w))
  end.

(** [time.sleep(t)]: nothing observable happens in a single thread. *)
Definition sleep : M unit := mret ().

(** [try: body  except cls as e: handler e]. *)
Definition try_except {A} (body : M A) (cls : exn_class) (handler : exn → M A) : M A :=
  fun w =>
    match body w with
    | (Raise e, w') => if issubclass (exn_cls e) cls then handler e w' else (Raise e, w')
    | r => r
    end.

(** [for x in xs: body x]. *)
Fixpoint for_each {A} (xs : list A) (body : A → M unit) : M unit :=
  match xs with
  | [] => mret ()
  | x :: xs' => body x;; for_each xs' body
  end.

(** A loop that carries the variables it assigns in [S]. *)
Fixpoint for_fold {A S} (xs : list A) (body : S → A → M S) (s : S) : M S :=
  match xs with
  | [] => mret s
  | x :: xs' => s' ← body s x; for_fold xs' body s'
  end.

(** The double quote, for the texts that contain one. *)
Definition dq : string := String (ascii_of_nat 34) EmptyString.

(** ** The script *)

(** *** Helpers *)

Definition banner (section_number : Z) (title : string) : M unit :=
  let width := 70%nat in
  print ("
" +:+ str_repeat "=" width);;
  print ("  Section " +:+ str_of_int section_number +:+ ": " +:+ title);;
  print (str_repeat "=" width +:+ "
").

Definition pause_prompt : string := "
>>> Press Enter to continue to the next section...
".

Definition pause : M unit :=
  input pause_prompt;;
  mret ().

(** *** Section 1: remote debugging setup *)

Definition section1 : M unit :=
  banner 1 "Remote Debugging Setup";;
  print "Starting debugpy listener on 0.0.0.0:5678 ...";;
  emit (DebugListen "0.0.0.0" 5678);;
  print ("
debugpy is now listening for a VS Code attach on port 5678.

  In VS Code on your laptop:
    1. Open the Run & Debug panel (Ctrl+Shift+D)
    2. Select the " +:+ dq +:+ "Python: Remote Attach" +:+ dq +:+ " configuration
    3. Click the green ▶ play button (or press F5)

  The script will resume once the debugger is attached.
");;
  emit DebugWaitForClient;;
  print "Debugger attached! Let's begin the demo.
";;
  pause.

(** *** Section 2: basic breakpoints and variable inspection *)

(** The dict literals of the script have fixed keys and are only read: they
    are records here, one field per key. *)
Record address_t := { street : string; city : string; state : string }.
Record user_t := { name : string; age : Z; roles : list string; address : address_t }.

Definition sum_int (xs : list Z) : Z := fold_left Z.add xs 0.

Definition explore_variables : M string :=
  let user :=
    {| name := "Alice"; age := 30; roles := ["admin"; "editor"];
       address := {| street := "123 Main St"; city := "Springfield"; state := "IL" |} |} in
  let scores := [85; 92; 78; 95; 88] in
  average ← lift (int_truediv (sum_int scores) (Z.of_nat (length scores)));
  let matrix := [[1; 2; 3]; [4; 5; 6]; [7; 8; 9]] in
  let message := name user +:+ " has an average score of " +:+ fmt_f false 1 average in
  print ("  Result: " +:+ message);;
  mret message.

Definition section2 : M unit :=
  banner 2 "Basic Breakpoints & Variable Inspection";;
  print "Demo: Set a breakpoint on the first line inside `explore_variables()`,
then inspect the local variables in the VS Code Variables panel.

Tip: Expand nested structures (dict, list) in the Variables panel.
";;
  explore_variables;;
  pause.

(** *** Section 3: stepping through code *)

(** [price] is a float and [discount_pct] an int, as in the script's call. *)
Definition apply_discount (price : float) (discount_pct : Z) : outcome float :=
  pct ← int_truediv discount_pct 100;
  let discount := (price * pct)%float in
  let final := (price - discount)%float in
  mret final.

Definition apply_tax (price tax_rate : float) : outcome float :=
  let tax := (price * tax_rate)%float in
  let total := (price + tax)%float in
  mret total.

(** [None] for an argument that the call leaves out. *)
Definition calculate_total (base_price : float) (discount_pct : option Z)
    (tax_rate : option float) : outcome float :=
  let discount_pct := default 10 discount_pct in
  let tax_rate := default 0.08%float tax_rate in
  discounted ← apply_discount base_price discount_pct;
  total ← apply_tax discounted tax_rate;
  py_round total 2.

(** The section up to its pause. *)
Definition section3_body : M unit :=
  banner 3 "Stepping Through Code (Step In / Step Over / Step Out)";;
  print "Demo: Set a breakpoint on the `calculate_total(...)` call below, then:
  - Step In  (F11)  → enters `calculate_total`, then `apply_discount`, then `apply_tax`
  - Step Over (F10) → runs the function without entering it
  - Step Out (Shift+F11) → finishes the current function and returns to the caller
";;
  result ← lift (calculate_total 250.00%float (Some 15) (Some 0.09%float));
  print ("  Final total: $" +:+ float_repr result).

Definition section3 : M unit :=
  section3_body;;
  pause.

(** *** Section 4: conditional breakpoints *)

Record catalog_item := { item_id : Z; item_name : string; item_price : float }.

Definition catalog : list catalog_item :=
  [ {| item_id := 1; item_name := "Widget Basic"; item_price := 25.00 |};
    {| item_id := 2; item_name := "Widget Plus"; item_price := 49.99 |};
    {| item_id := 3; item_name := "Widget Pro"; item_price := 149.99 |};
    {| item_id := 4; item_name := "Gadget Lite"; item_price := 19.99 |};
    {| item_id := 5; item_name := "Gadget Pro"; item_price := 199.99 |};
    {| item_id := 6; item_name := "Gadget Ultra"; item_price := 349.99 |};
    {| item_id := 7; item_name := "Accessory Pack"; item_price := 9.99 |};
    {| item_id := 8; item_name := "Premium Bundle"; item_price := 499.99 |} ].

(** The module-level variables that the catalog loop reads and assigns. *)
Record catalog_vars := {
  v_catalog : list catalog_item;
  v_item : option catalog_item;
  v_label : option string
}.

(** [f"  [{item['id']}] {item['name']:20s} ${item['price']:>8.2f}"] *)
Definition catalog_label (item : catalog_item) : string :=
  "  [" +:+ str_of_int (item_id item) +:+ "] " +:+ align_left 20 (item_name item)
  +:+ " $" +:+ align_right 8 (fmt_f false 2 (item_price item)).

Definition catalog_body (vars : catalog_vars) (item : catalog_item) : M catalog_vars :=
  let label := catalog_label item in
  print label;;
  mret {| v_catalog := v_catalog vars; v_item := Some item; v_label := Some label |}.

Definition catalog_loop (vars : catalog_vars) : M catalog_vars :=
  for_fold (v_catalog vars) catalog_body vars.

Definition section4 : M catalog_vars :=
  banner 4 "Conditional Breakpoints";;
  print ("Demo: Set a breakpoint inside the loop below, then right-click it and
choose " +:+ dq +:+ "Edit Breakpoint..." +:+ dq +:+ " → " +:+ dq +:+ "Expression" +:+ dq +:+ ". Try these conditions:

  item[" +:+ dq +:+ "id" +:+ dq +:+ "] == 5
  item[" +:+ dq +:+ "price" +:+ dq +:+ "] > 100
  " +:+ dq +:+ "Pro" +:+ dq +:+ " in item[" +:+ dq +:+ "name" +:+ dq +:+ "]

The debugger will only pause when the condition is True.
");;
  vars ← catalog_loop {| v_catalog := catalog; v_item := None; v_label := None |};
  pause;;
  mret vars.

(** *** Section 5: exception breakpoints *)

(** Both arguments are ints, as in the script's call. *)
Definition risky_division (a b : Z) : outcome float := int_truediv a b.

Definition parse_number (value : string) : outcome Z := int_of_str value.

(** [d[key]] on a dict with string keys. *)
Definition dict_getitem {V} (d : gmap string V) (key : string) : outcome V :=
  match d !! key with
  | Some v => Ok v
  | None => Raise (Exn KeyError (repr_str key))
  end.

Definition demo_zero_division : M unit :=
  print "  Attempting division by zero (caught)...";;
  try_except
    (result ← lift (risky_division 10 0); mret ())
    ZeroDivisionError
    (fun e => print ("  Caught ZeroDivisionError: " +:+ exn_msg e)).

Definition demo_value_error : M unit :=
  print "  Attempting to parse 'hello' as int (caught)...";;
  try_except
    (result ← lift (parse_number "hello"); mret ())
    ValueError
    (fun e => print ("  Caught ValueError: " +:+ exn_msg e)).

Definition demo_key_error : M unit :=
  print "  Attempting missing dict key (caught)...";;
  try_except
    (let data : gmap string Z := {[ "a" := 1; "b" := 2 ]} in
     value ← lift (dict_getitem data "missing_key"); mret ())
    KeyError
    (fun e => print ("  Caught KeyError: " +:+ exn_msg e)).

(** The three demonstrations, up to the closing message. *)
Definition section5_demos : M unit :=
  demo_zero_division;;
  demo_value_error;;
  demo_key_error;;
  print "
  All exceptions were caught — no crash.".

Definition section5 : M unit :=
  banner 5 "Exception Breakpoints";;
  print "Demo: In the VS Code Breakpoints panel, toggle:
  ☑ Raised Exceptions   — pauses on ALL exceptions (even caught ones)
  ☑ Uncaught Exceptions  — pauses only on unhandled exceptions

Watch how the debugger behaves differently for each exception below.
";;
  section5_demos;;
  pause.

(** *** Section 6: programmatic breakpoints *)

Record order_item := { oi_name : string; oi_price : float; oi_qty : Z }.

(** [sum(item["price"] * item["qty"] for item in items)] *)
Definition order_subtotal (items : list order_item) : outcome float :=
  products ← mapM (fun item => float_mul_int (oi_price item) (oi_qty item)) items;
  mret (py_sum products).

Definition process_order (order_id : Z) (items : list order_item) : M float :=
  subtotal ← lift (order_subtotal items);
  (if float_gt_int subtotal 500 then
     emit DebugBreakpoint;;
     print ("  ⚠ Large order #" +:+ str_of_int order_id +:+ " detected (subtotal: $"
            +:+ fmt_f false 2 subtotal +:+ ")")
   else mret ());;
  let tax := (subtotal * 0.08)%float in
  let total := (subtotal + tax)%float in
  print ("  Order #" +:+ str_of_int order_id +:+ ": subtotal=$" +:+ fmt_f false 2 subtotal
         +:+ ", tax=$" +:+ fmt_f false 2 tax +:+ ", total=$" +:+ fmt_f false 2 total);;
  mret total.

Definition small_order : list order_item :=
  [ {| oi_name := "Widget"; oi_price := 25.00; oi_qty := 2 |};
    {| oi_name := "Gadget"; oi_price := 15.00; oi_qty := 1 |} ].

Definition large_order : list order_item :=
  [ {| oi_name := "Premium Bundle"; oi_price := 499.99; oi_qty := 2 |};
    {| oi_name := "Accessory Pack"; oi_price := 9.99; oi_qty := 5 |} ].

Definition section6 : M unit :=
  banner 6 "Programmatic Breakpoints (debugpy.breakpoint())";;
  print "Demo: The code below uses `debugpy.breakpoint()` to trigger a pause
without needing to set a breakpoint in the IDE. This is useful for:
  - Breaking inside dynamically generated code
  - Breaking on specific conditions in production-like code
  - Sharing breakpoints via source control
";;
  process_order 1001 small_order;;
  process_order 1002 large_order;;
  pause.

(** *** Section 7: logpoints *)

(** The variables that one pass of the batch loop assigns. *)
Record batch_vars := {
  batch_id : Z;
  batch : list Z;
  pct : float;
  processed : list Z
}.

Definition batch_pass (data : list Z) (batch_size total i : Z) : outcome batch_vars :=
  let batch_id := i / batch_size + 1 in
  let batch := py_slice data i (i + batch_size) in
  q ← int_truediv (i + batch_size) total;
  let pct := py_min q 1.0%float in
  let processed := map (fun x => x ^ 2) batch in
  mret {| batch_id := batch_id; batch := batch; pct := pct; processed := processed |}.

(** The passes of [for i in range(0, total, batch_size)], in order: the loop
    assigns local variables and sleeps, nothing else. *)
Definition batch_passes (data : list Z) (batch_size : Z) : outcome (list batch_vars) :=
  let total := Z.of_nat (length data) in
  indices ← py_range 0 total batch_size;
  mapM (batch_pass data batch_size total) indices.

(** After the loop the local variables hold what the last pass assigned; with
    no pass [batch_id] is unbound. *)
Definition process_batches (data : list Z) (batch_size : option Z) : M unit :=
  let batch_size := default 3 batch_size in
  let total := Z.of_nat (length data) in
  passes ← lift (batch_passes data batch_size);
  match last passes with
  | Some vars =>
      print ("  Processed " +:+ str_of_int total +:+ " items in "
             +:+ str_of_int (batch_id vars) +:+ " batches.")
  | None =>
      lift (Raise (Exn UnboundLocalError
        "cannot access local variable 'batch_id' where it is not associated with a value"))
  end.

Definition sample_data : list Z := map Z.of_nat (seq 1 15).

Definition section7 : M unit :=
  banner 7 "Logpoints";;
  print ("Demo: Instead of adding print() statements, use VS Code Logpoints:

  1. Click in the gutter to the left of a line number (where you'd set a breakpoint)
  2. Right-click → " +:+ dq +:+ "Add Logpoint..." +:+ dq +:+ "
  3. Enter a log message using {expression} for interpolation, e.g.:
       Processing batch {batch_id}: progress={pct:.0%}

Logpoints print to the Debug Console without pausing execution.
");;
  process_batches sample_data (Some 4);;
  pause.

(** *** Section 8: multi-threaded debugging *)

Definition worker_status (name : string) (steps step : Z) : string :=
  "  [" +:+ name +:+ "] Step " +:+ str_of_int step +:+ "/" +:+ str_of_int steps.

Definition worker_done (name : string) : string := "  [" +:+ name +:+ "] Done!".

Definition worker (name : string) (steps : Z) : M unit :=
  indices ← lift (py_range 1 (steps + 1) 1);
  for_each indices (fun step =>
    let status := worker_status name steps step in
    print status;;
    sleep);;
  print (worker_done name).

(** What a call of [worker] does: a status line for each of the steps
    [1 .. steps], then the completion line. *)
Definition worker_events (name : string) (steps : Z) : list event :=
  map (fun step => Print (worker_status name steps step))
      (map Z.of_nat (seq 1 (Z.to_nat steps)))
  ++ [Print (worker_done name)].

Definition worker_specs : list (string * Z) :=
  [("Downloader", 4); ("Processor", 3); ("Uploader", 5)].

Definition threads_summary : string := "
  All threads finished.".

(** A started thread is the sequence of events that its target still has to
    perform: a worker reads nothing, so its events are those of a run on its
    own, and another thread may run between any two of them. *)
Definition thread_events (target : M unit) : list event :=
  trace (snd (target (World [] [] []))).

(** Where the main thread stands: in the loop that creates and starts the
    threads, in the loop that joins them, or past the summary line. *)
Inductive main_pc :=
| Spawning (todo : list (string * Z))
| Joining (k : nat)
| Returned.

Record pool := Pool {
  pool_main : main_pc;
  pool_threads : list (list event);
  pool_out : list event
}.

Inductive agent :=
| MainThread
| WorkerThread (i : nat).

(** One atomic step of an agent, [None] when it cannot run: [t.join()] waits
    until the thread has no event left, a finished thread does not run. *)
Definition pool_step (st : pool) (a : agent) : option pool :=
  match a with
  | MainThread =>
      match pool_main st with
      | Spawning ((worker_name, steps) :: todo) =>
          Some (Pool (Spawning todo)
                  (pool_threads st ++ [thread_events (worker worker_name steps)])
                  (pool_out st))
      | Spawning [] => Some (Pool (Joining 0) (pool_threads st) (pool_out st))
      | Joining k =>
          match pool_threads st !! k with
          | Some [] => Some (Pool (Joining (S k)) (pool_threads st) (pool_out st))
          | Some (_ :: _) => None
          | None =>
              Some (Pool Returned (pool_threads st) (pool_out st ++ [Print threads_summary]))
          end
      | Returned => None
      end
  | WorkerThread i =>
      match pool_threads st !! i with
      | Some (ev :: rest) =>
          Some (Pool (pool_main st) (<[i := rest]> (pool_threads st)) (pool_out st ++ [ev]))
      | _ => None
      end
  end.

Definition pool_init : pool := Pool (Spawning worker_specs) [] [].

(** Every interleaving: a step of any agent that can run. *)
Definition pool_next (st st' : pool) : Prop := ∃ a, pool_step st a = Some st'.

Definition pool_reachable (st : pool) : Prop := rtc pool_next pool_init st.

(** The agents that can run. *)
Definition agents (st : pool) : list agent :=
  MainThread :: map WorkerThread (seq 0 (length (pool_threads st))).

Definition enabled (st : pool) : list agent :=
  filter (fun a => is_Some (pool_step st a)) (agents st).

(** A run under a scheduler: each choice picks one of the agents that can run;
    when the choices are used up the first such agent runs. *)
Fixpoint run_pool (fuel : nat) (sched : list nat) (st : pool) : pool * list nat :=
  match fuel with
  | O => (st, sched)
  | S fuel' =>
      let en := enabled st in
      let c := hd 0%nat sched in
      match en !! (c mod length en)%nat ≫= pool_step st with
      | Some st' => run_pool fuel' (tl sched) st'
      | None => (st, sched)
      end
  end.

(** The number of steps left in a state. *)
Definition main_steps (pc : main_pc) (started : nat) : nat :=
  match pc with
  | Spawning todo => 2 * length todo + started + 2
  | Joining k => started - k + 1
  | Returned => 0
  end.

Definition todo_events (pc : main_pc) : nat :=
  match pc with
  | Spawning todo =>
      sum_list (map (fun '(n, s) => length (thread_events (worker n s))) todo)
  | _ => 0
  end.

Definition pool_steps (st : pool) : nat :=
  (main_steps (pool_main st) (length (pool_threads st))
   + todo_events (pool_main st)
   + sum_list (map length (pool_threads st)))%nat.

Definition run_threads : M unit := fun w =>
  let '(st, sched) := run_pool (pool_steps pool_init) (schedule w) pool_init in
  (Ok (), World (stdin w) (trace w ++ pool_out st) sched).

Definition section8 : M unit :=
  banner 8 "Multi-threaded Debugging";;
  print "Demo: This section spawns 3 worker threads. In VS Code:
  - Open the Call Stack panel to see all threads
  - Click a thread to switch to its call stack
  - Set a breakpoint inside `worker()` — each thread will pause independently
  - Notice the thread name in the Call Stack panel
";;
  run_threads;;
  pause.

(** *** Section 9: watch expressions and the debug console *)

Record transaction := { txn_id : Z; txn_amount : float; txn_desc : string }.

(** The variables that the transaction loop carries from pass to pass.
    [running_total] starts as the int [0]; the first addition of a float
    converts it, and [0.0] is written the same by every format used here. *)
Record txn_vars := {
  running_total : float;
  history : list float;
  high_value_count : Z
}.

Definition txn_init : txn_vars :=
  {| running_total := 0; history := []; high_value_count := 0 |}.

Definition enumerate {A} (l : list A) : list (Z * A) :=
  zip (map Z.of_nat (seq 0 (length l))) l.

(** [f"  Txn {i+1:2d}: ${amount:>8.2f} | Running total: ${running_total:>10.2f} | Avg: ${avg:>8.2f}"] *)
Definition txn_status (i : Z) (amount total avg : float) : string :=
  "  Txn " +:+ fmt_d 2 (i + 1) +:+ ": $" +:+ align_right 8 (fmt_f false 2 amount)
  +:+ " | Running total: $" +:+ align_right 10 (fmt_f false 2 total)
  +:+ " | Avg: $" +:+ align_right 8 (fmt_f false 2 avg).

Definition txn_body (vars : txn_vars) (it : Z * transaction) : M txn_vars :=
  let '(i, txn) := it in
  let amount := txn_amount txn in
  let running_total := (running_total vars + amount)%float in
  let history := history vars ++ [running_total] in
  let high_value_count :=
    if float_gt_int amount 100 then high_value_count vars + 1 else high_value_count vars in
  n ← lift (float_of_int (i + 1));
  avg ← lift (float_truediv running_total n);
  let status := txn_status i amount running_total avg in
  print status;;
  mret {| running_total := running_total; history := history;
          high_value_count := high_value_count |}.

Definition txn_loop (transactions : list transaction) : M txn_vars :=
  for_fold (enumerate transactions) txn_body txn_init.

Definition analyze_transactions (transactions : list transaction) : M unit :=
  vars ← txn_loop transactions;
  print ("
  Summary: " +:+ str_of_int (Z.of_nat (length transactions)) +:+ " transactions, "
         +:+ str_of_int (high_value_count vars) +:+ " high-value");;
  print ("  Final total: $" +:+ fmt_f true 2 (running_total vars)).

Definition transactions : list transaction :=
  [ {| txn_id := 1; txn_amount := 45.00; txn_desc := "Office supplies" |};
    {| txn_id := 2; txn_amount := 250.00; txn_desc := "Software license" |};
    {| txn_id := 3; txn_amount := 12.50; txn_desc := "Coffee" |};
    {| txn_id := 4; txn_amount := 899.99; txn_desc := "New monitor" |};
    {| txn_id := 5; txn_amount := 34.99; txn_desc := "Books" |};
    {| txn_id := 6; txn_amount := 150.00; txn_desc := "Training course" |};
    {| txn_id := 7; txn_amount := 67.50; txn_desc := "Team lunch" |};
    {| txn_id := 8; txn_amount := 2400.00; txn_desc := "Server rental" |};
    {| txn_id := 9; txn_amount := 5.99; txn_desc := "Domain renewal" |};
    {| txn_id := 10; txn_amount := 175.00; txn_desc := "Conference ticket" |} ].

Definition section9 : M unit :=
  banner 9 "Watch Expressions & Debug Console";;
  print "Demo: Set a breakpoint inside the loop below, then:

  Watch Expressions (in the Watch panel, click +):
    - running_total
    - len(history)
    - max(history) if history else 0
    - running_total / len(history)

  Debug Console (bottom panel):
    - Type any Python expression to evaluate it in the current frame
    - Try: history[-3:]
    - Try: [h for h in history if h > 100]
    - Try: import math; math.sqrt(running_total)
";;
  analyze_transactions transactions.

Definition epilogue : M unit :=
  print ("
" +:+ str_repeat "=" 70);;
  print "  Demo complete! Disconnect the debugger when ready.";;
  print (str_repeat "=" 70 +:+ "
").

(** *** The whole script *)

(** Sections 6 to 9 and the closing lines: what runs after Section 5. *)
Definition after_section5 : M unit :=
  section6;;
  section7;;
  section8;;
  section9;;
  epilogue.

Definition script : M unit :=
  section1;;
  section2;;
  section3;;
  section4;;
  section5;;
  after_section5.

(** * Specifications

    The vocabulary of the properties below: what monadic code does to the
    world, the value of a double as an integer, the invariant of the thread
    pool and the interleavings of its threads, the sums and counts that the
    loops of the script maintain, blank texts, and the interactions of a run
    with the debugger and the console. *)

(** ** Monadic code *)

(** [m] performs the events [evs] and returns [a], whatever the world, and
    reads nothing from it. *)
Definition emits {A} (m : M A) (evs : list event) (a : A) : Prop :=
  ∀ w, m w = (Ok a, World (stdin w) (trace w ++ evs) (schedule w)).

(** [m] raises [e] after the events [evs]. *)
Definition fails {A} (m : M A) (evs : list event) (e : exn) : Prop :=
  ∀ w, m w = (Raise e, World (stdin w) (trace w ++ evs) (schedule w)).

(** [m] returns after reading [k] lines from the console, and the events it
    performs end with [tail]. *)
Definition finishes {A} (m : M A) (k : nat) (tail : list event) : Prop :=
  ∀ w, (k ≤ length (stdin w))%nat →
    ∃ a evs sched,
      m w = (Ok a, World (drop k (stdin w)) (trace w ++ evs ++ tail) sched).

(** ** Doubles *)

(** The value of a float with mantissa [m] and exponent [e >= emin], in units
    of the least positive double. *)
Definition Zval (m e : Z) : Z := m * 2 ^ (e - emin).

(** The mantissa [m] has the number of digits that the format gives a double
    of exponent [e]: the float is in normal form. *)
Definition canonical (m : positive) (e : Z) : Prop :=
  fexp prec emax (Z.pos (digits2_pos m) + e) = e.









(** ** The orders *)

(** The sum of [price * qty] over the items, from left to right, each
    quantity as the nearest double. *)
Definition sum_of_products (items : list order_item) : float :=
  fold_left (fun acc item => (acc + oi_price item * nearest_float (oi_qty item))%float)
    items 0%float.

(** An order with a quantity that no float holds. *)
Definition huge_order : list order_item :=
  [ {| oi_name := "Widget"; oi_price := 25.00; oi_qty := 2 ^ 1024 |} ].

(** What [process_order] does once the subtotal is known. *)
Definition order_events (order_id : Z) (subtotal : float) : list event :=
  (if float_gt_int subtotal 500
   then [ DebugBreakpoint;
          Print ("  ⚠ Large order #" +:+ str_of_int order_id +:+ " detected (subtotal: $"
                 +:+ fmt_f false 2 subtotal +:+ ")") ]
   else [])
  ++ [ Print ("  Order #" +:+ str_of_int order_id +:+ ": subtotal=$"
              +:+ fmt_f false 2 subtotal
              +:+ ", tax=$" +:+ fmt_f false 2 (subtotal * 0.08)%float
              +:+ ", total=$" +:+ fmt_f false 2 (subtotal + subtotal * 0.08)%float) ].

(** ** The thread pool *)

(** What holds in every state that an interleaving reaches: each started
    thread runs the events of its worker, in order, and the events it has
    performed are in the output; the summary line is in the output only once
    the main thread has returned, and then it is the last line. *)
Definition pool_inv (st : pool) : Prop :=
  (length (pool_threads st) ≤ length worker_specs)%nat ∧
  (∀ i name steps rest,
     worker_specs !! i = Some (name, steps) →
     pool_threads st !! i = Some rest →
     ∃ performed, worker_events name steps = performed ++ rest ∧
                  ∀ ev, ev ∈ performed → ev ∈ pool_out st) ∧
  match pool_main st with
  | Spawning todo =>
      drop (length (pool_threads st)) worker_specs = todo ∧
      Print threads_summary ∉ pool_out st
  | Joining k =>
      length (pool_threads st) = length worker_specs ∧
      (∀ i, (i < k)%nat → (i < length (pool_threads st))%nat →
            pool_threads st !! i = Some []) ∧
      Print threads_summary ∉ pool_out st
  | Returned =>
      length (pool_threads st) = length worker_specs ∧
      (∀ i rest, pool_threads st !! i = Some rest → rest = []) ∧
      ∃ pre, pool_out st = pre ++ [Print threads_summary] ∧
             Print threads_summary ∉ pre
  end.

(** [out] is an interleaving of the lists [ls]: each element of [out] is the
    next element of one of them, and all of them are used up. *)
Inductive interleaving {A} : list (list A) → list A → Prop :=
| interleaving_done ls : Forall (fun l => l = []) ls → interleaving ls []
| interleaving_next ls i x rest out :
    ls !! i = Some (x :: rest) →
    interleaving (<[i := rest]> ls) out →
    interleaving ls (x :: out).

(** What the workers have printed in a state of the pool: the output, but for
    the summary line of the main thread once it has returned. *)
Definition printed_by_workers (st : pool) (lines : list event) : Prop :=
  pool_out st = lines ++ match pool_main st with
                         | Returned => [Print threads_summary]
                         | _ => []
                         end.

(** The output so far is an interleaving of what each started worker has
    performed of its events. *)
Definition pool_interleaved (st : pool) : Prop :=
  ∃ performed lines,
    length performed = length (pool_threads st) ∧
    (∀ i p rest name steps,
       performed !! i = Some p → pool_threads st !! i = Some rest →
       worker_specs !! i = Some (name, steps) →
       worker_events name steps = p ++ rest) ∧
    interleaving performed lines ∧
    printed_by_workers st lines.

(** ** The transactions *)

(** The running sums of a list of amounts, from a starting total. *)
Fixpoint running_sums (total : float) (xs : list float) : list float :=
  match xs with
  | [] => []
  | x :: xs' => (total + x)%float :: running_sums (total + x)%float xs'
  end.

(** The first [k] prefix sums of [xs], for [k = 1 .. length xs]. *)
Definition prefix_sums (xs : list float) : list float :=
  map (fun k => py_sum (take k xs)) (seq 1 (length xs)).

(** The number of amounts that are greater than 100. *)
Definition count_high (xs : list float) : Z :=
  Z.of_nat (length (filter (fun a => float_gt_int a 100 = true) xs)).

(** Each element is at most the next one. *)
Definition nondecreasing (xs : list float) : Prop :=
  ∀ j a b, xs !! j = Some a → xs !! S j = Some b → (a <=? b)%float = true.

(** ** The end of the run *)

(** The closing lines of the script. *)
Definition epilogue_events : list event :=
  [ Print ("
" +:+ str_repeat "=" 70);
    Print "  Demo complete! Disconnect the debugger when ready.";
    Print (str_repeat "=" 70 +:+ "
") ].

(** ** Text *)

(** A text of ASCII whitespace only: spaces, tabs, line feeds, vertical tabs,
    form feeds and carriage returns. *)
Definition blank (s : string) : Prop :=
  Forall (fun c => c ∈ [" "; "009"; "010"; "011"; "012"; "013"]%char)
    (list_ascii_of_string s).

(** A text of ASCII characters only. *)
Definition ascii_text (s : string) : Prop :=
  Forall (fun c => (nat_of_ascii c < 128)%nat) (list_ascii_of_string s).

(** The ints that [str] and the f-strings turn into text: those of at most
    4300 digits. *)
Definition str_limit (n : Z) : Prop := Z.abs n < 10 ^ 4300.

(** ** The interactions of a run *)

Definition is_print (ev : event) : bool :=
  match ev with
  | Print _ => true
  | _ => false
  end.

(** What a run does besides printing: the calls of the debugger and the
    prompts of the console, in order. *)
Definition interactions (evs : list event) : list event :=
  List.filter (fun ev => negb (is_print ev)) evs.

(** [m] returns after reading [k] lines from the console, and its
    interactions are [acts]. *)
Definition completes {A} (m : M A) (k : nat) (acts : list event) : Prop :=
  ∀ w, (k ≤ length (stdin w))%nat →
    ∃ a evs sched,
      m w = (Ok a, World (drop k (stdin w)) (trace w ++ evs) sched) ∧
      interactions evs = acts.

(** On a console with fewer than [k] lines [m] ends with [EOFError], raised
    at a pause after the last line was read. *)
Definition starves {A} (m : M A) (k : nat) : Prop :=
  ∀ w, (length (stdin w) < k)%nat →
    ∃ evs sched,
      m w = (Raise (Exn EOFError "EOF when reading a line"),
             World [] (trace w ++ evs ++ [Prompt pause_prompt]) sched).

(** * Properties *)

(** ** Facts on binary64 arithmetic *)

Lemma digits2_pos_size p : digits2_pos p = Pos.size p.
Proof. induction p; cbn; congruence. Qed.

(** [2^(d-1) <= p < 2^d] for [d] the number of binary digits of [p]. *)
Lemma digits2_pos_bounds p :
  2 ^ (Z.pos (digits2_pos p) - 1) ≤ Z.pos p < 2 ^ Z.pos (digits2_pos p).
Proof.
  rewrite digits2_pos_size. split.
  - pose proof (Pos.size_le p) as H.
    assert (H' : 2 ^ Z.pos (Pos.size p) ≤ 2 * Z.pos p).
    { change 2 with (Z.pos 2) at 1. rewrite <- Pos2Z.inj_pow.
      change (2 * Z.pos p) with (Z.pos p~0). by apply Pos2Z.pos_le_pos. }
    replace (Z.pos (Pos.size p)) with (Z.succ (Z.pos (Pos.size p) - 1)) in H' by lia.
    rewrite Z.pow_succ_r in H' by lia. lia.
  - pose proof (Pos.size_gt p) as H.
    change 2 with (Z.pos 2). rewrite <- Pos2Z.inj_pow. by apply Pos2Z.pos_lt_pos.
Qed.

Lemma pos_iter_xO m d : Z.pos (Pos.iter xO m d) = Z.pos m * 2 ^ Z.pos d.
Proof.
  change (Pos.iter xO m d) with (shift_pos d m).
  rewrite shift_pos_correct. rewrite Z.mul_comm. f_equal.
Qed.

Lemma Zval_mono m m' e : m ≤ m' → Zval m e ≤ Zval m' e.
Proof. intros H. unfold Zval. apply Z.mul_le_mono_nonneg_r; [apply Z.pow_nonneg|]; lia. Qed.

Lemma Zval_shift m e k : 0 ≤ k → emin ≤ e → Zval (m * 2 ^ k) e = Zval m (e + k).
Proof.
  intros Hk He. unfold Zval.
  replace (e + k - emin) with (k + (e - emin)) by lia.
  rewrite Z.pow_add_r by lia. ring.
Qed.

(** The bounds of a value from the digits of its mantissa. *)
Lemma Zval_bounds p e :
  emin ≤ e →
  2 ^ (Z.pos (digits2_pos p) + e - 1 - emin) ≤ Zval (Z.pos p) e
  < 2 ^ (Z.pos (digits2_pos p) + e - emin).
Proof.
  intros He. pose proof (digits2_pos_bounds p) as [Hl Hu]. unfold Zval.
  assert (Hpos : 0 < 2 ^ (e - emin)) by (apply Z.pow_pos_nonneg; lia).
  replace (Z.pos (digits2_pos p) + e - 1 - emin)
    with ((Z.pos (digits2_pos p) - 1) + (e - emin)) by lia.
  replace (Z.pos (digits2_pos p) + e - emin)
    with (Z.pos (digits2_pos p) + (e - emin)) by lia.
  rewrite !Z.pow_add_r by lia. split.
  - by apply Z.mul_le_mono_nonneg_r; [lia|].
  - by apply Z.mul_lt_mono_pos_r.
Qed.

Lemma fexp_mono a b : a ≤ b → fexp prec emax a ≤ fexp prec emax b.
Proof. unfold fexp. lia. Qed.

Lemma fexp_ge_emin a : emin ≤ fexp prec emax a.
Proof. unfold fexp. lia. Qed.

(** *** Shifting a mantissa to the right *)

Lemma shr_1_m mrs : 0 ≤ shr_m mrs → shr_m (shr_1 mrs) = shr_m mrs / 2.
Proof.
  destruct mrs as [[|[p|p|]|p] r s]; cbn [shr_1 shr_m]; intros H; try lia; try reflexivity.
  - rewrite Pos2Z.inj_xI. apply Z.div_unique with 1; lia.
  - rewrite Pos2Z.inj_xO. apply Z.div_unique with 0; lia.
Qed.

Lemma iter_pos_shr_1_m n mrs :
  0 ≤ shr_m mrs → shr_m (SpecFloat.iter_pos shr_1 n mrs) = shr_m mrs / 2 ^ Z.pos n.
Proof.
  revert mrs. induction n as [n IH|n IH|]; intros mrs Hm; cbn [SpecFloat.iter_pos].
  - assert (H1 : 0 ≤ shr_m (shr_1 mrs)).
    { rewrite shr_1_m by done. apply Z.div_pos; lia. }
    assert (H2 : 0 ≤ shr_m (SpecFloat.iter_pos shr_1 n (shr_1 mrs))).
    { rewrite IH by done. apply Z.div_pos; [done|]. apply Z.pow_pos_nonneg; lia. }
    rewrite IH, IH, shr_1_m by done.
    assert (Hp : 0 < 2 ^ Z.pos n) by (apply Z.pow_pos_nonneg; lia).
    rewrite !Z.div_div by lia. f_equal.
    rewrite Pos2Z.inj_xI.
    replace (2 * Z.pos n + 1) with (1 + Z.pos n + Z.pos n) by lia.
    rewrite !Z.pow_add_r by lia. change (2 ^ 1) with 2. ring.
  - assert (H2 : 0 ≤ shr_m (SpecFloat.iter_pos shr_1 n mrs)).
    { rewrite IH by done. apply Z.div_pos; [done|]. apply Z.pow_pos_nonneg; lia. }
    rewrite IH, IH by done.
    assert (Hp : 0 < 2 ^ Z.pos n) by (apply Z.pow_pos_nonneg; lia).
    rewrite Z.div_div by lia. f_equal.
    rewrite <- Z.pow_add_r by lia. f_equal. lia.
  - rewrite shr_1_m by done. reflexivity.
Qed.

Lemma shr_record_of_loc_m m l : shr_m (shr_record_of_loc m l) = m.
Proof. by destruct l as [|[]]. Qed.

(** The mantissa and the exponent after [shr_fexp]. *)
Lemma shr_fexp_spec m e l :
  0 ≤ m →
  let e' := Z.max e (fexp prec emax (Zdigits2 m + e)) in
  snd (shr_fexp prec emax m e l) = e' ∧
  shr_m (fst (shr_fexp prec emax m e l)) = m / 2 ^ (e' - e).
Proof.
  intros Hm e'. unfold shr_fexp, shr. subst e'.
  destruct (fexp prec emax (Zdigits2 m + e) - e) as [|n|n] eqn:Hn; cbn [fst snd].
  - rewrite Z.max_l by lia. rewrite Z.sub_diag, Z.div_1_r.
    by rewrite shr_record_of_loc_m.
  - rewrite Z.max_r by lia. split; [lia|].
    rewrite iter_pos_shr_1_m by (by rewrite shr_record_of_loc_m).
    rewrite shr_record_of_loc_m. f_equal. f_equal. lia.
  - rewrite Z.max_l by lia. rewrite Z.sub_diag, Z.div_1_r.
    by rewrite shr_record_of_loc_m.
Qed.

(** *** Rounding down never crosses a double *)

Lemma canonical_emin m e : canonical m e → emin ≤ e.
Proof. intros <-. apply fexp_ge_emin. Qed.

Lemma pow2_le a b : a ≤ b → 2 ^ a ≤ 2 ^ b.
Proof. intros H. apply Z.pow_le_mono_r; lia. Qed.

(** [x] is a double and [v >= x] a value on a finer grid: cutting [v] down to
    the grid of the doubles of its size leaves it above [x]. *)
Lemma round_down_ge (mx : positive) (ex : Z) (m : positive) (e : Z) :
  canonical mx ex → emin ≤ e →
  Zval (Z.pos mx) ex ≤ Zval (Z.pos m) e →
  Zval (Z.pos mx) ex
  ≤ Zval (Z.pos m / 2 ^ (Z.max e (fexp prec emax (Z.pos (digits2_pos m) + e)) - e))
         (Z.max e (fexp prec emax (Z.pos (digits2_pos m) + e))).
Proof.
  intros Hc He Hle.
  pose proof (canonical_emin _ _ Hc) as Hex.
  pose proof (Zval_bounds mx ex Hex) as [Hxl Hxu].
  pose proof (Zval_bounds m e He) as [Hvl Hvu].
  pose proof (digits2_pos_bounds m) as [Hml Hmu].
  set (dx := Z.pos (digits2_pos mx)) in *.
  set (dm := Z.pos (digits2_pos m)) in *.
  assert (Hdx : 1 ≤ dx) by (unfold dx; lia).
  assert (HE : dx + ex ≤ dm + e).
  { destruct (Z.le_gt_cases (dx + ex) (dm + e)) as [|Hgt]; [done|].
    pose proof (pow2_le (dm + e - emin) (dx + ex - 1 - emin) ltac:(lia)). lia. }
  pose proof (fexp_mono _ _ HE) as Hg. unfold canonical in Hc. fold dx in Hc.
  rewrite Hc in Hg.
  destruct (Z.max_spec e (fexp prec emax (dm + e))) as [[Hlt ->]|[Hge ->]].
  2: { rewrite Z.sub_diag, Z.div_1_r. done. }
  set (g := fexp prec emax (dm + e)) in *.
  assert (Hk : 0 < 2 ^ (g - e)) by (apply Z.pow_pos_nonneg; lia).
  assert (Hu : 0 < 2 ^ (e - emin)) by (apply Z.pow_pos_nonneg; lia).
  destruct (Z.eq_dec g ex) as [Heq|Hne].
  - (* the same grid as [x] *)
    apply Z.le_trans with (Zval (Z.pos mx) g); [by rewrite Heq|].
    apply Zval_mono. apply Z.div_le_lower_bound; [done|].
    unfold Zval in Hle.
    replace (ex - emin) with ((g - e) + (e - emin)) in Hle by lia.
    rewrite Z.pow_add_r in Hle by lia.
    rewrite Z.mul_assoc in Hle. apply Z.mul_le_mono_pos_r in Hle; [lia|done].
  - (* a coarser grid: a power of two lies between [x] and [v] *)
    assert (HE' : dx + ex < dm + e).
    { destruct (Z.eq_dec (dx + ex) (dm + e)) as [Heq|]; [|lia].
      exfalso. apply Hne. unfold g. by rewrite <- Heq. }
    assert (Hgd : g - e ≤ dm - 1).
    { unfold g, fexp, SpecFloat.emin, prec, emax in *. lia. }
    apply Z.le_trans with (Zval (2 ^ (dm - 1 - (g - e))) g).
    + unfold Zval at 2. rewrite <- Z.pow_add_r by lia.
      replace (dm - 1 - (g - e) + (g - emin)) with (dm + e - 1 - emin) by lia.
      pose proof (pow2_le (dx + ex - emin) (dm + e - 1 - emin) ltac:(lia)). lia.
    + apply Zval_mono. apply Z.div_le_lower_bound; [done|].
      rewrite <- Z.pow_add_r by lia.
      replace (g - e + (dm - 1 - (g - e))) with (dm - 1) by lia. done.
Qed.

Lemma round_nearest_even_ge m l : m ≤ round_nearest_even m l.
Proof. destruct l as [|[]]; cbn; [lia| |lia|lia]. destruct (Z.even m); lia. Qed.

Lemma Zdigits2_pos p : Zdigits2 (Z.pos p) = Z.pos (digits2_pos p).
Proof. reflexivity. Qed.

Lemma Zval_pos_iff m e : emin ≤ e → 0 < Zval m e → 0 < m.
Proof.
  intros He H. unfold Zval in H.
  assert (0 < 2 ^ (e - emin)) by (apply Z.pow_pos_nonneg; lia).
  destruct (Z.le_gt_cases m 0) as [Hm|]; [|done].
  assert (m * 2 ^ (e - emin) ≤ 0) by (apply Z.mul_nonpos_nonneg; lia). lia.
Qed.

(** Rounding a value that is not below the double [x] gives a double that is
    not below [x], or overflows. *)
Lemma binary_round_aux_ge (mx : positive) (ex : Z) (m : positive) (e : Z) l :
  canonical mx ex → emin ≤ e →
  Zval (Z.pos mx) ex ≤ Zval (Z.pos m) e →
  binary_round_aux prec emax false (Z.pos m) e l = S754_infinity false ∨
  ∃ m' e', binary_round_aux prec emax false (Z.pos m) e l = S754_finite false m' e' ∧
           Zval (Z.pos mx) ex ≤ Zval (Z.pos m') e'.
Proof.
  intros Hc He Hle.
  pose proof (canonical_emin _ _ Hc) as Hex.
  assert (Hx : 0 < Zval (Z.pos mx) ex).
  { unfold Zval. apply Z.mul_pos_pos; [lia|]. apply Z.pow_pos_nonneg; lia. }
  unfold binary_round_aux.
  destruct (shr_fexp_spec (Z.pos m) e l ltac:(lia)) as [He1 Hm1].
  destruct (shr_fexp prec emax (Z.pos m) e l) as [mrs1 e1]. cbn [fst snd] in He1, Hm1.
  pose proof (round_down_ge mx ex m e Hc He Hle) as H1.
  rewrite Zdigits2_pos in He1, Hm1. rewrite <- Hm1, <- He1 in H1.
  assert (He1' : emin ≤ e1) by lia.
  pose proof (round_nearest_even_ge (shr_m mrs1) (loc_of_shr_record mrs1)) as H2.
  set (m2 := round_nearest_even (shr_m mrs1) (loc_of_shr_record mrs1)) in *.
  assert (Hm2 : Zval (Z.pos mx) ex ≤ Zval m2 e1).
  { eapply Z.le_trans; [exact H1|]. by apply Zval_mono. }
  assert (Hp2 : 0 < m2) by (apply Zval_pos_iff with e1; lia).
  destruct m2 as [|p2|p2]; [lia| |lia].
  destruct (shr_fexp_spec (Z.pos p2) e1 loc_Exact ltac:(lia)) as [He3 Hm3].
  destruct (shr_fexp prec emax (Z.pos p2) e1 loc_Exact) as [mrs3 e3].
  cbn [fst snd] in He3, Hm3.
  pose proof (round_down_ge mx ex p2 e1 Hc He1' Hm2) as H3.
  rewrite Zdigits2_pos in He3, Hm3. rewrite <- Hm3, <- He3 in H3.
  assert (Hp3 : 0 < shr_m mrs3) by (apply Zval_pos_iff with e3; lia).
  destruct (shr_m mrs3) as [|p3|p3]; [lia| |lia].
  destruct (e3 <=? emax - prec); [right; by exists p3, e3|by left].
Qed.

(** *** Comparison and addition *)

Lemma canonical_leb m1 e1 m2 e2 :
  canonical m1 e1 → canonical m2 e2 →
  Zval (Z.pos m1) e1 ≤ Zval (Z.pos m2) e2 →
  SFleb (S754_finite false m1 e1) (S754_finite false m2 e2) = true.
Proof.
  intros H1 H2 Hle.
  pose proof (canonical_emin _ _ H1) as He1. pose proof (canonical_emin _ _ H2) as He2.
  unfold SFleb, SFcompare.
  destruct (Z.compare_spec e1 e2) as [->|Hlt|Hgt]; [|done|].
  - unfold Zval in Hle.
    assert (0 < 2 ^ (e2 - emin)) by (apply Z.pow_pos_nonneg; lia).
    apply Z.mul_le_mono_pos_r in Hle; [|done].
    change (PosDef.Pos.compare_cont Eq m1 m2) with (m1 ?= m2)%positive.
    destruct (Pos.compare_spec m1 m2); [done|done|lia].
  - exfalso.
    pose proof (Zval_bounds m1 e1 He1) as [Hl1 _].
    pose proof (Zval_bounds m2 e2 He2) as [_ Hu2].
    unfold canonical in H1, H2.
    destruct (Z.le_gt_cases (Z.pos (digits2_pos m1) + e1) (Z.pos (digits2_pos m2) + e2))
      as [HE|HE].
    + apply fexp_mono in HE. lia.
    + pose proof (pow2_le (Z.pos (digits2_pos m2) + e2 - emin)
                    (Z.pos (digits2_pos m1) + e1 - 1 - emin) ltac:(lia)). lia.
Qed.

Lemma SFleb_refl_finite s m e : SFleb (S754_finite s m e) (S754_finite s m e) = true.
Proof.
  unfold SFleb, SFcompare. rewrite Z.compare_refl.
  change (PosDef.Pos.compare_cont Eq m m) with (m ?= m)%positive.
  rewrite Pos.compare_refl. by destruct s.
Qed.

Lemma shl_align_spec m e t :
  t ≤ e →
  Z.pos (fst (shl_align m e t)) = Z.pos m * 2 ^ (e - t) ∧ snd (shl_align m e t) = t.
Proof.
  intros Ht. unfold shl_align.
  destruct (t - e) as [|d|d] eqn:Hd; cbn [fst snd].
  - replace (e - t) with 0 by lia. split; lia.
  - lia.
  - rewrite pos_iter_xO. split; [|done]. f_equal. f_equal. lia.
Qed.

Lemma shl_align_val m e t :
  emin ≤ e → emin ≤ t →
  Zval (Z.pos (fst (shl_align m e t))) (snd (shl_align m e t)) = Zval (Z.pos m) e ∧
  emin ≤ snd (shl_align m e t).
Proof.
  intros He Ht. destruct (Z.le_gt_cases t e) as [Hle|Hgt].
  - destruct (shl_align_spec m e t Hle) as [-> ->]. split; [|done].
    rewrite Zval_shift by lia. f_equal. lia.
  - unfold shl_align. destruct (t - e) eqn:Hd; cbn [fst snd]; lia.
Qed.

(** The sum of two doubles that are not negative is not below the first. *)
Lemma SFadd_finite_ge mx ex ma ea :
  canonical mx ex → canonical ma ea →
  SFadd prec emax (S754_finite false mx ex) (S754_finite false ma ea)
  = S754_infinity false ∨
  ∃ m' e',
    SFadd prec emax (S754_finite false mx ex) (S754_finite false ma ea)
    = S754_finite false m' e' ∧
    Zval (Z.pos mx) ex ≤ Zval (Z.pos m') e'.
Proof.
  intros Hx Ha.
  pose proof (canonical_emin _ _ Hx) as Hex. pose proof (canonical_emin _ _ Ha) as Hea.
  unfold SFadd. cbv zeta. cbn [cond_Zopp].
  set (ez := Z.min ex ea).
  destruct (shl_align_spec mx ex ez ltac:(lia)) as [Hsx _].
  destruct (shl_align_spec ma ea ez ltac:(lia)) as [Hsa _].
  destruct (Z.pos (fst (shl_align mx ex ez)) + Z.pos (fst (shl_align ma ea ez)))
    as [|s|s] eqn:Hs; [lia| |lia].
  cbn [binary_normalize]. unfold binary_round.
  destruct (shl_align_val s ez (fexp prec emax (Z.pos (digits2_pos s) + ez))
              ltac:(lia) (fexp_ge_emin _)) as [Hv Hez].
  destruct (shl_align s ez (fexp prec emax (Z.pos (digits2_pos s) + ez))) as [mz ez'].
  cbn [fst snd] in Hv, Hez.
  apply binary_round_aux_ge; [done|done|].
  rewrite Hv, <- Hs, Hsx.
  apply Z.le_trans with (Zval (Z.pos mx * 2 ^ (ex - ez)) ez).
  - rewrite Zval_shift by lia. replace (ez + (ex - ez)) with ex by lia. done.
  - apply Zval_mono. lia.
Qed.

Lemma valid_canonical s m e :
  valid_binary (S754_finite s m e) = true → canonical m e.
Proof.
  cbn. unfold bounded, canonical_mantissa. intros H.
  apply andb_prop in H as [H _]. by apply Z.eqb_eq in H.
Qed.

(** Adding a float that is not negative to one that is not negative does not
    decrease it. *)
Lemma float_add_nonneg (x a : float) :
  (0 <=? x)%float = true → (0 <=? a)%float = true →
  (x <=? x + a)%float = true ∧ (0 <=? x + a)%float = true.
Proof.
  rewrite !leb_spec, add_spec.
  pose proof (Prim2SF_valid x) as Hvx. pose proof (Prim2SF_valid a) as Hva.
  pose proof (Prim2SF_valid (x + a)) as Hvr. rewrite add_spec in Hvr.
  change (Prim2SF 0) with (S754_zero false).
  destruct (Prim2SF x) as [sx|sx| |sx mx ex], (Prim2SF a) as [sa|sa| |sa ma ea];
    try destruct sx; try destruct sa; try discriminate; intros _ _;
    try (split; reflexivity).
  - split; [apply SFleb_refl_finite|reflexivity].
  - split; [apply SFleb_refl_finite|reflexivity].
  - apply valid_canonical in Hvx, Hva.
    destruct (SFadd_finite_ge mx ex ma ea Hvx Hva) as [Hr|(m' & e' & Hr & Hle)];
      unfold SF64add in *; rewrite Hr in *; [by split|].
    apply valid_canonical in Hvr. split; [by apply canonical_leb|reflexivity].
Qed.

(** *** Conversion of a small integer *)

Lemma digits2_pos_unique p k :
  2 ^ (k - 1) ≤ Z.pos p < 2 ^ k → Z.pos (digits2_pos p) = k.
Proof.
  intros [Hl Hu]. pose proof (digits2_pos_bounds p) as [Hl' Hu'].
  set (d := Z.pos (digits2_pos p)) in *.
  destruct (Z.lt_trichotomy d k) as [H|[H|H]]; [|done|].
  - pose proof (pow2_le d (k - 1) ltac:(lia)). lia.
  - pose proof (pow2_le k (d - 1) ltac:(lia)). lia.
Qed.

Lemma shr_fexp_noop m e l :
  fexp prec emax (Zdigits2 m + e) - e ≤ 0 →
  shr_fexp prec emax m e l = (shr_record_of_loc m l, e).
Proof.
  intros H. unfold shr_fexp, shr.
  destruct (fexp prec emax (Zdigits2 m + e) - e); [done|lia|done].
Qed.

(** An integer of at most 53 bits is a double: the conversion is exact. *)
Lemma binary_normalize_small p :
  Z.pos p < 2 ^ 53 →
  ∃ m e, binary_normalize prec emax (Z.pos p) 0 false = S754_finite false m e ∧
         valid_binary (S754_finite false m e) = true.
Proof.
  intros Hp. pose proof (digits2_pos_bounds p) as [Hl Hu].
  set (d := Z.pos (digits2_pos p)) in *.
  assert (Hd1 : 1 ≤ d) by (unfold d; lia).
  assert (Hd : d ≤ 53).
  { destruct (Z.le_gt_cases d 53) as [|Hgt]; [done|].
    pose proof (pow2_le 53 (d - 1) ltac:(lia)). lia. }
  cbn [binary_normalize]. unfold binary_round. fold d.
  assert (Hf : fexp prec emax (d + 0) = d - 53).
  { unfold fexp, SpecFloat.emin, prec, emax. lia. }
  rewrite Hf.
  destruct (shl_align_spec p 0 (d - 53) ltac:(lia)) as [Hmz Hez].
  destruct (shl_align p 0 (d - 53)) as [mz ez]. cbn [fst snd] in Hmz, Hez. subst ez.
  assert (Hdig : Z.pos (digits2_pos mz) = 53).
  { apply digits2_pos_unique. rewrite Hmz.
    replace (0 - (d - 53)) with (53 - d) by lia.
    assert (H52 : 2 ^ (53 - 1) = 2 ^ (d - 1) * 2 ^ (53 - d)).
    { rewrite <- Z.pow_add_r by lia. f_equal. lia. }
    assert (H53 : 2 ^ 53 = 2 ^ d * 2 ^ (53 - d)).
    { rewrite <- Z.pow_add_r by lia. f_equal. lia. }
    assert (0 < 2 ^ (53 - d)) by (apply Z.pow_pos_nonneg; lia).
    rewrite H52, H53. split.
    - by apply Z.mul_le_mono_nonneg_r; [lia|].
    - by apply Z.mul_lt_mono_pos_r. }
  assert (Hn : fexp prec emax (53 + (d - 53)) - (d - 53) ≤ 0).
  { unfold fexp, SpecFloat.emin, prec, emax. lia. }
  unfold binary_round_aux.
  rewrite shr_fexp_noop by (by rewrite Zdigits2_pos, Hdig).
  cbn [shr_record_of_loc shr_m loc_of_shr_record round_nearest_even].
  rewrite shr_fexp_noop by (by rewrite Zdigits2_pos, Hdig).
  cbn [shr_record_of_loc shr_m].
  assert (Hb : (d - 53 <=? emax - prec) = true).
  { apply Z.leb_le. unfold prec, emax. lia. }
  rewrite Hb. exists mz, (d - 53). split; [done|].
  cbn [valid_binary]. unfold bounded, canonical_mantissa. rewrite Hb, Hdig.
  rewrite andb_true_r. apply Z.eqb_eq. unfold fexp, SpecFloat.emin, prec, emax. lia.
Qed.

(** ** Monadic code *)

Section Emits.
Context {A B : Type}.

Lemma emits_ret (a : A) : emits (mret a) [] a.
Proof. intros [i t s]. cbn. by rewrite app_nil_r. Qed.

Lemma emits_lift (a : A) : emits (lift (Ok a)) [] a.
Proof. intros [i t s]. cbn. by rewrite app_nil_r. Qed.

Lemma fails_lift (e : exn) : fails (lift (Raise e : outcome A)) [] e.
Proof. intros [i t s]. cbn. by rewrite app_nil_r. Qed.

Lemma emits_bind (m : M A) (f : A → M B) evs1 evs2 a b :
  emits m evs1 a → emits (f a) evs2 b → emits (m ≫= f) (evs1 ++ evs2) b.
Proof.
  intros Hm Hf w. unfold mbind, M_bind. rewrite Hm, Hf. cbn. by rewrite app_assoc.
Qed.

Lemma fails_bind_l (m : M A) (f : A → M B) evs e :
  fails m evs e → fails (m ≫= f) evs e.
Proof. intros Hm w. unfold mbind, M_bind. by rewrite Hm. Qed.

Lemma fails_bind_r (m : M A) (f : A → M B) evs1 evs2 a e :
  emits m evs1 a → fails (f a) evs2 e → fails (m ≫= f) (evs1 ++ evs2) e.
Proof.
  intros Hm Hf w. unfold mbind, M_bind. rewrite Hm, Hf. cbn. by rewrite app_assoc.
Qed.

End Emits.

Lemma emits_emit ev : emits (emit ev) [ev] ().
Proof. by intros w. Qed.

Lemma emits_print s : emits (print s) [Print s] ().
Proof. by intros w. Qed.

Lemma emits_sleep : emits sleep [] ().
Proof. apply emits_ret. Qed.

(** A handler that catches what the body raises. *)
Lemma emits_try_except {A} (body : M A) cls handler evs1 evs2 e a :
  fails body evs1 e → issubclass (exn_cls e) cls = true →
  emits (handler e) evs2 a →
  emits (try_except body cls handler) (evs1 ++ evs2) a.
Proof.
  intros Hb Hc Hh w. unfold try_except. rewrite Hb, Hc, Hh. cbn. by rewrite app_assoc.
Qed.

Lemma emits_for_each {A} (xs : list A) (body : A → M unit) (evs : A → list event) :
  (∀ x, emits (body x) (evs x) ()) →
  emits (for_each xs body) (concat (map evs xs)) ().
Proof.
  intros Hb. induction xs as [|x xs IH]; cbn [for_each map concat].
  - apply emits_ret.
  - eapply emits_bind; [apply Hb | apply IH].
Qed.

(** Solves [emits] goals on straight-line code whose events are not fixed
    beforehand. *)
Ltac emits_step :=
  first
    [ apply emits_print
    | apply emits_emit
    | apply emits_sleep
    | apply emits_ret
    | apply emits_lift
    | eapply emits_bind ].

Lemma emits_banner section_number title :
  ∃ evs, emits (banner section_number title) evs ().
Proof. eexists. unfold banner. repeat emits_step. Qed.

(** ** Section 3: the discount and tax calculation *)

Lemma apply_discount_250_15 : apply_discount 250.00 15 = Ok 212.5%float.
Proof. reflexivity. Qed.

(** The tax on 212.5 is 19.125 and the sum 231.625: both are doubles, so the
    total before rounding lies exactly in the middle of 231.62 and 231.63. *)
Lemma apply_tax_212_5 : apply_tax 212.5 0.09 = Ok 231.625%float.
Proof. reflexivity. Qed.

Lemma total_is_a_tie : Prim2SF 231.625 = S754_finite false (1853 * 2 ^ 42) (-45).
Proof. reflexivity. Qed.

Lemma py_round_tie_to_even : py_round 231.625 2 = Ok 231.62%float.
Proof.
  unfold py_round. rewrite total_is_a_tie.
  replace (scaled_half_even (1853 * 2 ^ 42) (-45) 2) with 23162 by (by vm_compute).
  reflexivity.
Qed.

(** Multiplying by [1.09] is another computation: the product is above the
    tie, and rounds up. *)
Remark tax_factor_rounds_up :
  (212.5 * 1.09)%float = 231.62500000000003%float ∧
  py_round (212.5 * 1.09) 2 = Ok 231.63%float.
Proof. split; reflexivity. Qed.

Lemma calculate_total_script_call :
  calculate_total 250.00 (Some 15) (Some 0.09%float) = Ok 231.62%float.
Proof.
  unfold calculate_total. cbv zeta. cbn [default from_option id].
  rewrite apply_discount_250_15. cbn [mbind outcome_bind].
  rewrite apply_tax_212_5. cbn [mbind outcome_bind].
  apply py_round_tie_to_even.
Qed.

(** C1, as the claim states it, fails: the total of the script's call is not
    231.57. *)
Lemma calculate_total_is_not_231_57 :
  ¬ returns (calculate_total 250.00 (Some 15) (Some 0.09%float)) 231.57%float.
Proof.
  unfold returns. rewrite calculate_total_script_call.
  intros H.
  assert (Hb : PrimFloat.eqb 231.62 231.57 = true).
  { change (match Ok 231.62%float with
            | Ok x => PrimFloat.eqb x 231.57
            | Raise _ => false
            end = true).
    rewrite H. reflexivity. }
  vm_compute in Hb. discriminate.
Qed.

Lemma calculate_total_script_run :
  ∃ evs, emits section3_body evs () ∧
         last evs = Some (Print "  Final total: $231.62").
Proof.
  assert (Hr : float_repr 231.62 = "231.62") by (by vm_compute).
  eexists. split.
  - unfold section3_body, banner. rewrite calculate_total_script_call.
    repeat emits_step.
  - rewrite Hr. reflexivity.
Qed.

(** C1 (amended): for a base price of 250.00, a discount of 15 percent and a
    tax rate of 0.09, [apply_discount] gives 212.5, [apply_tax] gives 231.625,
    the tie is rounded to the even neighbour and [calculate_total] returns
    231.62, which Section 3 prints as the final total. *)
Theorem calculate_total_250_15_9 :
  apply_discount 250.00 15 = Ok 212.5%float ∧
  apply_tax 212.5 0.09 = Ok 231.625%float ∧
  scaled_half_even (1853 * 2 ^ 42) (-45) 2 = 23162 ∧
  calculate_total 250.00 (Some 15) (Some 0.09%float) = Ok 231.62%float ∧
  float_repr 231.62 = "231.62" ∧
  ∃ evs, emits section3_body evs () ∧
         last evs = Some (Print "  Final total: $231.62").
Proof.
  split; [apply apply_discount_250_15|].
  split; [apply apply_tax_212_5|].
  split; [by vm_compute|].
  split; [apply calculate_total_script_call|].
  split; [by vm_compute|].
  apply calculate_total_script_run.
Qed.

(** ** Section 4: the catalog loop *)

Lemma catalog_loop_emits (items : list catalog_item) (vars : catalog_vars) :
  ∃ vars',
    emits (for_fold items catalog_body vars)
      (map (fun item => Print (catalog_label item)) items) vars' ∧
    v_catalog vars' = v_catalog vars ∧
    v_item vars' = from_option Some (v_item vars) (last items).
Proof.
  revert vars. induction items as [|item items IH]; intros vars.
  - exists vars. split; [apply emits_ret|]. by destruct (v_item vars).
  - destruct (IH {| v_catalog := v_catalog vars; v_item := Some item;
                    v_label := Some (catalog_label item) |}) as (vars' & He & Hc & Hi).
    exists vars'. split; [|split].
    + cbn [for_fold map].
      refine (emits_bind _ _ [Print (catalog_label item)] _ _ _ _ He).
      unfold catalog_body.
      refine (emits_bind _ _ [Print (catalog_label item)] [] _ _ _ _);
        [apply emits_print | apply emits_ret].
    + exact Hc.
    + rewrite Hi. cbn [v_item]. destruct items as [|i2 items]; [done|].
      rewrite last_cons_cons.
      destruct (last (i2 :: items)) as [x|] eqn:Hl; [done|].
      by apply last_None in Hl.
Qed.

(** C3: Section 4 prints one label per entry of the catalog, in the order of
    the list, and the list that the variable [catalog] holds after the loop is
    the one it held before, with every element; so does the loop on any
    catalog, which does not touch the console input either.  For the script's
    catalog the labels are the eight lines below. *)
Theorem catalog_loop_preserves_catalog :
  (∀ w, stdin w ≠ [] → ∃ vars pre sched,
      section4 w
      = (Ok vars,
         World (tail (stdin w))
           (trace w ++ pre ++ map (fun item => Print (catalog_label item)) catalog
            ++ [Prompt pause_prompt])
           sched) ∧
      v_catalog vars = catalog) ∧
  (∀ (items : list catalog_item) w, ∃ vars' w',
      catalog_loop {| v_catalog := items; v_item := None; v_label := None |} w
      = (Ok vars', w') ∧
      trace w' = trace w ++ map (fun item => Print (catalog_label item)) items ∧
      v_catalog vars' = items ∧
      v_item vars' = last items ∧
      stdin w' = stdin w) ∧
  map catalog_label catalog =
    [ "  [1] Widget Basic         $   25.00";
      "  [2] Widget Plus          $   49.99";
      "  [3] Widget Pro           $  149.99";
      "  [4] Gadget Lite          $   19.99";
      "  [5] Gadget Pro           $  199.99";
      "  [6] Gadget Ultra         $  349.99";
      "  [7] Accessory Pack       $    9.99";
      "  [8] Premium Bundle       $  499.99" ].
Proof.
  split; [|split; [|by vm_compute]].
  { intros [[|line rest] tr sched] Hin; [done|].
    destruct (emits_banner 4 "Conditional Breakpoints") as [evs Hb].
    destruct (catalog_loop_emits catalog
                {| v_catalog := catalog; v_item := None; v_label := None |})
      as (vars & He & Hc & _).
    exists vars. eexists (evs ++ [_]), sched. split; [|exact Hc].
    unfold section4, catalog_loop, mbind, M_bind. cbn [v_catalog].
    rewrite Hb, emits_print, He. cbn [stdin trace schedule].
    unfold pause, mbind, M_bind, input. cbn [stdin trace schedule tail].
    unfold mret, M_ret. by rewrite <- !app_assoc. }
  intros items w. unfold catalog_loop. cbn [v_catalog].
  destruct (catalog_loop_emits items
              {| v_catalog := items; v_item := None; v_label := None |})
    as (vars' & He & Hc & Hi).
  eexists vars', _. split; [apply He|]. cbn [trace stdin].
  split; [done|]. split; [done|]. split; [|done].
  rewrite Hi. cbn [v_item]. by destruct (last items).
Qed.

(** ** Section 5: the three exceptions *)

Lemma uint_of_char_Some c o d :
  uint_of_char c o = Some d → is_digit c = true ∧ ∃ d', o = Some d'.
Proof.
  destruct o as [d'|]; [|done]. intros H. split; [|by eexists].
  unfold is_digit.
  destruct c as [[] [] [] [] [] [] [] []]; try discriminate H; reflexivity.
Qed.


Lemma digit_run_string_of_uint d :
  d ≠ Decimal.Nil → digit_run (NilEmpty.string_of_uint d) = Some d.
Proof.
  induction d as [|d IH|d IH|d IH|d IH|d IH|d IH|d IH|d IH|d IH|d IH]; intros Hn; [done|..].
  all: destruct d; [reflexivity|..].
  all: cbn [NilEmpty.string_of_uint digit_run] in *.
  all: cbn [Ascii.eqb Bool.eqb]; rewrite IH by done; reflexivity.
Qed.

Lemma string_of_uint_digits d c :
  In c (list_ascii_of_string (NilEmpty.string_of_uint d)) → is_digit c = true.
Proof.
  induction d; cbn; try done; intros [<-|H]; auto.
Qed.

Lemma is_digit_not_space c : is_digit c = true → is_space c = false.
Proof. destruct c as [[] [] [] [] [] [] [] []]; try discriminate; reflexivity. Qed.

Lemma rstrip_no_space s :
  (∀ c, In c (list_ascii_of_string s) → is_space c = false) → rstrip s = s.
Proof.
  induction s as [|a s IH]; [done|]. intros H. cbn [rstrip].
  rewrite IH by (intros c Hc; apply H; by right).
  destruct s; [|done]. by rewrite (H a) by (by left).
Qed.

Lemma strip_digits d :
  d ≠ Decimal.Nil → strip (NilEmpty.string_of_uint d) = NilEmpty.string_of_uint d.
Proof.
  intros Hd. unfold strip.
  assert (Hs : ∀ c, In c (list_ascii_of_string (NilEmpty.string_of_uint d)) →
                    is_space c = false).
  { intros c Hc. by apply is_digit_not_space, string_of_uint_digits with d. }
  destruct (NilEmpty.string_of_uint d) as [|a s] eqn:E; [done|].
  cbn [lstrip]. rewrite (Hs a) by (by left). by apply rstrip_no_space.
Qed.

Lemma int_literal_digits d :
  d ≠ Decimal.Nil → int_literal (NilEmpty.string_of_uint d) = Some (Z.of_uint d).
Proof.
  intros Hd. pose proof (digit_run_string_of_uint d Hd) as Hr.
  destruct d; [done|..]; cbn [NilEmpty.string_of_uint] in *;
    unfold int_literal; rewrite Hr; reflexivity.
Qed.

(** *** The number of digits of an int *)

Lemma of_uint_acc_lower d acc :
  Z.pos acc * 10 ^ Z.of_nat (Decimal.nb_digits d) ≤ Z.pos (Pos.of_uint_acc d acc).
Proof.
  revert acc. induction d as [|d IH|d IH|d IH|d IH|d IH|d IH|d IH|d IH|d IH|d IH];
    intros acc; cbn [Decimal.nb_digits Pos.of_uint_acc]; [cbn; lia|..].
  all: rewrite Nat2Z.inj_succ, Z.pow_succ_r by lia.
  all: assert (Hp : 0 < 10 ^ Z.of_nat (Decimal.nb_digits d)) by (apply Z.pow_pos_nonneg; lia).
  all: etrans; [|apply IH]; nia.
Qed.

(** The text of a positive number has no more digits than the number has. *)
Lemma nb_digits_to_uint p :
  10 ^ (Z.of_nat (Decimal.nb_digits (Pos.to_uint p)) - 1) ≤ Z.pos p.
Proof.
  pose proof (DecimalPos.Unsigned.of_to p) as Hof.
  pose proof (DecimalPos.Unsigned.to_of (Pos.to_uint p)) as Hto.
  rewrite Hof in Hto. cbn [N.to_uint] in Hto.
  pose proof (DecimalPos.Unsigned.to_uint_nonzero p) as Hnz.
  pose proof (DecimalFacts.nb_digits_nzhead (Pos.to_uint p)) as Hnb.
  set (d := Pos.to_uint p) in *.
  assert (Hh : Decimal.nzhead d = d).
  { unfold Decimal.unorm in Hto. destruct (Decimal.nzhead d); [by rewrite <- Hto in Hnz|..]; done. }
  assert (Hz : Z.of_N (Pos.of_uint d) = Z.pos p) by (by rewrite Hof).
  rewrite <- Hz. clear Hof Hto Hnz Hz.
  destruct d as [|d|d|d|d|d|d|d|d|d|d]; cbn [Decimal.nb_digits Pos.of_uint] in *.
  1: { cbn. lia. }
  1: { exfalso. cbn [Decimal.nzhead] in Hh.
       pose proof (DecimalFacts.nb_digits_nzhead d) as H. rewrite Hh in H.
       cbn [Decimal.nb_digits] in H. lia. }
  all: rewrite Nat2Z.inj_succ; replace (Z.succ (Z.of_nat (Decimal.nb_digits d)) - 1)
         with (Z.of_nat (Decimal.nb_digits d)) by lia.
  all: etrans; [|apply of_uint_acc_lower].
  all: assert (Hp : 0 < 10 ^ Z.of_nat (Decimal.nb_digits d)) by (apply Z.pow_pos_nonneg; lia).
  all: lia.
Qed.

Lemma nb_digits_limit p (k : nat) :
  Z.pos p < 10 ^ Z.of_nat k → (Decimal.nb_digits (Pos.to_uint p) ≤ k)%nat.
Proof.
  intros Hlt. pose proof (nb_digits_to_uint p) as Hl.
  destruct (Nat.le_gt_cases (Decimal.nb_digits (Pos.to_uint p)) k) as [|Hgt]; [done|].
  exfalso.
  assert (10 ^ Z.of_nat k ≤ 10 ^ (Z.of_nat (Decimal.nb_digits (Pos.to_uint p)) - 1))
    by (apply Z.pow_le_mono_r; lia).
  lia.
Qed.

Lemma scan_run_string_of_uint us d :
  d ≠ Decimal.Nil →
  scan_run us (NilEmpty.string_of_uint d) = Some (Decimal.nb_digits d).
Proof.
  revert us. induction d as [|d IH|d IH|d IH|d IH|d IH|d IH|d IH|d IH|d IH|d IH];
    intros us Hn; [done|..].
  all: cbn [NilEmpty.string_of_uint scan_run Decimal.nb_digits].
  all: change (is_digit _) with true; cbv iota.
  all: destruct d; [reflexivity|..]; rewrite IH by done; reflexivity.
Qed.

Lemma unsigned_part_digits d :
  unsigned_part (NilEmpty.string_of_uint d) = NilEmpty.string_of_uint d.
Proof. by destruct d. Qed.

(** The text of an int of at most 4300 digits is within the limit of [int]. *)
Lemma within_limit p :
  Z.pos p < 10 ^ 4300 →
  (int_max_str_digits <? Decimal.nb_digits (Pos.to_uint p))%nat = false.
Proof.
  intros Hp. apply Nat.ltb_ge. apply nb_digits_limit.
  by rewrite <- (Nat2Z.id int_max_str_digits), Z2Nat.id.
Qed.

(** [int(str(n))] is [n], for an int that [str] converts. *)
Lemma int_of_str_of_int n : Z.abs n < 10 ^ 4300 → int_of_str (str_of_int n) = Ok n.
Proof.
  intros Hlim. unfold int_of_str, str_of_int. cbv zeta.
  destruct n as [|p|p]; [reflexivity| |].
  - cbn [Z.to_int NilZero.string_of_int].
    pose proof (DecimalPos.Unsigned.to_uint_nonnil p) as Hn.
    assert (Hs : NilZero.string_of_uint (Pos.to_uint p)
                 = NilEmpty.string_of_uint (Pos.to_uint p))
      by (by destruct (Pos.to_uint p)).
    rewrite Hs, strip_digits, unsigned_part_digits, scan_run_string_of_uint by done.
    rewrite within_limit by done. rewrite int_literal_digits by done.
    f_equal. unfold Z.of_uint. by rewrite DecimalPos.Unsigned.of_to.
  - cbn [Z.to_int NilZero.string_of_int].
    pose proof (DecimalPos.Unsigned.to_uint_nonnil p) as Hn.
    assert (Hs : NilZero.string_of_uint (Pos.to_uint p)
                 = NilEmpty.string_of_uint (Pos.to_uint p))
      by (by destruct (Pos.to_uint p)).
    rewrite Hs.
    assert (Hst : strip (String "-" (NilEmpty.string_of_uint (Pos.to_uint p)))
                  = String "-" (NilEmpty.string_of_uint (Pos.to_uint p))).
    { unfold strip. cbn [lstrip is_space]. cbn.
      apply rstrip_no_space. intros c [<-|Hc]; [reflexivity|].
      by apply is_digit_not_space, string_of_uint_digits with (Pos.to_uint p). }
    rewrite Hst. cbn [unsigned_part]. rewrite scan_run_string_of_uint by done.
    rewrite within_limit by done. unfold int_literal.
    rewrite digit_run_string_of_uint by done. cbn.
    f_equal. unfold Z.of_uint. by rewrite DecimalPos.Unsigned.of_to.
Qed.




(** What [int] gives: the value of the literal, or nothing but [ValueError]. *)
Lemma int_of_str_outcome s :
  (∃ n, int_of_str s = Ok n ∧ int_literal (strip s) = Some n) ∨
  raises (int_of_str s) ValueError.
Proof.
  unfold int_of_str. cbv zeta.
  destruct (scan_run true (unsigned_part (strip s))) as [k|]; [|by right].
  destruct (int_max_str_digits <? k)%nat; [by right|].
  destruct (int_literal (strip s)) as [n|]; [left; by exists n|by right].
Qed.

(** It depends on the text only by what [strip] leaves of it, but for the
    message. *)
Lemma int_of_str_strip s t n :
  strip s = strip t → int_of_str s = Ok n → int_of_str t = Ok n.
Proof.
  unfold int_of_str. cbv zeta. intros <-.
  destruct (scan_run true (unsigned_part (strip s))) as [k|]; [|done].
  destruct (int_max_str_digits <? k)%nat; [done|].
  by destruct (int_literal (strip s)).
Qed.


Lemma risky_division_by_zero a :
  risky_division a 0 = Raise (Exn ZeroDivisionError "division by zero").
Proof. reflexivity. Qed.




Lemma parse_number_hello :
  parse_number "hello"
  = Raise (Exn ValueError "invalid literal for int() with base 10: 'hello'").
Proof. reflexivity. Qed.


(** ** Section 6: the orders *)

Lemma float_of_int_Ok n q : float_of_int n = Ok q → q = nearest_float n.
Proof.
  unfold float_of_int. cbv zeta. destruct (is_inf (nearest_float n)); [done|].
  by intros [= <-].
Qed.

Lemma mapM_outcome_Ok {A B} (f : A → outcome B) (g : A → B) xs :
  Forall (fun x => f x = Ok (g x)) xs → mapM f xs = Ok (map g xs).
Proof.
  induction 1 as [|x xs Hx _ IH]; [done|].
  cbn [mapM map]. rewrite Hx. cbn [mbind outcome_bind]. rewrite IH. done.
Qed.

Lemma order_subtotal_spec items :
  Forall (fun item => ∃ q, float_of_int (oi_qty item) = Ok q) items →
  order_subtotal items = Ok (sum_of_products items).
Proof.
  intros Hq. unfold order_subtotal.
  rewrite (mapM_outcome_Ok _
             (fun item => (oi_price item * nearest_float (oi_qty item))%float)).
  - cbn [mbind outcome_bind mret outcome_ret]. f_equal.
    unfold py_sum, sum_of_products. generalize 0%float.
    induction items as [|item items IH]; intros acc; [done|].
    cbn [map fold_left]. apply IH. by inversion Hq.
  - eapply Forall_impl; [exact Hq|]. intros item [q Hitem]. unfold float_mul_int.
    rewrite Hitem. cbn. by rewrite (float_of_int_Ok _ _ Hitem).
Qed.

Lemma process_order_emits order_id items subtotal :
  order_subtotal items = Ok subtotal →
  emits (process_order order_id items) (order_events order_id subtotal)
    (subtotal + subtotal * 0.08)%float.
Proof.
  intros Hs. unfold process_order, order_events. rewrite Hs.
  change (?l ++ [?p]) with ([] ++ l ++ [p] ++ []).
  eapply emits_bind; [apply emits_lift|].
  eapply emits_bind.
  { destruct (float_gt_int subtotal 500).
    - refine (emits_bind _ _ [_] [_] _ _ _ _); [apply emits_emit|apply emits_print].
    - apply emits_ret. }
  cbv zeta. eapply emits_bind; [apply emits_print|apply emits_ret].
Qed.

Lemma order_events_breakpoint order_id subtotal :
  DebugBreakpoint ∈ order_events order_id subtotal ↔ float_gt_int subtotal 500 = true.
Proof.
  unfold order_events. destruct (float_gt_int subtotal 500); split; try done.
  - intros _. apply list_elem_of_here.
  - cbn. intros H. apply list_elem_of_singleton in H. discriminate H.
Qed.

Lemma mapM_outcome_Raise {A B} (f : A → outcome B) xs :
  Exists (fun x => ∃ e, f x = Raise e) xs → ∃ e x, x ∈ xs ∧ f x = Raise e ∧ mapM f xs = Raise e.
Proof.
  induction xs as [|x xs IH]; intros Hex; [by apply Exists_nil in Hex|].
  cbn [mapM]. destruct (f x) as [b|e] eqn:Hx.
  - apply Exists_cons in Hex as [[e He]|Hex]; [congruence|].
    destruct (IH Hex) as (e & y & Hy & Hfy & Hm).
    exists e, y. split; [by apply list_elem_of_further|]. split; [done|].
    cbn [mbind outcome_bind]. by rewrite Hm.
  - exists e, x. split; [apply list_elem_of_here|]. by split.
Qed.

Lemma float_mul_int_Raise x n e :
  float_mul_int x n = Raise e → exn_cls e = OverflowError.
Proof.
  unfold float_mul_int, float_of_int. cbv zeta.
  destruct (is_inf (nearest_float n)); cbn; [by intros [= <-]|done].
Qed.

(** An order with a quantity that does not convert raises [OverflowError]
    before anything is printed. *)
Lemma process_order_overflow order_id items :
  Exists (fun item => ∃ e, float_of_int (oi_qty item) = Raise e) items →
  ∃ e, fails (process_order order_id items) [] e ∧ exn_cls e = OverflowError.
Proof.
  intros Hex.
  destruct (mapM_outcome_Raise
              (fun item => float_mul_int (oi_price item) (oi_qty item)) items)
    as (e & item & _ & He & Hm).
  { eapply Exists_impl; [exact Hex|]. intros item [e He]. exists e.
    unfold float_mul_int. by rewrite He. }
  exists e. split; [|by apply float_mul_int_Raise in He].
  unfold process_order, order_subtotal. rewrite Hm.
  apply fails_bind_l, fails_lift.
Qed.

(** The sums of the script's orders do not depend on the summation that the
    interpreter uses. *)
Lemma order_sums_compensated :
  py_sum_compensated (map (fun item => oi_price item * nearest_float (oi_qty item))%float
                        small_order) = sum_of_products small_order ∧
  py_sum_compensated (map (fun item => oi_price item * nearest_float (oi_qty item))%float
                        large_order) = sum_of_products large_order.
Proof. split; reflexivity. Qed.

(** C9, as the claim states it, fails: on an order with the quantity [2^1024]
    the product [price * qty] raises [OverflowError], and [process_order]
    returns nothing. *)
Lemma process_order_huge_quantity :
  (∃ e, fails (process_order 1003 huge_order) [] e ∧ exn_cls e = OverflowError) ∧
  ¬ ∃ evs total, emits (process_order 1003 huge_order) evs total.
Proof.
  assert (Hf : ∃ e, fails (process_order 1003 huge_order) [] e
                    ∧ exn_cls e = OverflowError).
  { apply process_order_overflow. apply Exists_cons_hd. eexists. reflexivity. }
  split; [exact Hf|].
  destruct Hf as (e & Hf & _). intros (evs & total & He).
  specialize (Hf (World [] [] [])). rewrite He in Hf. discriminate Hf.
Qed.

(** C9 (amended): for every order whose id has at most 4300 digits, so that
    the f-strings can print it, and whose quantities are in the range of a
    float, [process_order] returns [subtotal + subtotal * 0.08], where
    [subtotal] is the sum of [price * qty] over the items, and it reaches
    [debugpy.breakpoint()] if and only if [subtotal > 500].  The first order
    of the script has the subtotal 65.0 and does not reach it, the second has
    the subtotal 1049.93 and does. *)
Theorem process_order_total (order_id : Z) (items : list order_item) :
  str_limit order_id →
  Forall (fun item => ∃ q, float_of_int (oi_qty item) = Ok q) items →
  (order_subtotal items = Ok (sum_of_products items) ∧
   ∃ evs, emits (process_order order_id items) evs
            (sum_of_products items + sum_of_products items * 0.08)%float ∧
          (DebugBreakpoint ∈ evs ↔ float_gt_int (sum_of_products items) 500 = true)) ∧
  (sum_of_products small_order = 65%float ∧
   float_gt_int (sum_of_products small_order) 500 = false ∧
   emits (process_order 1001 small_order)
     [Print "  Order #1001: subtotal=$65.00, tax=$5.20, total=$70.20"]
     (65 + 65 * 0.08)%float) ∧
  (sum_of_products large_order = 1049.93%float ∧
   float_gt_int (sum_of_products large_order) 500 = true ∧
   emits (process_order 1002 large_order)
     [ DebugBreakpoint;
       Print "  ⚠ Large order #1002 detected (subtotal: $1049.93)";
       Print "  Order #1002: subtotal=$1049.93, tax=$83.99, total=$1133.92" ]
     (1049.93 + 1049.93 * 0.08)%float).
Proof.
  intros _ Hq. split; [|split].
  - pose proof (order_subtotal_spec items Hq) as Hs. split; [done|].
    exists (order_events order_id (sum_of_products items)).
    split; [by apply process_order_emits|apply order_events_breakpoint].
  - split; [reflexivity|]. split; [reflexivity|].
    exact (process_order_emits 1001 small_order 65 eq_refl).
  - split; [reflexivity|]. split; [reflexivity|].
    exact (process_order_emits 1002 large_order 1049.93 eq_refl).
Qed.

Lemma process_order_total_witness :
  str_limit 1002 ∧
  Forall (fun item => ∃ q, float_of_int (oi_qty item) = Ok q) large_order ∧
  ∃ evs, emits (process_order 1002 large_order) evs
           (sum_of_products large_order + sum_of_products large_order * 0.08)%float ∧
         (DebugBreakpoint ∈ evs ↔ float_gt_int (sum_of_products large_order) 500 = true).
Proof.
  assert (Hq : Forall (fun item => ∃ q, float_of_int (oi_qty item) = Ok q) large_order).
  { repeat constructor; eexists; reflexivity. }
  assert (Hid : str_limit 1002) by reflexivity.
  split; [exact Hid|]. split; [exact Hq|].
  exact (proj2 (proj1 (process_order_total 1002 large_order Hid Hq))).
Defined.

(** ** Section 7: the batch loop *)

Lemma process_batches_summary data batch_size passes vars :
  batch_passes data (default 3 batch_size) = Ok passes →
  last passes = Some vars →
  emits (process_batches data batch_size)
    [Print ("  Processed " +:+ str_of_int (Z.of_nat (length data)) +:+ " items in "
            +:+ str_of_int (batch_id vars) +:+ " batches.")] ().
Proof.
  intros Hp Hl. unfold process_batches. cbv zeta. rewrite Hp.
  change [Print ?s] with ([] ++ [Print s]).
  eapply emits_bind; [apply emits_lift|]. rewrite Hl. apply emits_print.
Qed.

Lemma process_batches_unbound data batch_size :
  batch_passes data (default 3 batch_size) = Ok [] →
  ∃ msg, fails (process_batches data batch_size) [] (Exn UnboundLocalError msg).
Proof.
  intros Hp. eexists. unfold process_batches. cbv zeta. rewrite Hp.
  change (@nil event) with (@nil event ++ []).
  eapply fails_bind_r; [apply emits_lift|]. cbn [last]. apply fails_lift.
Qed.

Lemma process_batches_raises data batch_size e :
  batch_passes data (default 3 batch_size) = Raise e →
  fails (process_batches data batch_size) [] e.
Proof.
  intros Hp. unfold process_batches. cbv zeta. rewrite Hp.
  apply fails_bind_l, fails_lift.
Qed.

Lemma batch_passes_empty batch_size :
  batch_size ≠ 0 → batch_passes [] batch_size = Ok [].
Proof.
  intros Hb. unfold batch_passes, py_range. cbv zeta.
  change (Z.of_nat (length (@nil Z))) with 0.
  destruct batch_size as [|p|p]; [done| |].
  - replace ((0 - 0 + Z.pos p - 1) / Z.pos p) with 0; [reflexivity|].
    symmetry. apply Z.div_small. lia.
  - replace ((0 - 0 - Z.neg p - 1) / - Z.neg p) with 0; [reflexivity|].
    symmetry. apply Z.div_small. lia.
Qed.

Lemma process_batches_sample_data_passes :
  ∃ passes vars,
    batch_passes sample_data (default 3 (Some 4)) = Ok passes ∧ last passes = Some vars.
Proof.
  destruct (batch_passes sample_data 4) as [passes|e] eqn:Hp; [|by vm_compute in Hp].
  pose proof Hp as Hq. vm_compute in Hq. injection Hq as <-.
  eexists _, _. split; [exact Hp|reflexivity].
Qed.

(** C2: on the 15 integers 1..15 with a batch size of 4 the loop makes four
    passes, whose batches have 4, 4, 4 and 3 items, in order and covering the
    data, and the summary line reports 15 items in 4 batches. *)
Theorem process_batches_sample_data :
  sample_data = [1; 2; 3; 4; 5; 6; 7; 8; 9; 10; 11; 12; 13; 14; 15] ∧
  ∃ passes,
    batch_passes sample_data 4 = Ok passes ∧
    map batch passes = [[1; 2; 3; 4]; [5; 6; 7; 8]; [9; 10; 11; 12]; [13; 14; 15]] ∧
    map (fun vars => length (batch vars)) passes = [4; 4; 4; 3]%nat ∧
    map batch_id passes = [1; 2; 3; 4] ∧
    concat (map batch passes) = sample_data ∧
    emits (process_batches sample_data (Some 4))
      [Print "  Processed 15 items in 4 batches."] ().
Proof.
  split; [reflexivity|].
  destruct (batch_passes sample_data 4) as [passes|e] eqn:Hp; [|by vm_compute in Hp].
  exists passes.
  pose proof Hp as Hq. vm_compute in Hq. injection Hq as <-.
  split; [reflexivity|]. repeat (split; [reflexivity|]).
  pose proof (process_batches_summary sample_data (Some 4) _ _ Hp eq_refl) as Hs.
  exact Hs.
Qed.

(** C8: on the empty list the loop makes no pass, so [batch_id] is unbound
    when the summary line reads it: [process_batches] raises
    [UnboundLocalError], a [NameError], with the default batch size and with
    any batch size but 0; and whenever [process_batches] returns, the data was
    not empty. *)
Theorem process_batches_empty_data :
  batch_passes [] 3 = Ok [] ∧
  (∃ e, fails (process_batches [] None) [] e ∧
        exn_cls e = UnboundLocalError ∧ issubclass (exn_cls e) NameError = true) ∧
  (∀ batch_size, batch_size ≠ 0 →
     ∃ e, fails (process_batches [] (Some batch_size)) [] e ∧
          issubclass (exn_cls e) NameError = true) ∧
  (∀ data batch_size w, fst (process_batches data batch_size w) = Ok () → data ≠ []).
Proof.
  split; [reflexivity|]. split; [|split].
  - destruct (process_batches_unbound [] None) as [msg H]; [reflexivity|].
    by exists (Exn UnboundLocalError msg).
  - intros batch_size Hb.
    destruct (process_batches_unbound [] (Some batch_size)) as [msg H].
    { by apply batch_passes_empty. }
    by exists (Exn UnboundLocalError msg).
  - intros data batch_size w Hok ->.
    destruct (decide (default 3 batch_size = 0)) as [Hz|Hnz].
    + assert (Hp : batch_passes [] (default 3 batch_size) = Raise
                (Exn ValueError "range() arg 3 must not be zero"))
        by (by rewrite Hz).
      rewrite (process_batches_raises _ _ _ Hp) in Hok. discriminate.
    + destruct (process_batches_unbound [] batch_size) as [msg H].
      { by apply batch_passes_empty. }
      rewrite H in Hok. discriminate.
Qed.

(** ** Section 8: the worker threads *)

Lemma py_range_from_1 steps :
  py_range 1 (steps + 1) 1 = Ok (map Z.of_nat (seq 1 (Z.to_nat steps))).
Proof.
  unfold py_range. f_equal.
  replace ((steps + 1 - 1 + 1 - 1) / 1) with steps by (rewrite Z.div_1_r; lia).
  rewrite <- (fmap_S_seq 0), <- list_fmap_compose.
  apply list_fmap_ext. intros _ k _. cbn. lia.
Qed.

Lemma concat_map_singleton {A B} (f : A → B) (l : list A) :
  concat (map (fun x => [f x]) l) = map f l.
Proof. induction l as [|x l IH]; cbn; [done|by rewrite IH]. Qed.

Lemma worker_emits name steps :
  emits (worker name steps) (worker_events name steps) ().
Proof.
  unfold worker, worker_events. rewrite py_range_from_1.
  change (map ?f ?l ++ [?d]) with ([] ++ map f l ++ [d]).
  eapply emits_bind; [apply emits_lift|].
  eapply emits_bind; [|apply emits_print].
  rewrite <- (concat_map_singleton (fun step => Print (worker_status name steps step))).
  apply (emits_for_each _ _ (fun step => [Print (worker_status name steps step)])).
  intros step. change [Print ?s] with ([Print s] ++ []).
  eapply emits_bind; [apply emits_print | apply emits_sleep].
Qed.

Lemma thread_events_worker name steps :
  thread_events (worker name steps) = worker_events name steps.
Proof. unfold thread_events. by rewrite worker_emits. Qed.

(** *** The interleavings of the main thread and the workers *)

Lemma summary_not_worker_event name steps :
  Print threads_summary ∉ worker_events name steps.
Proof.
  unfold worker_events. rewrite elem_of_app, list_elem_of_singleton.
  intros [H|H].
  - apply list_elem_of_fmap in H as (step & Heq & _). discriminate Heq.
  - discriminate H.
Qed.

Lemma pool_inv_init : pool_inv pool_init.
Proof.
  split; [cbn; lia|]. split; [intros i name steps rest _ H; done|].
  cbn. split; [done|]. apply not_elem_of_nil.
Qed.

Ltac pool_simpl := unfold pool_inv; cbn [pool_main pool_threads pool_out].

Lemma pool_inv_step st st' : pool_inv st → pool_next st st' → pool_inv st'.
Proof.
  intros (Hlen & Hthreads & Hmain) [a Hstep].
  destruct st as [pc threads out]. cbn [pool_main pool_threads pool_out] in *.
  destruct a as [|i]; cbn [pool_step pool_main pool_threads pool_out] in Hstep.
  - (* the main thread *)
    destruct pc as [[|[worker_name steps] todo]|k|]; [| | |done].
    + (* the spawning loop is over *)
      injection Hstep as <-. pool_simpl. destruct Hmain as [Hdrop Hs].
      split; [done|]. split; [done|].
      apply drop_nil_inv in Hdrop. repeat split; [lia| |done].
      intros i Hi. lia.
    + (* a thread is created and started *)
      injection Hstep as <-. pool_simpl. destruct Hmain as [Hdrop Hs].
      rewrite thread_events_worker.
      assert (Hnth : worker_specs !! length threads = Some (worker_name, steps)).
      { rewrite <- (Nat.add_0_r (length threads)), <- lookup_drop. by rewrite Hdrop. }
      pose proof (lookup_lt_Some _ _ _ Hnth) as Hlt.
      split; [rewrite length_app; cbn [length]; lia|]. split.
      * intros i name steps' rest Hspec Hi.
        destruct (decide (i < length threads)%nat) as [Hlti|Hge].
        -- rewrite lookup_app_l in Hi by done. eauto.
        -- apply lookup_lt_Some in Hi as Hi'. rewrite length_app in Hi'. cbn [length] in Hi'.
           assert (i = length threads) as -> by lia.
           rewrite list_lookup_middle in Hi by done. injection Hi as <-.
           rewrite Hnth in Hspec. injection Hspec as <- <-.
           exists []. split; [done|]. intros ev Hev. by apply elem_of_nil in Hev.
      * split; [|done]. rewrite length_app. cbn [length]. rewrite Nat.add_1_r.
        rewrite (drop_S _ _ _ Hnth) in Hdrop. by injection Hdrop.
    + (* a join *)
      destruct Hmain as (Hfull & Hjoined & Hs).
      destruct (threads !! k) as [[|ev rest]|] eqn:Hk; [| done |].
      * injection Hstep as <-. pool_simpl. split; [done|]. split; [done|].
        repeat split; [done| |done].
        intros i Hi Hlt. destruct (decide (i = k)) as [->|Hne]; [done|].
        apply Hjoined; [lia|done].
      * injection Hstep as <-. pool_simpl.
        apply lookup_ge_None in Hk.
        split; [done|]. split.
        -- intros i name steps rest Hspec Hi.
           destruct (Hthreads i name steps rest Hspec Hi) as (performed & Heq & Hin).
           exists performed. split; [done|]. intros ev Hev.
           apply elem_of_app. left. by apply Hin.
        -- split; [done|]. split; [|by exists out].
           intros i rest Hi. pose proof (lookup_lt_Some _ _ _ Hi) as Hlt.
           rewrite Hjoined in Hi by lia. by injection Hi as <-.
  - (* a worker *)
    destruct (threads !! i) as [[|ev rest]|] eqn:Hi; [done| |done].
    injection Hstep as <-. pool_simpl.
    pose proof (lookup_lt_Some _ _ _ Hi) as Hlt.
    assert (Hspec : ∃ name steps, worker_specs !! i = Some (name, steps)).
    { destruct (lookup_lt_is_Some_2 worker_specs i) as [[name steps] H]; [lia|eauto]. }
    destruct Hspec as (name & steps & Hspec).
    destruct (Hthreads i name steps _ Hspec Hi) as (performed & Heq & Hin).
    assert (Hev : Print threads_summary ≠ ev).
    { intros <-. apply (summary_not_worker_event name steps).
      rewrite Heq. apply elem_of_app. right. apply list_elem_of_here. }
    split; [by rewrite length_insert|]. split.
    + intros j name' steps' rest' Hspec' Hj.
      destruct (decide (j = i)) as [->|Hne].
      * rewrite list_lookup_insert_eq in Hj by done. injection Hj as <-.
        rewrite Hspec in Hspec'. injection Hspec' as <- <-.
        exists (performed ++ [ev]). split; [by rewrite <- app_assoc|].
        intros ev' Hev'. apply elem_of_app in Hev' as [Hev'|Hev'].
        -- apply elem_of_app. left. by apply Hin.
        -- apply elem_of_app. by right.
      * rewrite list_lookup_insert_ne in Hj by done.
        destruct (Hthreads j name' steps' rest' Hspec' Hj) as (performed' & Heq' & Hin').
        exists performed'. split; [done|]. intros ev' Hev'.
        apply elem_of_app. left. by apply Hin'.
    + assert (Hout : Print threads_summary ∉ out → Print threads_summary ∉ out ++ [ev]).
      { intros Hs Hin'. apply elem_of_app in Hin' as [Hin'|Hin']; [done|].
        apply list_elem_of_singleton in Hin'. done. }
      destruct pc as [todo|k|].
      * destruct Hmain as [Hdrop Hs]. rewrite length_insert. auto.
      * destruct Hmain as (Hfull & Hjoined & Hs). rewrite length_insert.
        repeat split; [done| |auto].
        intros j Hj Hltj. destruct (decide (j = i)) as [->|Hne].
        -- rewrite Hjoined in Hi by done. done.
        -- rewrite list_lookup_insert_ne by done. by apply Hjoined.
      * destruct Hmain as (Hfull & Hall & _). by apply Hall in Hi.
Qed.

Lemma pool_inv_reachable st : pool_reachable st → pool_inv st.
Proof.
  intros Hreach.
  refine (rtc_ind_r pool_inv pool_init pool_inv_init _ st Hreach).
  intros y z _ Hstep Hy. by apply pool_inv_step with y.
Qed.

(** Each step uses up one of the steps left. *)
Lemma sum_list_insert (l : list (list event)) i ev rest :
  l !! i = Some (ev :: rest) →
  sum_list (map length l) = S (sum_list (map length (<[i := rest]> l))).
Proof.
  revert i. induction l as [|x l IH]; intros [|i] Hi; [done|done| |].
  - cbn in Hi. injection Hi as ->. reflexivity.
  - cbn in *. rewrite (IH i Hi). by rewrite Nat.add_succ_r.
Qed.

Lemma pool_step_decreases st a st' :
  pool_step st a = Some st' → (pool_steps st' < pool_steps st)%nat.
Proof.
  destruct st as [pc threads out]. unfold pool_steps.
  destruct a as [|i]; cbn [pool_step pool_main pool_threads pool_out].
  - destruct pc as [[|[worker_name steps] todo]|k|]; [| | |done].
    + intros [= <-]. cbn. lia.
    + intros [= <-]. cbn [pool_main pool_threads main_steps todo_events].
      rewrite length_app, map_app, sum_list_with_app. cbn. lia.
    + destruct (threads !! k) as [[|ev rest]|] eqn:Hk; [|done|].
      * intros [= <-]. apply lookup_lt_Some in Hk. cbn. lia.
      * intros [= <-]. cbn. lia.
  - destruct (threads !! i) as [[|ev rest]|] eqn:Hi; [done| |done].
    intros [= <-]. cbn [pool_main pool_threads].
    rewrite (sum_list_insert _ _ _ _ Hi), length_insert. lia.
Qed.

(** A state in which the main thread has not returned has an agent that can
    run: there is no deadlock. *)
Lemma pool_progress st :
  pool_main st ≠ Returned → ∃ a, a ∈ agents st ∧ is_Some (pool_step st a).
Proof.
  destruct st as [pc threads out]. cbn [pool_main]. intros Hpc.
  destruct pc as [[|[worker_name steps] todo]|k|]; [| | |done].
  - exists MainThread. split; [apply list_elem_of_here|]. by eexists.
  - exists MainThread. split; [apply list_elem_of_here|]. by eexists.
  - destruct (threads !! k) as [[|ev rest]|] eqn:Hk.
    + exists MainThread. split; [apply list_elem_of_here|]. cbn. rewrite Hk. by eexists.
    + exists (WorkerThread k). split.
      * apply list_elem_of_further, list_elem_of_fmap. exists k. split; [done|].
        apply elem_of_seq. apply lookup_lt_Some in Hk. cbn. lia.
      * cbn. rewrite Hk. by eexists.
    + exists MainThread. split; [apply list_elem_of_here|]. cbn. rewrite Hk. by eexists.
Qed.

Lemma run_pool_step fuel sched st :
  pool_main st ≠ Returned →
  ∃ a st', pool_step st a = Some st' ∧
           run_pool (S fuel) sched st = run_pool fuel (tl sched) st'.
Proof.
  intros Hpc. destruct (pool_progress st Hpc) as (a & Ha & Hs).
  assert (Hen : a ∈ enabled st) by (by apply list_elem_of_filter).
  assert (Hlen : (0 < length (enabled st))%nat).
  { destruct (enabled st); [by apply elem_of_nil in Hen|cbn; lia]. }
  cbn [run_pool].
  destruct (lookup_lt_is_Some_2 (enabled st) (hd 0%nat sched mod length (enabled st)))
    as [a' Ha'].
  { apply Nat.mod_upper_bound. lia. }
  rewrite Ha'. cbn [mbind option_bind].
  assert (Hs' : is_Some (pool_step st a')).
  { apply list_elem_of_lookup_2 in Ha'. by apply list_elem_of_filter in Ha' as [? _]. }
  destruct Hs' as [st' Hst']. exists a', st'. by rewrite Hst'.
Qed.

Lemma run_pool_returned fuel sched st :
  pool_main st = Returned → pool_main (run_pool fuel sched st).1 = Returned.
Proof.
  revert sched st. induction fuel as [|fuel IH]; intros sched st Hpc; [done|].
  cbn [run_pool].
  destruct (enabled st !! _ ≫= pool_step st) as [st'|] eqn:Hst; [|done].
  apply IH. apply bind_Some in Hst as (a & Ha & Hst).
  destruct st as [pc threads out]. cbn in Hpc. subst pc.
  destruct a as [|i]; [done|]. cbn in Hst.
  destruct (threads !! i) as [[|ev rest]|]; try done. by injection Hst as <-.
Qed.

(** Under every scheduler the run ends with the main thread returned. *)
Lemma run_pool_finishes fuel sched st :
  (pool_steps st ≤ fuel)%nat → pool_main (run_pool fuel sched st).1 = Returned.
Proof.
  revert sched st. induction fuel as [|fuel IH]; intros sched st Hfuel.
  - destruct st as [[todo|k|] threads out]; [| |done];
      unfold pool_steps in Hfuel; cbn in Hfuel; lia.
  - assert (pool_main st = Returned ∨ pool_main st ≠ Returned) as [Hr|Hr]
      by (destruct (pool_main st); auto).
    + by apply run_pool_returned.
    + destruct (run_pool_step fuel sched st Hr) as (a & st' & Hst & ->).
      apply IH. apply pool_step_decreases in Hst. lia.
Qed.

Lemma run_pool_reachable fuel sched st :
  rtc pool_next st (run_pool fuel sched st).1.
Proof.
  revert sched st. induction fuel as [|fuel IH]; intros sched st; [done|].
  cbn [run_pool].
  destruct (enabled st !! _ ≫= pool_step st) as [st'|] eqn:Hst; [|done].
  apply bind_Some in Hst as (a & _ & Hst).
  eapply rtc_l; [by exists a|apply IH].
Qed.

Lemma app_singleton_unique {A} (x : A) l1 l2 l1' :
  x ∉ l1' → l1 ++ x :: l2 = l1' ++ [x] → l1 = l1' ∧ l2 = [].
Proof.
  revert l1'. induction l1 as [|a l1 IH]; intros [|b l1'] Hx Heq; cbn in Heq.
  - by injection Heq as ->.
  - injection Heq as <- _. exfalso. apply Hx, list_elem_of_here.
  - injection Heq as _ Heq. by destruct l1.
  - injection Heq as <- Heq. destruct (IH l1') as [-> ->]; [|done|done].
    intros Hin. apply Hx. by apply list_elem_of_further.
Qed.

(** C5: in every state that some interleaving of the main thread and the
    three workers reaches, a summary line in the output is the last line, and
    the completion line of each of Downloader, Processor and Uploader comes
    before it; and under every scheduler the run of the threaded section ends
    in such a state, with the summary line printed. *)
Theorem summary_after_all_workers :
  (∀ st pre post,
     pool_reachable st →
     pool_out st = pre ++ Print threads_summary :: post →
     post = [] ∧
     ∀ name, name ∈ ["Downloader"; "Processor"; "Uploader"] →
             Print (worker_done name) ∈ pre) ∧
  (∀ sched, ∃ pre,
     pool_reachable (run_pool (pool_steps pool_init) sched pool_init).1 ∧
     pool_out (run_pool (pool_steps pool_init) sched pool_init).1
     = pre ++ [Print threads_summary]).
Proof.
  split.
  - intros st pre post Hreach Hout.
    destruct (pool_inv_reachable st Hreach) as (Hlen & Hthreads & Hmain).
    assert (Hin : Print threads_summary ∈ pool_out st).
    { rewrite Hout. apply elem_of_app. right. apply list_elem_of_here. }
    destruct (pool_main st) as [todo|k|]; [by destruct Hmain|by destruct Hmain as (_ & _ & ?)|].
    destruct Hmain as (Hfull & Hall & pre0 & Hout0 & Hpre0).
    rewrite Hout0 in Hout. symmetry in Hout.
    destruct (app_singleton_unique _ _ _ _ Hpre0 Hout) as [-> ->].
    split; [done|]. intros name Hname.
    assert (Hspec : ∃ i steps, worker_specs !! i = Some (name, steps)).
    { apply elem_of_cons in Hname as [->|Hname]; [by exists 0%nat, 4|].
      apply elem_of_cons in Hname as [->|Hname]; [by exists 1%nat, 3|].
      apply list_elem_of_singleton in Hname as ->. by exists 2%nat, 5. }
    destruct Hspec as (i & steps & Hspec).
    destruct (lookup_lt_is_Some_2 (pool_threads st) i) as [rest Hrest].
    { rewrite Hfull. by apply lookup_lt_Some in Hspec. }
    pose proof (Hall _ _ Hrest) as ->.
    destruct (Hthreads i name steps [] Hspec Hrest) as (performed & Heq & Hperf).
    rewrite app_nil_r in Heq. subst performed.
    assert (Hd : Print (worker_done name) ∈ pool_out st).
    { apply Hperf. unfold worker_events. apply elem_of_app. right.
      apply list_elem_of_here. }
    rewrite Hout0 in Hd. apply elem_of_app in Hd as [Hd|Hd]; [done|].
    apply list_elem_of_singleton in Hd. discriminate Hd.
  - intros sched.
    pose proof (run_pool_reachable (pool_steps pool_init) sched pool_init) as Hreach.
    pose proof (run_pool_finishes (pool_steps pool_init) sched pool_init (le_n _)) as Hret.
    destruct (pool_inv_reachable _ Hreach) as (_ & _ & Hmain).
    rewrite Hret in Hmain. destruct Hmain as (_ & _ & pre & Hout & _).
    by exists pre.
Qed.

(** C6: [worker name steps] prints one status line for each of the steps
    [1 .. steps] and then its completion line, reads nothing of the world and
    touches neither the console input nor any variable of another thread: 4,
    3 and 5 status lines for Downloader, Processor and Uploader.  A step of a
    worker thread appends one event to the output and advances that thread
    alone: the main thread and the other workers stay as they are. *)
Theorem worker_runs_its_steps :
  (∀ name steps,
     emits (worker name steps)
       (map (fun step => Print (worker_status name steps step))
            (map Z.of_nat (seq 1 (Z.to_nat steps)))
        ++ [Print (worker_done name)]) ()) ∧
  (∀ name steps, length (thread_events (worker name steps)) = S (Z.to_nat steps)) ∧
  thread_events (worker "Downloader" 4)
  = [ Print "  [Downloader] Step 1/4"; Print "  [Downloader] Step 2/4";
      Print "  [Downloader] Step 3/4"; Print "  [Downloader] Step 4/4";
      Print "  [Downloader] Done!" ] ∧
  thread_events (worker "Processor" 3)
  = [ Print "  [Processor] Step 1/3"; Print "  [Processor] Step 2/3";
      Print "  [Processor] Step 3/3"; Print "  [Processor] Done!" ] ∧
  thread_events (worker "Uploader" 5)
  = [ Print "  [Uploader] Step 1/5"; Print "  [Uploader] Step 2/5";
      Print "  [Uploader] Step 3/5"; Print "  [Uploader] Step 4/5";
      Print "  [Uploader] Step 5/5"; Print "  [Uploader] Done!" ] ∧
  (∀ st i st',
     pool_step st (WorkerThread i) = Some st' →
     pool_main st' = pool_main st ∧
     length (pool_threads st') = length (pool_threads st) ∧
     (∀ j, j ≠ i → pool_threads st' !! j = pool_threads st !! j) ∧
     ∃ ev rest, pool_threads st !! i = Some (ev :: rest) ∧
                pool_threads st' !! i = Some rest ∧
                pool_out st' = pool_out st ++ [ev]).
Proof.
  split; [apply worker_emits|].
  split.
  { intros name steps. rewrite thread_events_worker. unfold worker_events.
    rewrite length_app, !length_map, length_seq. cbn. lia. }
  split; [reflexivity|]. split; [reflexivity|]. split; [reflexivity|].
  intros [pc threads out] i st'. cbn [pool_step pool_main pool_threads pool_out].
  destruct (threads !! i) as [[|ev rest]|] eqn:Hi; [done| |done].
  intros [= <-]. cbn [pool_main pool_threads pool_out].
  split; [done|]. split; [apply length_insert|].
  split; [intros j Hj; by apply list_lookup_insert_ne|].
  exists ev, rest. split; [done|]. split; [|done].
  apply list_lookup_insert_eq. by apply lookup_lt_Some in Hi.
Qed.

(** ** Section 9: the transaction loop *)

Lemma float_of_int_small n :
  1 ≤ n < 2 ^ 53 →
  ∃ x, float_of_int n = Ok x ∧ PrimFloat.eqb x 0 = false.
Proof.
  intros [Hl Hu]. destruct n as [|p|p]; [lia| |lia].
  destruct (binary_normalize_small p Hu) as (m & e & Hn & Hv).
  exists (nearest_float (Z.pos p)).
  assert (Hp : Prim2SF (nearest_float (Z.pos p)) = S754_finite false m e).
  { unfold nearest_float. rewrite Hn. by apply Prim2SF_SF2Prim. }
  split.
  - unfold float_of_int, is_inf. cbv zeta. by rewrite Hp.
  - rewrite FloatAxioms.eqb_spec, Hp. reflexivity.
Qed.

Lemma txn_body_emits vars i txn :
  0 ≤ i < 2 ^ 53 - 1 →
  ∃ avg,
    emits (txn_body vars (i, txn))
      [Print (txn_status i (txn_amount txn)
                (running_total vars + txn_amount txn)%float avg)]
      {| running_total := (running_total vars + txn_amount txn)%float;
         history := history vars ++ [(running_total vars + txn_amount txn)%float];
         high_value_count :=
           if float_gt_int (txn_amount txn) 100
           then high_value_count vars + 1 else high_value_count vars |}.
Proof.
  intros Hi. destruct (float_of_int_small (i + 1) ltac:(lia)) as (n & Hn & Hz).
  exists ((running_total vars + txn_amount txn) / n)%float.
  unfold txn_body. cbv zeta. rewrite Hn.
  change [Print ?s] with ([] ++ [] ++ [Print s] ++ []).
  eapply emits_bind; [apply emits_lift|].
  unfold float_truediv. rewrite Hz.
  eapply emits_bind; [apply emits_lift|].
  eapply emits_bind; [apply emits_print|apply emits_ret].
Qed.

Lemma count_high_cons x xs :
  count_high (x :: xs) = (if float_gt_int x 100 then 1 else 0) + count_high xs.
Proof.
  unfold count_high. rewrite filter_cons.
  destruct (float_gt_int x 100).
  - rewrite decide_True by done. cbn [length]. lia.
  - rewrite decide_False by done. lia.
Qed.

(** The loop from any state, on the transactions numbered from [k]. *)
Lemma txn_loop_from (k : nat) txs vars :
  Z.of_nat (k + length txs) < 2 ^ 53 →
  ∃ evs,
    emits (for_fold (zip (map Z.of_nat (seq k (length txs))) txs) txn_body vars) evs
      {| running_total := fold_left PrimFloat.add (map txn_amount txs) (running_total vars);
         history := history vars ++ running_sums (running_total vars) (map txn_amount txs);
         high_value_count := high_value_count vars + count_high (map txn_amount txs) |} ∧
    length evs = length txs.
Proof.
  revert k vars. induction txs as [|txn txs IH]; intros k vars Hk.
  - exists []. split; [|done]. cbn [length seq map zip zip_with for_fold].
    match goal with |- emits _ _ ?v => replace v with vars end; [apply emits_ret|].
    destruct vars as [total hist count]. unfold count_high.
    cbn [running_total history high_value_count fold_left running_sums map].
    f_equal; [by rewrite app_nil_r|cbn; lia].
  - cbn [length seq map zip zip_with for_fold].
    destruct (txn_body_emits vars (Z.of_nat k) txn) as [avg Hb].
    { cbn [length] in Hk. lia. }
    set (vars1 := {| running_total := (running_total vars + txn_amount txn)%float;
                     history := _; high_value_count := _ |}) in Hb.
    destruct (IH (S k) vars1) as (evs & He & Hlen).
    { cbn [length] in Hk. lia. }
    eexists (_ :: evs). split; [|cbn; by rewrite Hlen].
    refine (emits_bind _ _ [_] evs _ _ Hb _).
    replace ({| running_total := _; history := _; high_value_count := _ |})
      with {| running_total := fold_left PrimFloat.add (map txn_amount txs)
                                 (running_total vars1);
              history := history vars1
                         ++ running_sums (running_total vars1) (map txn_amount txs);
              high_value_count := high_value_count vars1
                                  + count_high (map txn_amount txs) |}; [exact He|].
    subst vars1. cbn [running_total history high_value_count fold_left running_sums].
    f_equal.
    + by rewrite <- app_assoc.
    + rewrite count_high_cons. destruct (float_gt_int (txn_amount txn) 100); lia.
Qed.

Lemma running_sums_prefix total xs :
  running_sums total xs
  = map (fun k => fold_left PrimFloat.add (take k xs) total) (seq 1 (length xs)).
Proof.
  revert total. induction xs as [|x xs IH]; intros total; [done|].
  cbn [running_sums length seq map take fold_left]. f_equal.
  rewrite IH, <- (fmap_S_seq 1), <- list_fmap_compose. done.
Qed.

Lemma running_sums_length total xs : length (running_sums total xs) = length xs.
Proof. revert total. induction xs as [|x xs IH]; intros total; cbn; [done|by rewrite IH]. Qed.

Lemma running_sums_last total x xs :
  last (running_sums total (x :: xs)) = Some (fold_left PrimFloat.add (x :: xs) total).
Proof.
  revert total x. induction xs as [|y xs IH]; intros total x; [done|].
  cbn [running_sums fold_left] in *. rewrite last_cons_cons. apply IH.
Qed.

(** With amounts that are not negative the running sums do not decrease. *)
Lemma running_sums_nondecreasing total xs :
  (0 <=? total)%float = true →
  Forall (fun a => (0 <=? a)%float = true) xs →
  nondecreasing (running_sums total xs).
Proof.
  revert total. induction xs as [|x xs IH]; intros total Ht Hxs; [by intros []|].
  apply Forall_cons in Hxs as [Hx Hxs].
  destruct (float_add_nonneg total x Ht Hx) as [_ Ht'].
  intros [|j] a b Ha Hb; cbn [running_sums] in Ha, Hb.
  - injection Ha as <-. destruct xs as [|y xs]; [done|].
    apply Forall_cons in Hxs as [Hy _]. cbn in Hb. injection Hb as <-.
    by apply float_add_nonneg.
  - by apply (IH (total + x)%float Ht' Hxs j).
Qed.

(** The whole function: the status lines of the loop, then the summary with
    the final count and total. *)
Lemma analyze_transactions_emits txns :
  Z.of_nat (length txns) < 2 ^ 53 →
  ∃ evs,
    emits (analyze_transactions txns)
      (evs ++
       [ Print ("
  Summary: " +:+ str_of_int (Z.of_nat (length txns)) +:+ " transactions, "
                +:+ str_of_int (count_high (map txn_amount txns)) +:+ " high-value");
         Print ("  Final total: $" +:+ fmt_f true 2 (py_sum (map txn_amount txns))) ]) () ∧
    length evs = length txns.
Proof.
  intros Hlen. destruct (txn_loop_from 0 txns txn_init Hlen) as (evs & He & Hl).
  exists evs. split; [|exact Hl]. unfold analyze_transactions.
  eapply emits_bind; [exact He|]. cbn [high_value_count running_total txn_init].
  rewrite Z.add_0_l.
  refine (emits_bind _ _ [_] [_] _ _ _ _); apply emits_print.
Qed.

(** C10: after the first [i] transactions, [running_total] is the sum of
    their amounts, [history] is the list of the first [i] prefix sums, so it
    has [i] elements and ends with [running_total], and it does not decrease
    when no amount is negative; [high_value_count] is the number of these
    amounts that are greater than 100.  On the script's ten transactions the
    count is 5, which the summary line prints. *)
Theorem analyze_transactions_invariant (txns : list transaction) (i : nat) :
  Z.of_nat (length txns) < 2 ^ 53 → (i ≤ length txns)%nat →
  (∃ evs vars,
     emits (txn_loop (take i txns)) evs vars ∧
     length evs = i ∧
     running_total vars = py_sum (map txn_amount (take i txns)) ∧
     history vars = prefix_sums (map txn_amount (take i txns)) ∧
     length (history vars) = i ∧
     (i ≠ 0%nat → last (history vars) = Some (running_total vars)) ∧
     high_value_count vars = count_high (map txn_amount (take i txns)) ∧
     (Forall (fun a => (0 <=? a)%float = true) (map txn_amount (take i txns)) →
      nondecreasing (history vars))) ∧
  (count_high (map txn_amount transactions) = 5 ∧
   ∃ evs,
     length evs = 10%nat ∧
     emits (analyze_transactions transactions)
       (evs ++ [ Print "
  Summary: 10 transactions, 5 high-value";
                 Print "  Final total: $4,040.97" ]) ()).
Proof.
  intros Hlen Hi.
  assert (Hloop : ∀ txs, Z.of_nat (length txs) < 2 ^ 53 →
            ∃ evs, emits (txn_loop txs) evs
                     {| running_total := py_sum (map txn_amount txs);
                        history := running_sums 0 (map txn_amount txs);
                        high_value_count := count_high (map txn_amount txs) |} ∧
                   length evs = length txs).
  { intros txs Htxs. destruct (txn_loop_from 0 txs txn_init Htxs) as (evs & He & Hl).
    exists evs. split; [|done]. exact He. }
  split.
  - set (txs := take i txns).
    assert (Htake : length txs = i) by (unfold txs; rewrite length_take; lia).
    destruct (Hloop txs ltac:(lia)) as (evs & He & Hl).
    eexists evs, _. split; [exact He|].
    cbn [running_total history high_value_count].
    split; [lia|]. split; [done|].
    split; [unfold prefix_sums; apply running_sums_prefix|].
    split; [by rewrite running_sums_length, length_map|].
    split; [|split; [done|]].
    + intros Hne. destruct txs as [|txn txs']; [cbn in Htake; lia|].
      cbn [map]. apply running_sums_last.
    + by apply running_sums_nondecreasing.
  - split; [reflexivity|].
    destruct (analyze_transactions_emits transactions) as (evs & He & Hl); [done|].
    exists evs. split; [exact Hl|exact He].
Qed.

Lemma analyze_transactions_invariant_witness :
  Z.of_nat (length transactions) < 2 ^ 53 ∧ (4 ≤ length transactions)%nat ∧
  ∃ evs vars,
    emits (txn_loop (take 4 transactions)) evs vars ∧
    length evs = 4%nat ∧
    running_total vars = py_sum (map txn_amount (take 4 transactions)) ∧
    history vars = prefix_sums (map txn_amount (take 4 transactions)) ∧
    length (history vars) = 4%nat ∧
    (4%nat ≠ 0%nat → last (history vars) = Some (running_total vars)) ∧
    high_value_count vars = count_high (map txn_amount (take 4 transactions)) ∧
    (Forall (fun a => (0 <=? a)%float = true) (map txn_amount (take 4 transactions)) →
     nondecreasing (history vars)).
Proof.
  assert (H1 : Z.of_nat (length transactions) < 2 ^ 53) by reflexivity.
  assert (H2 : (4 ≤ length transactions)%nat) by (cbn; lia).
  split; [exact H1|]. split; [exact H2|].
  exact (proj1 (analyze_transactions_invariant transactions 4 H1 H2)).
Defined.

(** ** Section 5 and the rest of the run *)

Lemma finishes_emits {A} (m : M A) evs tail a :
  emits m (evs ++ tail) a → finishes m 0 tail.
Proof. intros Hm w _. exists a, evs, (schedule w). by rewrite Hm. Qed.

Lemma finishes_bind {A B} (m : M A) (f : A → M B) k1 k2 tail :
  finishes m k1 [] → (∀ a, finishes (f a) k2 tail) →
  finishes (m ≫= f) (k1 + k2) tail.
Proof.
  intros Hm Hf w Hw.
  destruct (Hm w ltac:(lia)) as (a & evs1 & sched1 & Hm').
  destruct (Hf a (World (drop k1 (stdin w)) (trace w ++ evs1 ++ []) sched1))
    as (b & evs2 & sched2 & Hf').
  { cbn [stdin]. rewrite length_drop. lia. }
  exists b, (evs1 ++ evs2), sched2.
  unfold mbind, M_bind. rewrite Hm', Hf'. cbn [stdin trace].
  by rewrite drop_drop, app_nil_r, <- !app_assoc.
Qed.

Lemma finishes_bind_emits {A B} (m : M A) (f : A → M B) evs a k tail :
  emits m evs a → finishes (f a) k tail → finishes (m ≫= f) k tail.
Proof.
  intros Hm Hf w Hw.
  destruct (Hf (World (stdin w) (trace w ++ evs) (schedule w)) Hw)
    as (b & evs2 & sched2 & Hf').
  exists b, (evs ++ evs2), sched2.
  unfold mbind, M_bind. rewrite Hm, Hf'. cbn [stdin trace].
  by rewrite <- !app_assoc.
Qed.

Lemma finishes_pause : finishes pause 1 [].
Proof.
  intros [[|line rest] tr sched] Hw; [cbn in Hw; lia|].
  exists (), [Prompt pause_prompt], sched.
  reflexivity.
Qed.

(** The threaded section returns under every scheduler. *)
Lemma finishes_run_threads : finishes run_threads 0 [].
Proof.
  intros w _. unfold run_threads.
  destruct (run_pool (pool_steps pool_init) (schedule w) pool_init) as [st sched].
  exists (), (pool_out st), sched. by rewrite app_nil_r.
Qed.

(** The three demonstrations: each exception is caught where it is raised,
    and the closing message follows. *)
Lemma section5_demos_emits :
  emits section5_demos
    [ Print "  Attempting division by zero (caught)...";
      Print "  Caught ZeroDivisionError: division by zero";
      Print "  Attempting to parse 'hello' as int (caught)...";
      Print "  Caught ValueError: invalid literal for int() with base 10: 'hello'";
      Print "  Attempting missing dict key (caught)...";
      Print "  Caught KeyError: 'missing_key'";
      Print "
  All exceptions were caught — no crash." ] ().
Proof.
  unfold section5_demos.
  refine (emits_bind _ _ [_; _] [_; _; _; _; _] _ _ _ _).
  { unfold demo_zero_division.
    refine (emits_bind _ _ [_] [_] _ _ _ _); [apply emits_print|].
    eapply (emits_try_except _ _ _ [] [_]);
      [ apply fails_bind_l; rewrite risky_division_by_zero; apply fails_lift
      | reflexivity
      | apply emits_print ]. }
  refine (emits_bind _ _ [_; _] [_; _; _] _ _ _ _).
  { unfold demo_value_error.
    refine (emits_bind _ _ [_] [_] _ _ _ _); [apply emits_print|].
    eapply (emits_try_except _ _ _ [] [_]);
      [ apply fails_bind_l; rewrite parse_number_hello; apply fails_lift
      | reflexivity
      | apply emits_print ]. }
  refine (emits_bind _ _ [_; _] [_] _ _ _ _); [|apply emits_print].
  unfold demo_key_error.
  refine (emits_bind _ _ [_] [_] _ _ _ _); [apply emits_print|].
  eapply (emits_try_except _ _ _ [] [_]);
    [ apply fails_bind_l; apply (fails_lift (Exn KeyError (repr_str "missing_key")))
    | reflexivity
    | apply emits_print ].
Qed.

(** Brings the next statement of a section to the front. *)
Ltac finishes_emit tac :=
  eapply finishes_bind_emits; [tac|cbv beta].

Lemma section5_finishes : finishes section5 1 [].
Proof.
  unfold section5. destruct (emits_banner 5 "Exception Breakpoints") as [evs Hb].
  finishes_emit ltac:(exact Hb).
  finishes_emit ltac:(apply emits_print).
  finishes_emit ltac:(apply section5_demos_emits).
  apply finishes_pause.
Qed.

Lemma section6_finishes : finishes section6 1 [].
Proof.
  unfold section6.
  destruct (emits_banner 6 "Programmatic Breakpoints (debugpy.breakpoint())") as [evs Hb].
  finishes_emit ltac:(exact Hb).
  finishes_emit ltac:(apply emits_print).
  finishes_emit ltac:(exact (process_order_emits 1001 small_order 65 eq_refl)).
  finishes_emit ltac:(exact (process_order_emits 1002 large_order 1049.93 eq_refl)).
  apply finishes_pause.
Qed.

Lemma section7_finishes : finishes section7 1 [].
Proof.
  unfold section7. destruct (emits_banner 7 "Logpoints") as [evs Hb].
  destruct process_batches_sample_data_passes as (passes & vars & Hp & Hl).
  finishes_emit ltac:(exact Hb).
  finishes_emit ltac:(apply emits_print).
  finishes_emit ltac:(exact (process_batches_summary sample_data (Some 4) _ _ Hp Hl)).
  apply finishes_pause.
Qed.

Lemma section8_finishes : finishes section8 1 [].
Proof.
  unfold section8. destruct (emits_banner 8 "Multi-threaded Debugging") as [evs Hb].
  finishes_emit ltac:(exact Hb).
  finishes_emit ltac:(apply emits_print).
  apply (finishes_bind _ _ 0 1); [apply finishes_run_threads|].
  intros _. apply finishes_pause.
Qed.

Lemma section9_finishes : finishes section9 0 [].
Proof.
  unfold section9. destruct (emits_banner 9 "Watch Expressions & Debug Console") as [evs Hb].
  destruct (analyze_transactions_emits transactions) as (evs' & Ha & _); [done|].
  finishes_emit ltac:(exact Hb).
  finishes_emit ltac:(apply emits_print).
  eapply (finishes_emits _ _ [] ()). rewrite app_nil_r. exact Ha.
Qed.

Lemma epilogue_emits : emits epilogue epilogue_events ().
Proof.
  unfold epilogue, epilogue_events.
  refine (emits_bind _ _ [_] [_; _] _ _ _ _); [apply emits_print|].
  refine (emits_bind _ _ [_] [_] _ _ _ _); apply emits_print.
Qed.

Lemma after_section5_finishes : finishes after_section5 3 epilogue_events.
Proof.
  unfold after_section5.
  apply (finishes_bind _ _ 1 2); [apply section6_finishes|intros _].
  apply (finishes_bind _ _ 1 1); [apply section7_finishes|intros _].
  apply (finishes_bind _ _ 1 0); [apply section8_finishes|intros _].
  apply (finishes_bind _ _ 0 0); [apply section9_finishes|intros _].
  apply (finishes_emits _ [] epilogue_events ()), epilogue_emits.
Qed.

Lemma section1_finishes : finishes section1 1 [].
Proof.
  unfold section1. destruct (emits_banner 1 "Remote Debugging Setup") as [evs Hb].
  finishes_emit ltac:(exact Hb).
  finishes_emit ltac:(apply emits_print).
  finishes_emit ltac:(apply emits_emit).
  finishes_emit ltac:(apply emits_print).
  finishes_emit ltac:(apply emits_emit).
  finishes_emit ltac:(apply emits_print).
  apply finishes_pause.
Qed.

Lemma explore_variables_emits :
  emits explore_variables [Print "  Result: Alice has an average score of 87.6"]
    "Alice has an average score of 87.6".
Proof.
  unfold explore_variables. cbv zeta.
  assert (Ha : int_truediv (sum_int [85; 92; 78; 95; 88])
                 (Z.of_nat (length [85; 92; 78; 95; 88])) = Ok 87.6%float)
    by reflexivity.
  rewrite Ha.
  refine (emits_bind _ _ [] [_] _ _ _ _); [apply emits_lift|].
  refine (emits_bind _ _ [_] [] _ _ _ _); [apply emits_print|apply emits_ret].
Qed.

Lemma section2_finishes : finishes section2 1 [].
Proof.
  unfold section2.
  destruct (emits_banner 2 "Basic Breakpoints & Variable Inspection") as [evs Hb].
  finishes_emit ltac:(exact Hb).
  finishes_emit ltac:(apply emits_print).
  finishes_emit ltac:(apply explore_variables_emits).
  apply finishes_pause.
Qed.

Lemma section3_finishes : finishes section3 1 [].
Proof.
  unfold section3.
  destruct calculate_total_script_run as (evs & He & _).
  finishes_emit ltac:(exact He).
  apply finishes_pause.
Qed.

Lemma section4_finishes : finishes section4 1 [].
Proof.
  unfold section4, catalog_loop. cbn [v_catalog].
  destruct (emits_banner 4 "Conditional Breakpoints") as [evs Hb].
  destruct (catalog_loop_emits catalog
              {| v_catalog := catalog; v_item := None; v_label := None |})
    as (vars & He & _).
  finishes_emit ltac:(exact Hb).
  finishes_emit ltac:(apply emits_print).
  finishes_emit ltac:(exact He).
  apply (finishes_bind _ _ 1 0); [apply finishes_pause|intros _].
  apply (finishes_emits _ [] [] vars), emits_ret.
Qed.

(** With its eight pauses answered the whole script runs to its closing
    lines, under every thread schedule. *)
Lemma script_finishes : finishes script 8 epilogue_events.
Proof.
  unfold script.
  apply (finishes_bind _ _ 1 7); [apply section1_finishes|intros _].
  apply (finishes_bind _ _ 1 6); [apply section2_finishes|intros _].
  apply (finishes_bind _ _ 1 5); [apply section3_finishes|intros _].
  apply (finishes_bind _ _ 1 4); [apply section4_finishes|intros _].
  apply (finishes_bind _ _ 1 3); [apply section5_finishes|intros _].
  apply after_section5_finishes.
Qed.

(** C4: each of the three demonstrations raises its exception, the handler
    at the call site catches it and prints its message, and no exception
    leaves Section 5; when the presenter answers the pauses that remain (four
    lines of console input from Section 5 on), the run goes on through
    Sections 6 to 9 under every thread schedule and ends with the closing
    lines of the script. *)
Theorem exceptions_are_caught (w : world) :
  (4 ≤ length (stdin w))%nat →
  raises (risky_division 10 0) ZeroDivisionError ∧
  raises (parse_number "hello") ValueError ∧
  raises (dict_getitem ({[ "a" := 1; "b" := 2 ]} : gmap string Z) "missing_key") KeyError ∧
  emits section5_demos
    [ Print "  Attempting division by zero (caught)...";
      Print "  Caught ZeroDivisionError: division by zero";
      Print "  Attempting to parse 'hello' as int (caught)...";
      Print "  Caught ValueError: invalid literal for int() with base 10: 'hello'";
      Print "  Attempting missing dict key (caught)...";
      Print "  Caught KeyError: 'missing_key'";
      Print "
  All exceptions were caught — no crash." ] () ∧
  ∃ evs sched,
    (section5;; after_section5) w
    = (Ok (), World (drop 4 (stdin w)) (trace w ++ evs ++ epilogue_events) sched).
Proof.
  intros Hw.
  split; [reflexivity|]. split; [reflexivity|]. split; [reflexivity|].
  split; [apply section5_demos_emits|].
  destruct (finishes_bind section5 (fun _ => after_section5) 1 3 epilogue_events
              section5_finishes (fun _ => after_section5_finishes) w Hw)
    as ([] & evs & sched & Hrun).
  by exists evs, sched.
Qed.

Lemma exceptions_are_caught_witness :
  (4 ≤ length (stdin (World [""; ""; ""; ""] [] [])))%nat ∧
  ∃ evs sched,
    (section5;; after_section5) (World [""; ""; ""; ""] [] [])
    = (Ok (), World [] (evs ++ epilogue_events) sched).
Proof.
  assert (H : (4 ≤ length (stdin (World [""; ""; ""; ""] [] [])))%nat) by (cbn; lia).
  split; [exact H|].
  exact (proj2 (proj2 (proj2 (proj2
           (exceptions_are_caught (World [""; ""; ""; ""] [] []) H))))).
Defined.

(** ** More facts on binary64 arithmetic *)

(** *** Digits, rounding and validity *)

(** The number of binary digits of a positive integer. *)
Lemma Zdigits2_bounds m :
  0 < m → 2 ^ (Zdigits2 m - 1) ≤ m < 2 ^ Zdigits2 m.
Proof. destruct m as [|p|p]; [lia| |lia]. intros _. apply digits2_pos_bounds. Qed.

Lemma Zdigits2_unique m k :
  2 ^ (k - 1) ≤ m < 2 ^ k → 0 < m → Zdigits2 m = k.
Proof. destruct m as [|p|p]; [lia| |lia]. intros H _. by apply digits2_pos_unique. Qed.

Lemma Zdigits2_nonneg m : 0 ≤ Zdigits2 m.
Proof. destruct m; cbn; lia. Qed.

Lemma Zdigits2_lt_pow2 m k : 0 ≤ m → 0 ≤ k → m < 2 ^ k → Zdigits2 m ≤ k.
Proof.
  intros Hm Hk Hlt. destruct (Z.eq_dec m 0) as [->|Hne]; [done|].
  pose proof (Zdigits2_bounds m ltac:(lia)) as [Hl _].
  destruct (Z.le_gt_cases (Zdigits2 m) k) as [|Hgt]; [done|].
  pose proof (pow2_le k (Zdigits2 m - 1) ltac:(lia)). lia.
Qed.

Lemma Zdigits2_ge_pow2 m k : 0 ≤ k → 2 ^ k ≤ m → k + 1 ≤ Zdigits2 m.
Proof.
  intros Hk Hle.
  assert (Hm : 0 < m) by (pose proof (Z.pow_pos_nonneg 2 k); lia).
  pose proof (Zdigits2_bounds m Hm) as [_ Hu].
  destruct (Z.le_gt_cases (k + 1) (Zdigits2 m)) as [|Hgt]; [done|].
  pose proof (pow2_le (Zdigits2 m) k ltac:(lia)). lia.
Qed.

(** Cutting [k] digits off leaves the others. *)
Lemma Zdigits2_div_pow2 m k :
  0 ≤ k → 0 < m / 2 ^ k → Zdigits2 (m / 2 ^ k) = Zdigits2 m - k.
Proof.
  intros Hk Hq.
  assert (Hp : 0 < 2 ^ k) by (apply Z.pow_pos_nonneg; lia).
  assert (Hm : 0 < m).
  { destruct (Z.le_gt_cases m 0) as [Hle|]; [|done].
    pose proof (Z.div_le_upper_bound m (2 ^ k) 0 Hp ltac:(lia)). lia. }
  pose proof (Zdigits2_bounds m Hm) as [Hl Hu].
  assert (Hd : k < Zdigits2 m).
  { destruct (Z.le_gt_cases (Zdigits2 m) k) as [Hle|]; [|lia].
    pose proof (pow2_le _ _ Hle). rewrite Z.div_small in Hq by lia. lia. }
  apply Zdigits2_unique; [|done]. split.
  - apply Z.div_le_lower_bound; [done|]. rewrite <- Z.pow_add_r by lia.
    by replace (k + (Zdigits2 m - k - 1)) with (Zdigits2 m - 1) by lia.
  - apply Z.div_lt_upper_bound; [done|]. rewrite <- Z.pow_add_r by lia.
    by replace (k + (Zdigits2 m - k)) with (Zdigits2 m) by lia.
Qed.

Lemma round_nearest_even_le m l : round_nearest_even m l ≤ m + 1.
Proof. destruct l as [|[]]; cbn; try lia. destruct (Z.even m); lia. Qed.

(** Rounding a mantissa on a grid that is fine enough gives a zero, a double
    or an infinity of the same sign; an infinity only for a value of at least
    [2^(emax-1)]. *)
Lemma binary_round_aux_valid s m e l :
  0 ≤ m → e ≤ fexp prec emax (Zdigits2 m + e) →
  binary_round_aux prec emax s m e l = S754_zero s ∨
  (binary_round_aux prec emax s m e l = S754_infinity s ∧ emax - 1 < Zdigits2 m + e) ∨
  ∃ m' e', binary_round_aux prec emax s m e l = S754_finite s m' e' ∧
           valid_binary (S754_finite s m' e') = true.
Proof.
  intros Hm Hfine. unfold binary_round_aux.
  destruct (shr_fexp_spec m e l Hm) as [He1 Hm1].
  destruct (shr_fexp prec emax m e l) as [mrs1 e1]. cbn [fst snd] in He1, Hm1.
  rewrite Z.max_r in He1, Hm1 by done. rewrite <- He1 in Hm1.
  assert (Hk1 : 0 ≤ e1 - e) by lia.
  assert (Hp1 : 0 < 2 ^ (e1 - e)) by (apply Z.pow_pos_nonneg; lia).
  assert (Hm1' : 0 ≤ shr_m mrs1) by (rewrite Hm1; apply Z.div_pos; lia).
  pose proof (round_nearest_even_ge (shr_m mrs1) (loc_of_shr_record mrs1)) as Hr1.
  pose proof (round_nearest_even_le (shr_m mrs1) (loc_of_shr_record mrs1)) as Hr2.
  set (r := round_nearest_even (shr_m mrs1) (loc_of_shr_record mrs1)) in *.
  (* the digits of the rounded mantissa *)
  assert (Hdr : e1 ≤ fexp prec emax (Zdigits2 r + e1) ∨ r = 0).
  { destruct (Z.eq_dec r 0) as [|Hr0]; [by right|left].
    destruct (Z.eq_dec (shr_m mrs1) 0) as [H0|H0].
    - (* everything was shifted out: the exponent is the least one *)
      assert (r = 1) as -> by lia. cbn [Zdigits2 digits2_pos].
      assert (Hd : Zdigits2 m ≤ e1 - e).
      { destruct (Z.eq_dec m 0) as [->|]; [cbn; lia|].
        destruct (Z.le_gt_cases (Zdigits2 m) (e1 - e)) as [|Hgt]; [done|].
        pose proof (Zdigits2_bounds m ltac:(lia)) as [Hl _].
        pose proof (pow2_le (e1 - e) (Zdigits2 m - 1) ltac:(lia)).
        assert (1 ≤ m / 2 ^ (e1 - e)) by (apply Z.div_le_lower_bound; lia). lia. }
      unfold fexp, SpecFloat.emin, prec, emax in *. lia.
    - assert (Hd : Zdigits2 (shr_m mrs1) = Zdigits2 m - (e1 - e)).
      { rewrite Hm1. apply Zdigits2_div_pow2; lia. }
      pose proof (Zdigits2_bounds (shr_m mrs1) ltac:(lia)) as [Hl _].
      pose proof (Zdigits2_ge_pow2 r (Zdigits2 (shr_m mrs1) - 1)
                    ltac:(pose proof (Zdigits2_ge_pow2 (shr_m mrs1) 0); lia) ltac:(lia)).
      pose proof (fexp_mono (Zdigits2 m + e) (Zdigits2 r + e1) ltac:(lia)). lia. }
  assert (Hdr' : Zdigits2 m + e ≤ emax - 1 → Zdigits2 r + e1 ≤ emax).
  { intros Hbig. destruct (Z.eq_dec (shr_m mrs1) 0) as [H0|H0].
    - assert (Zdigits2 r ≤ 1) by (apply Zdigits2_lt_pow2; cbn; lia).
      unfold fexp, SpecFloat.emin, prec, emax in *. lia.
    - assert (Hd : Zdigits2 (shr_m mrs1) = Zdigits2 m - (e1 - e)).
      { rewrite Hm1. apply Zdigits2_div_pow2; lia. }
      pose proof (Zdigits2_bounds (shr_m mrs1) ltac:(lia)) as [_ Hu].
      pose proof (Zdigits2_nonneg (shr_m mrs1)).
      assert (Zdigits2 r ≤ Zdigits2 (shr_m mrs1) + 1).
      { apply Zdigits2_lt_pow2; [lia|lia|]. rewrite Z.pow_add_r by lia. lia. }
      lia. }
  assert (Hr0 : 0 ≤ r) by lia.
  destruct (shr_fexp_spec r e1 loc_Exact Hr0) as [He2 Hm2].
  destruct (shr_fexp prec emax r e1 loc_Exact) as [mrs2 e2]. cbn [fst snd] in He2, Hm2.
  cbv zeta in He2, Hm2. rewrite <- He2 in Hm2.
  assert (Hp2 : 0 < 2 ^ (e2 - e1)) by (apply Z.pow_pos_nonneg; lia).
  destruct (shr_m mrs2) as [|p|p] eqn:Hp; [by left| |].
  2: { exfalso. pose proof (Z.div_pos r (2 ^ (e2 - e1)) Hr0 Hp2). lia. }
  right. destruct Hdr as [Hdr| ->]; [|rewrite Z.div_0_l in Hm2; lia].
  assert (He2' : e2 = fexp prec emax (Zdigits2 r + e1)) by lia.
  destruct (e2 <=? emax - prec) eqn:Hb.
  - right. exists p, e2. split; [done|].
    cbn [valid_binary]. unfold bounded, canonical_mantissa. rewrite Hb, andb_true_r.
    apply Z.eqb_eq. change (Z.pos (digits2_pos p)) with (Zdigits2 (Z.pos p)).
    rewrite Hm2, Zdigits2_div_pow2 by lia.
    replace (Zdigits2 r - (e2 - e1) + e2) with (Zdigits2 r + e1) by lia. done.
  - left. split; [done|]. apply Z.leb_gt in Hb.
    destruct (Z.le_gt_cases (Zdigits2 m + e) (emax - 1)) as [Hbig|]; [|lia].
    specialize (Hdr' Hbig). unfold fexp, SpecFloat.emin, prec, emax in *. lia.
Qed.

Lemma SFeqb_refl_finite s m e : SFeqb (S754_finite s m e) (S754_finite s m e) = true.
Proof.
  unfold SFeqb, SFcompare. rewrite Z.compare_refl.
  change (PosDef.Pos.compare_cont Eq m m) with (m ?= m)%positive.
  rewrite Pos.compare_refl. by destruct s.
Qed.

(** [is_finite]: a zero or a finite non-zero double. *)
Lemma is_finite_spec x :
  is_finite x
  = match Prim2SF x with
    | S754_zero _ | S754_finite _ _ _ => true
    | _ => false
    end.
Proof.
  unfold is_finite, is_nan, is_infinity.
  rewrite !FloatAxioms.eqb_spec, abs_spec. change (Prim2SF infinity) with (S754_infinity false).
  destruct (Prim2SF x) as [s|s| |s m e]; try reflexivity.
  - by destruct s.
  - cbn [SFabs]. rewrite SFeqb_refl_finite. reflexivity.
Qed.

(** The rounding of a mantissa that is not negative is not below zero. *)
Lemma binary_round_aux_nonneg m e l :
  0 ≤ m → SFleb (S754_zero false) (binary_round_aux prec emax false m e l) = true.
Proof.
  intros Hm. unfold binary_round_aux.
  destruct (shr_fexp_spec m e l Hm) as [_ Hm1].
  destruct (shr_fexp prec emax m e l) as [mrs1 e1]. cbn [fst snd] in Hm1.
  pose proof (round_nearest_even_ge (shr_m mrs1) (loc_of_shr_record mrs1)) as Hr1.
  assert (Hm1' : 0 ≤ shr_m mrs1).
  { rewrite Hm1. apply Z.div_pos; [done|]. apply Z.pow_pos_nonneg; lia. }
  set (r := round_nearest_even (shr_m mrs1) (loc_of_shr_record mrs1)) in *.
  destruct (shr_fexp_spec r e1 loc_Exact ltac:(lia)) as [_ Hm2].
  destruct (shr_fexp prec emax r e1 loc_Exact) as [mrs2 e2]. cbn [fst snd] in Hm2.
  assert (Hm2' : 0 ≤ shr_m mrs2).
  { rewrite Hm2. apply Z.div_pos; [lia|]. apply Z.pow_pos_nonneg; lia. }
  destruct (shr_m mrs2) as [|p|p]; [done| |lia].
  by destruct (e2 <=? emax - prec).
Qed.

(** The product of two floats that are not negative is not negative, when
    it is not the product of a zero and an infinity. *)
Lemma float_mul_nonneg (x y : float) :
  (0 <=? x)%float = true → (0 <=? y)%float = true →
  is_finite y = true → is_finite x = true ∨ (0 <? y)%float = true →
  (0 <=? x * y)%float = true.
Proof.
  rewrite !is_finite_spec, !leb_spec, ltb_spec, mul_spec.
  change (Prim2SF 0) with (S754_zero false).
  destruct (Prim2SF x) as [sx|sx| |sx mx ex], (Prim2SF y) as [sy|sy| |sy my ey];
    try destruct sx; try destruct sy; try discriminate; intros _ _ _ Hf;
    try reflexivity; try (by destruct Hf).
  apply binary_round_aux_nonneg. lia.
Qed.

Lemma Zdigits2_mul_pow2 m k : 0 < m → 0 ≤ k → Zdigits2 (m * 2 ^ k) = Zdigits2 m + k.
Proof.
  intros Hm Hk. pose proof (Zdigits2_bounds m Hm) as [Hl Hu].
  pose proof (Zdigits2_ge_pow2 m 0 ltac:(lia) ltac:(lia)).
  assert (Hp : 0 < 2 ^ k) by (apply Z.pow_pos_nonneg; lia).
  apply Zdigits2_unique; [|lia]. split.
  - replace (Zdigits2 m + k - 1) with ((Zdigits2 m - 1) + k) by lia.
    rewrite Z.pow_add_r by lia. apply Z.mul_le_mono_nonneg_r; lia.
  - rewrite Z.pow_add_r by lia. apply Z.mul_lt_mono_pos_r; lia.
Qed.

(** An int from 0 to [2^1023] converts to a float that is finite and not
    negative. *)
Lemma float_of_int_nonneg n :
  0 ≤ n < 2 ^ 1023 →
  ∃ q, float_of_int n = Ok q ∧ (0 <=? q)%float = true ∧ is_finite q = true.
Proof.
  intros [Hn Hu]. destruct n as [|p|p]; [by exists 0%float| |lia].
  unfold float_of_int, nearest_float. cbv zeta. cbn [binary_normalize].
  unfold binary_round.
  set (d := Z.pos (digits2_pos p)).
  assert (Hd : d ≤ 1023).
  { apply (Zdigits2_lt_pow2 (Z.pos p)); lia. }
  assert (Hsh : ∃ mz ez, shl_align p 0 (fexp prec emax (d + 0)) = (mz, ez) ∧
                         ez ≤ fexp prec emax (Zdigits2 (Z.pos mz) + ez) ∧
                         Zdigits2 (Z.pos mz) + ez = d).
  { destruct (Z.le_gt_cases (fexp prec emax (d + 0)) 0) as [Hle|Hgt].
    - destruct (shl_align_spec p 0 (fexp prec emax (d + 0)) Hle) as [Hmz Hez].
      destruct (shl_align p 0 (fexp prec emax (d + 0))) as [mz ez].
      cbn [fst snd] in Hmz, Hez. exists mz, ez. split; [done|].
      assert (Hdz : Zdigits2 (Z.pos mz) + ez = d).
      { rewrite Hmz, Zdigits2_mul_pow2 by lia. change (Zdigits2 (Z.pos p)) with d. lia. }
      split; [|done]. rewrite Hdz, Hez. by replace (d + 0) with d by lia.
    - exists p, 0. split; [|split; [|change (Zdigits2 (Z.pos p)) with d; lia]].
      + unfold shl_align. destruct (fexp prec emax (d + 0) - 0) eqn:H; try done. lia.
      + change (Zdigits2 (Z.pos p)) with d. lia. }
  destruct Hsh as (mz & ez & -> & Hfine & Hdz).
  destruct (binary_round_aux_valid false (Z.pos mz) ez loc_Exact ltac:(lia) Hfine)
    as [Hr|[[_ Hbig]|(m' & e' & Hr & Hv)]].
  - rewrite Hr. by exists 0%float.
  - unfold emax in Hbig. lia.
  - rewrite Hr. unfold is_inf. rewrite Prim2SF_SF2Prim by done.
    eexists. split; [done|]. rewrite leb_spec, is_finite_spec, Prim2SF_SF2Prim by done.
    done.
Qed.

(** *** The true division of ints *)

(** How [SFdiv] divides two integers: the integer part of the quotient on a
    grid [e'] that is fine enough, and the place of its fraction. *)
Lemma SFdiv_int_core_loc sa sb (a b : positive) :
  ∃ e',
    SFdiv prec emax (S754_finite sa a 0) (S754_finite sb b 0)
    = binary_round_aux prec emax (xorb sa sb) (Z.pos a * 2 ^ (- e') / Z.pos b) e'
        (new_location (Z.pos b) ((Z.pos a * 2 ^ (- e')) mod Z.pos b)) ∧
    emin ≤ e' ≤ 0 ∧
    e' ≤ fexp prec emax (Zdigits2 (Z.pos a * 2 ^ (- e') / Z.pos b) + e').
Proof.
  unfold SFdiv, SFdiv_core_binary.
  change IntDef.Z.min with Z.min. change IntDef.Z.shiftl with Z.shiftl.
  change IntDef.Z.div_eucl with Z.div_eucl.
  pose proof (Zdigits2_bounds (Z.pos a) ltac:(lia)) as [Hal Hau].
  pose proof (Zdigits2_bounds (Z.pos b) ltac:(lia)) as [Hbl Hbu].
  pose proof (Zdigits2_ge_pow2 (Z.pos a) 0 ltac:(lia) ltac:(lia)) as Hd1.
  pose proof (Zdigits2_ge_pow2 (Z.pos b) 0 ltac:(lia) ltac:(lia)) as Hd2.
  set (d1 := Zdigits2 (Z.pos a)) in *. set (d2 := Zdigits2 (Z.pos b)) in *.
  replace (d1 + 0 - (d2 + 0)) with (d1 - d2) by lia. change (0 - 0) with 0.
  set (e' := Z.min (fexp prec emax (d1 - d2)) 0).
  assert (He' : e' ≤ 0) by lia.
  assert (Hemin : emin ≤ e').
  { pose proof (fexp_ge_emin (d1 - d2)). unfold SpecFloat.emin, prec, emax in *. lia. }
  set (m' := match 0 - e' with
             | 0 => Z.pos a
             | Z.pos _ => Z.shiftl (Z.pos a) (0 - e')
             | Z.neg _ => 0
             end).
  assert (Hm' : m' = Z.pos a * 2 ^ (- e')).
  { unfold m'. destruct (0 - e') as [|k|k] eqn:Hk.
    - replace (- e') with 0 by lia. lia.
    - rewrite Z.shiftl_mul_pow2 by lia. f_equal. f_equal. lia.
    - lia. }
  assert (Hp : 0 < 2 ^ (- e')) by (apply Z.pow_pos_nonneg; lia).
  assert (Hdiv : Z.div_eucl m' (Z.pos b) = (m' / Z.pos b, m' mod Z.pos b)).
  { unfold Z.div, Z.modulo. by destruct (Z.div_eucl m' (Z.pos b)). }
  rewrite Hdiv, Hm'. exists e'.
  split; [done|]. split; [done|].
  set (q := Z.pos a * 2 ^ (- e') / Z.pos b).
  destruct (Z.eq_dec e' emin) as [->|Hne]; [apply fexp_ge_emin|].
  (* the quotient has all the digits that the format keeps *)
  assert (Hn : 0 ≤ d1 - 1 - e' - d2).
  { unfold e', fexp, SpecFloat.emin, prec, emax in *. lia. }
  assert (Hql : 2 ^ (d1 - 1 - e' - d2) ≤ q).
  { unfold q. apply Z.div_le_lower_bound; [lia|].
    apply Z.le_trans with (2 ^ d2 * 2 ^ (d1 - 1 - e' - d2)).
    - apply Z.mul_le_mono_nonneg_r; [apply Z.pow_nonneg|]; lia.
    - rewrite <- Z.pow_add_r by lia.
      replace (d2 + (d1 - 1 - e' - d2)) with ((d1 - 1) + - e') by lia.
      rewrite Z.pow_add_r by lia. apply Z.mul_le_mono_nonneg_r; lia. }
  pose proof (Zdigits2_ge_pow2 q _ Hn Hql).
  pose proof (fexp_mono (d1 - d2) (Zdigits2 q + e') ltac:(lia)). lia.
Qed.

(** How [SFdiv] divides two integers, given as mantissas that are not in
    normal form: it rounds the integer quotient of the dividend, scaled by a
    power of two that leaves all the digits that the format keeps. *)
Lemma SFdiv_int_core sa sb (a b : positive) :
  ∃ q e' l,
    SFdiv prec emax (S754_finite sa a 0) (S754_finite sb b 0)
    = binary_round_aux prec emax (xorb sa sb) q e' l ∧
    emin ≤ e' ≤ 0 ∧ q = Z.pos a * 2 ^ (- e') / Z.pos b ∧
    e' ≤ fexp prec emax (Zdigits2 q + e').
Proof.
  destruct (SFdiv_int_core_loc sa sb a b) as (e' & H & He' & Hfine).
  by eexists _, e', _.
Qed.

(** The quotient of two integers is a zero, a double or an infinity. *)
Lemma SFdiv_int_valid_binary sa sb (a b : positive) :
  valid_binary (SFdiv prec emax (S754_finite sa a 0) (S754_finite sb b 0)) = true.
Proof.
  destruct (SFdiv_int_core sa sb a b) as (q & e' & l & -> & He' & Hq & Hfine).
  assert (Hq0 : 0 ≤ q).
  { rewrite Hq. apply Z.div_pos; [|lia].
    apply Z.mul_nonneg_nonneg; [lia|apply Z.pow_nonneg; lia]. }
  destruct (binary_round_aux_valid (xorb sa sb) q e' l Hq0 Hfine)
    as [->|[[-> _]|(m2 & e2 & -> & Hv)]]; done.
Qed.

(** It is a double when it is below [2^1023]. *)
Lemma SFdiv_int_valid sa sb (a b : positive) :
  Z.pos a < 2 ^ 1023 * Z.pos b →
  SFdiv prec emax (S754_finite sa a 0) (S754_finite sb b 0) = S754_zero (xorb sa sb) ∨
  ∃ m e,
    SFdiv prec emax (S754_finite sa a 0) (S754_finite sb b 0)
    = S754_finite (xorb sa sb) m e ∧
    valid_binary (S754_finite (xorb sa sb) m e) = true.
Proof.
  intros Hlt.
  destruct (SFdiv_int_core sa sb a b) as (q & e' & l & -> & He' & Hq & Hfine).
  assert (Hp : 0 < 2 ^ (- e')) by (apply Z.pow_pos_nonneg; lia).
  assert (Hq0 : 0 ≤ q).
  { rewrite Hq. apply Z.div_pos; [|lia]. apply Z.mul_nonneg_nonneg; lia. }
  assert (Hqu : q < 2 ^ (1023 - e')).
  { rewrite Hq. apply Z.div_lt_upper_bound; [lia|].
    replace (1023 - e') with (1023 + - e') by lia. rewrite Z.pow_add_r by lia. nia. }
  assert (Hdq : Zdigits2 q + e' ≤ emax - 1).
  { pose proof (Zdigits2_lt_pow2 q (1023 - e') Hq0 ltac:(lia) Hqu).
    unfold emax. lia. }
  destruct (binary_round_aux_valid (xorb sa sb) q e' l Hq0 Hfine)
    as [->|[[_ Hbig]|(m2 & e2 & -> & Hv)]]; [by left|lia|right; by exists m2, e2].
Qed.

(** [a / b] on ints returns a finite float when the quotient is below
    [2^1023]. *)
Lemma int_truediv_finite a b :
  b ≠ 0 → Z.abs a < 2 ^ 1023 * Z.abs b →
  ∃ q, int_truediv a b = Ok q ∧ is_finite q = true.
Proof.
  intros Hb Hlt. unfold int_truediv.
  destruct b as [|pb|pb]; [done| |]; (destruct a as [|pa|pa]; [by eexists|..]); cbv zeta;
    cbn [Z.abs Z.to_pos] in *;
    match goal with
    | |- context [SFdiv prec emax (S754_finite ?sa ?a 0) (S754_finite ?sb ?b 0)] =>
        destruct (SFdiv_int_valid sa sb a b Hlt) as [->|(m & e & -> & Hv)]
    end;
    unfold is_inf; rewrite ?Prim2SF_SF2Prim by done;
    (eexists; split; [reflexivity|]);
    rewrite is_finite_spec, Prim2SF_SF2Prim by done; reflexivity.
Qed.

Lemma int_truediv_Ok a b :
  b ≠ 0 → Z.abs a < 2 ^ 1023 * Z.abs b → ∃ q, int_truediv a b = Ok q.
Proof. intros Hb Hlt. destruct (int_truediv_finite a b Hb Hlt) as (q & Hq & _). by exists q. Qed.

(** Rounding a value of at least [2^emax] overflows. *)
Lemma binary_round_aux_overflow s m e l :
  0 < m → e ≤ fexp prec emax (Zdigits2 m + e) → emax < Zdigits2 m + e →
  binary_round_aux prec emax s m e l = S754_infinity s.
Proof.
  intros Hm Hfine Hbig. unfold binary_round_aux.
  destruct (shr_fexp_spec m e l ltac:(lia)) as [He1 Hm1].
  destruct (shr_fexp prec emax m e l) as [mrs1 e1]. cbn [fst snd] in He1, Hm1.
  rewrite Z.max_r in He1, Hm1 by done. rewrite <- He1 in Hm1.
  assert (He1' : e1 = Zdigits2 m + e - 53).
  { unfold fexp, SpecFloat.emin, prec, emax in *. lia. }
  assert (Hp1 : 0 < 2 ^ (e1 - e)) by (apply Z.pow_pos_nonneg; lia).
  pose proof (Zdigits2_bounds m Hm) as [Hl Hu].
  assert (Hm1l : 2 ^ 52 ≤ shr_m mrs1).
  { rewrite Hm1. apply Z.div_le_lower_bound; [done|].
    rewrite <- Z.pow_add_r by lia.
    by replace (e1 - e + 52) with (Zdigits2 m - 1) by lia. }
  pose proof (round_nearest_even_ge (shr_m mrs1) (loc_of_shr_record mrs1)) as Hr1.
  set (r := round_nearest_even (shr_m mrs1) (loc_of_shr_record mrs1)) in *.
  assert (Hr0 : 0 ≤ r) by lia.
  pose proof (Zdigits2_ge_pow2 r 52 ltac:(lia) ltac:(lia)) as Hdr.
  destruct (shr_fexp_spec r e1 loc_Exact Hr0) as [He2 Hm2].
  destruct (shr_fexp prec emax r e1 loc_Exact) as [mrs2 e2]. cbn [fst snd] in He2, Hm2.
  cbv zeta in He2, Hm2. rewrite <- He2 in Hm2.
  assert (He2' : e2 = Zdigits2 r + e1 - 53).
  { unfold fexp, SpecFloat.emin, prec, emax in *. lia. }
  assert (Hp2 : 0 < 2 ^ (e2 - e1)) by (apply Z.pow_pos_nonneg; lia).
  assert (Hm2l : 2 ^ 52 ≤ shr_m mrs2).
  { rewrite Hm2. apply Z.div_le_lower_bound; [done|].
    rewrite <- Z.pow_add_r by lia.
    replace (e2 - e1 + 52) with (Zdigits2 r - 1) by lia.
    apply Zdigits2_bounds. lia. }
  destruct (shr_m mrs2) as [|p|p]; [lia| |lia].
  assert (Hb : (e2 <=? emax - prec) = false).
  { apply Z.leb_gt. unfold prec, emax in *. lia. }
  by rewrite Hb.
Qed.

Lemma SFdiv_int_overflow sa sb (a b : positive) :
  2 ^ 1024 * Z.pos b ≤ Z.pos a →
  SFdiv prec emax (S754_finite sa a 0) (S754_finite sb b 0) = S754_infinity (xorb sa sb).
Proof.
  intros Hge. unfold SFdiv, SFdiv_core_binary.
  change IntDef.Z.min with Z.min. change IntDef.Z.shiftl with Z.shiftl.
  change IntDef.Z.div_eucl with Z.div_eucl.
  pose proof (Zdigits2_bounds (Z.pos a) ltac:(lia)) as [Hal Hau].
  pose proof (Zdigits2_bounds (Z.pos b) ltac:(lia)) as [Hbl Hbu].
  pose proof (Zdigits2_ge_pow2 (Z.pos b) 0 ltac:(lia) ltac:(lia)) as Hd2.
  set (d1 := Zdigits2 (Z.pos a)) in *. set (d2 := Zdigits2 (Z.pos b)) in *.
  assert (Hd : d2 + 1024 ≤ d1).
  { destruct (Z.le_gt_cases (d2 + 1024) d1) as [|Hlt]; [done|]. exfalso.
    assert (2 ^ (d2 - 1 + 1024) ≤ 2 ^ 1024 * Z.pos b).
    { rewrite Z.pow_add_r by lia. nia. }
    pose proof (pow2_le d1 (d2 - 1 + 1024) ltac:(lia)). lia. }
  replace (d1 + 0 - (d2 + 0)) with (d1 - d2) by lia. change (0 - 0) with 0.
  assert (He' : Z.min (fexp prec emax (d1 - d2)) 0 = 0).
  { unfold fexp, SpecFloat.emin, prec, emax. lia. }
  rewrite He'. change (0 - 0) with 0. cbv iota.
  assert (Hdiv : fst (Z.div_eucl (Z.pos a) (Z.pos b)) = Z.pos a / Z.pos b) by reflexivity.
  destruct (Z.div_eucl (Z.pos a) (Z.pos b)) as [q r]. cbn [fst] in Hdiv.
  assert (Hq : 2 ^ 1024 ≤ q) by (rewrite Hdiv; apply Z.div_le_lower_bound; lia).
  pose proof (Zdigits2_ge_pow2 q 1024 ltac:(lia) Hq) as Hdq.
  apply binary_round_aux_overflow.
  - assert (0 < 2 ^ 1024) by (apply Z.pow_pos_nonneg; lia). lia.
  - unfold fexp, SpecFloat.emin, prec, emax. lia.
  - unfold emax. lia.
Qed.

(** *** Bits that a shift drops *)

Lemma shr_1_exact mrs :
  0 ≤ shr_m mrs → shr_r mrs = false → shr_s mrs = false → shr_m mrs mod 2 = 0 →
  shr_r (shr_1 mrs) = false ∧ shr_s (shr_1 mrs) = false.
Proof.
  destruct mrs as [[|[p|p|]|p] r s]; cbn [shr_1 shr_m shr_r shr_s];
    intros Hm -> -> Hmod; try done; try lia.
  - rewrite Pos2Z.inj_xI in Hmod. rewrite Z.add_comm, Z.mul_comm, Z.mod_add in Hmod by lia.
    discriminate.
Qed.

Lemma mod_pow2_split m a b :
  0 ≤ a → 0 ≤ b → m mod 2 ^ (a + b) = 0 → m mod 2 ^ a = 0 ∧ (m / 2 ^ a) mod 2 ^ b = 0.
Proof.
  intros Ha Hb H.
  assert (Hpa : 0 < 2 ^ a) by (apply Z.pow_pos_nonneg; lia).
  assert (Hpb : 0 < 2 ^ b) by (apply Z.pow_pos_nonneg; lia).
  rewrite Z.pow_add_r, Z.rem_mul_r in H by lia.
  pose proof (Z.mod_pos_bound m (2 ^ a) Hpa).
  pose proof (Z.mod_pos_bound (m / 2 ^ a) (2 ^ b) Hpb). nia.
Qed.

(** When the bits that [n] shifts drop are all zero, the record says so. *)
Lemma iter_pos_shr_1_exact n mrs :
  0 ≤ shr_m mrs → shr_r mrs = false → shr_s mrs = false →
  shr_m mrs mod 2 ^ Z.pos n = 0 →
  shr_r (SpecFloat.iter_pos shr_1 n mrs) = false ∧
  shr_s (SpecFloat.iter_pos shr_1 n mrs) = false.
Proof.
  revert mrs. induction n as [n IH|n IH|]; intros mrs Hm Hr Hs Hmod;
    cbn [SpecFloat.iter_pos].
  - rewrite (Pos2Z.inj_xI n) in Hmod.
    replace (2 * Z.pos n + 1) with (1 + (Z.pos n + Z.pos n)) in Hmod by lia.
    apply mod_pow2_split in Hmod as [H1 H2]; [|lia|lia]. change (2 ^ 1) with 2 in *.
    destruct (shr_1_exact mrs Hm Hr Hs H1) as [Hr1 Hs1].
    assert (Hm1 : 0 ≤ shr_m (shr_1 mrs)) by (rewrite shr_1_m by done; apply Z.div_pos; lia).
    rewrite <- shr_1_m in H2 by done.
    apply mod_pow2_split in H2 as [H2 H3]; [|lia|lia].
    destruct (IH (shr_1 mrs) Hm1 Hr1 Hs1 H2) as [Hr2 Hs2].
    assert (Hp : 0 < 2 ^ Z.pos n) by (apply Z.pow_pos_nonneg; lia).
    apply IH; [|done|done|].
    + rewrite iter_pos_shr_1_m by done. apply Z.div_pos; lia.
    + by rewrite iter_pos_shr_1_m.
  - rewrite (Pos2Z.inj_xO n) in Hmod.
    replace (2 * Z.pos n) with (Z.pos n + Z.pos n) in Hmod by lia.
    apply mod_pow2_split in Hmod as [H2 H3]; [|lia|lia].
    destruct (IH mrs Hm Hr Hs H2) as [Hr2 Hs2].
    assert (Hp : 0 < 2 ^ Z.pos n) by (apply Z.pow_pos_nonneg; lia).
    apply IH; [|done|done|].
    + rewrite iter_pos_shr_1_m by done. apply Z.div_pos; lia.
    + by rewrite iter_pos_shr_1_m.
  - by apply shr_1_exact.
Qed.

(** Cutting an exact mantissa down to the grid of the doubles: the result is
    exact when no bit is lost. *)
Lemma shr_fexp_exact m e :
  0 ≤ m →
  let e' := Z.max e (fexp prec emax (Zdigits2 m + e)) in
  m mod 2 ^ (e' - e) = 0 →
  loc_of_shr_record (fst (shr_fexp prec emax m e loc_Exact)) = loc_Exact.
Proof.
  intros Hm e' Hmod. unfold shr_fexp, shr. subst e'.
  destruct (fexp prec emax (Zdigits2 m + e) - e) as [|n|n] eqn:Hn; cbn [fst]; try done.
  rewrite Z.max_r in Hmod by lia.
  replace (fexp prec emax (Zdigits2 m + e) - e) with (Z.pos n) in Hmod.
  destruct (iter_pos_shr_1_exact n (shr_record_of_loc m loc_Exact)) as [Hr Hs]; try done.
  destruct (SpecFloat.iter_pos shr_1 n _) as [m' r s]. cbn in Hr, Hs. by subst.
Qed.

(** *** Rounding does not cross a double from below *)

Lemma Zdigits2_le_scaled m (mx : positive) k :
  0 < m → 0 ≤ k → m ≤ Z.pos mx * 2 ^ k → Zdigits2 m ≤ Z.pos (digits2_pos mx) + k.
Proof.
  intros Hm Hk Hle. pose proof (digits2_pos_bounds mx) as [_ Hu].
  assert (Hp : 0 < 2 ^ k) by (apply Z.pow_pos_nonneg; lia).
  apply Zdigits2_lt_pow2; [lia|lia|]. rewrite Z.pow_add_r by lia. nia.
Qed.

(** [x] is a double and [v <= x] an exact value on a grid that is fine enough:
    rounding [v] gives a zero or a double that is at most [x]. *)
Lemma binary_round_aux_le (mx : positive) (ex : Z) m e :
  canonical mx ex → ex ≤ emax - prec →
  0 ≤ m → e ≤ fexp prec emax (Zdigits2 m + e) → e ≤ ex →
  m ≤ Z.pos mx * 2 ^ (ex - e) →
  binary_round_aux prec emax false m e loc_Exact = S754_zero false ∨
  ∃ m' e', binary_round_aux prec emax false m e loc_Exact = S754_finite false m' e' ∧
           e' ≤ ex ∧ Z.pos m' ≤ Z.pos mx * 2 ^ (ex - e').
Proof.
  intros Hc Hb Hm Hfine He Hle. unfold binary_round_aux.
  pose proof (canonical_emin _ _ Hc) as Hemin. unfold canonical in Hc.
  pose proof (shr_fexp_exact m e Hm) as Hexact.
  destruct (shr_fexp_spec m e loc_Exact Hm) as [He1 Hm1].
  destruct (shr_fexp prec emax m e loc_Exact) as [mrs1 e1].
  cbn [fst snd] in He1, Hm1, Hexact. cbv zeta in Hexact.
  rewrite Z.max_r in He1, Hm1, Hexact by done. rewrite <- He1 in Hm1, Hexact.
  assert (He1x : e1 ≤ ex).
  { destruct (Z.eq_dec m 0) as [->|Hne].
    - cbn [Zdigits2] in He1. unfold fexp, SpecFloat.emin, prec, emax in *. lia.
    - pose proof (Zdigits2_le_scaled m mx (ex - e) ltac:(lia) ltac:(lia) Hle).
      pose proof (fexp_mono (Zdigits2 m + e) (Z.pos (digits2_pos mx) + ex) ltac:(lia)).
      lia. }
  assert (Hp1 : 0 < 2 ^ (e1 - e)) by (apply Z.pow_pos_nonneg; lia).
  assert (Hpx : 0 < 2 ^ (ex - e1)) by (apply Z.pow_pos_nonneg; lia).
  assert (Hsplit : Z.pos mx * 2 ^ (ex - e) = 2 ^ (e1 - e) * (Z.pos mx * 2 ^ (ex - e1))).
  { replace (ex - e) with ((e1 - e) + (ex - e1)) by lia. rewrite Z.pow_add_r by lia. ring. }
  set (Mx := Z.pos mx * 2 ^ (ex - e1)) in *.
  assert (Hm1' : 0 ≤ shr_m mrs1) by (rewrite Hm1; apply Z.div_pos; lia).
  assert (Hm1x : shr_m mrs1 ≤ Mx).
  { rewrite Hm1. apply Z.div_le_upper_bound; [done|]. lia. }
  pose proof (round_nearest_even_ge (shr_m mrs1) (loc_of_shr_record mrs1)) as Hr1.
  pose proof (round_nearest_even_le (shr_m mrs1) (loc_of_shr_record mrs1)) as Hr2.
  assert (Hrx : round_nearest_even (shr_m mrs1) (loc_of_shr_record mrs1) ≤ Mx).
  { destruct (Z.eq_dec (shr_m mrs1) Mx) as [Heq|Hne]; [|lia].
    (* the value is the double itself: nothing is rounded *)
    assert (Hmm : m = 2 ^ (e1 - e) * Mx).
    { pose proof (Z.mul_div_le m (2 ^ (e1 - e)) Hp1). rewrite <- Hm1, Heq in H. lia. }
    rewrite Hexact; [cbn; lia|]. rewrite Hmm, Z.mul_comm. apply Z.mod_mul. lia. }
  set (r := round_nearest_even (shr_m mrs1) (loc_of_shr_record mrs1)) in *.
  assert (Hr0 : 0 ≤ r) by lia.
  destruct (shr_fexp_spec r e1 loc_Exact Hr0) as [He2 Hm2].
  destruct (shr_fexp prec emax r e1 loc_Exact) as [mrs2 e2]. cbn [fst snd] in He2, Hm2.
  cbv zeta in He2, Hm2. rewrite <- He2 in Hm2.
  assert (He2x : e2 ≤ ex).
  { destruct (Z.eq_dec r 0) as [Hr|Hne].
    - rewrite Hr in He2. cbn [Zdigits2] in He2.
      unfold fexp, SpecFloat.emin, prec, emax in *. lia.
    - pose proof (Zdigits2_le_scaled r mx (ex - e1) ltac:(lia) ltac:(lia) Hrx).
      pose proof (fexp_mono (Zdigits2 r + e1) (Z.pos (digits2_pos mx) + ex) ltac:(lia)).
      lia. }
  assert (Hp2 : 0 < 2 ^ (e2 - e1)) by (apply Z.pow_pos_nonneg; lia).
  assert (Hm2x : shr_m mrs2 ≤ Z.pos mx * 2 ^ (ex - e2)).
  { rewrite Hm2. apply Z.div_le_upper_bound; [done|].
    replace (2 ^ (e2 - e1) * (Z.pos mx * 2 ^ (ex - e2))) with Mx; [done|].
    unfold Mx. replace (ex - e1) with ((e2 - e1) + (ex - e2)) by lia.
    rewrite Z.pow_add_r by lia. ring. }
  destruct (shr_m mrs2) as [|p|p] eqn:Hp; [by left| |].
  2: { exfalso. pose proof (Z.div_pos r (2 ^ (e2 - e1)) Hr0 Hp2). lia. }
  right. assert (Hle2 : (e2 <=? emax - prec) = true) by (apply Z.leb_le; lia).
  rewrite Hle2. by exists p, e2.
Qed.

(** The order of two doubles that are not negative, read on their mantissas. *)
Lemma canonical_leb_inv m1 e1 m2 e2 :
  canonical m1 e1 → canonical m2 e2 →
  SFleb (S754_finite false m1 e1) (S754_finite false m2 e2) = true →
  e1 ≤ e2 ∧ Z.pos m1 ≤ Z.pos m2 * 2 ^ (e2 - e1).
Proof.
  intros H1 H2. unfold SFleb, SFcompare.
  pose proof (digits2_pos_bounds m1) as [Hl1 Hu1].
  pose proof (digits2_pos_bounds m2) as [Hl2 Hu2].
  destruct (Z.compare_spec e1 e2) as [->|Hlt|Hgt]; [| |done].
  - change (PosDef.Pos.compare_cont Eq m1 m2) with (m1 ?= m2)%positive.
    rewrite Z.sub_diag. destruct (Pos.compare_spec m1 m2) as [Hc|Hc|Hc]; intros Hcmp; try done; lia.
  - intros _. split; [lia|]. unfold canonical in H1, H2.
    set (d1 := Z.pos (digits2_pos m1)) in *. set (d2 := Z.pos (digits2_pos m2)) in *.
    assert (Hd : d1 + e1 < d2 + e2).
    { destruct (Z.le_gt_cases (d2 + e2) (d1 + e1)) as [Hle|]; [|done].
      apply fexp_mono in Hle. lia. }
    apply Z.le_trans with (2 ^ d1); [lia|].
    apply Z.le_trans with (2 ^ (d2 - 1) * 2 ^ (e2 - e1)).
    + rewrite <- Z.pow_add_r by (unfold d2; lia). apply pow2_le. lia.
    + apply Z.mul_le_mono_nonneg_r; [apply Z.pow_nonneg|]; lia.
Qed.

Lemma canonical_bounded s m e :
  valid_binary (S754_finite s m e) = true → e ≤ emax - prec.
Proof.
  cbn. unfold bounded. intros H. apply andb_prop in H as [_ H]. by apply Z.leb_le in H.
Qed.

(** The bound of [binary_round_aux_le], as a comparison of doubles. *)
Lemma round_le_leb (mx : positive) (ex : Z) r :
  canonical mx ex → valid_binary r = true →
  r = S754_zero false ∨
  (∃ m' e', r = S754_finite false m' e' ∧ e' ≤ ex ∧ Z.pos m' ≤ Z.pos mx * 2 ^ (ex - e')) →
  SFleb r (S754_finite false mx ex) = true.
Proof.
  intros Hc Hv [->|(m' & e' & -> & He & Hle)]; [done|].
  apply valid_canonical in Hv. pose proof (canonical_emin _ _ Hv) as Hemin.
  apply canonical_leb; [done|done|]. unfold Zval.
  replace (ex - emin) with ((ex - e') + (e' - emin)) by lia.
  rewrite Z.pow_add_r, Z.mul_assoc by lia.
  apply Z.mul_le_mono_nonneg_r; [apply Z.pow_nonneg; lia|done].
Qed.

(** *** A fraction of a float, and what is left of it *)

(** Multiplying a float that is finite and not negative by a factor between 0
    and 1 does not increase it. *)
Lemma float_mul_le (x q : float) :
  (0 <=? x)%float = true → is_finite x = true →
  (0 <=? q)%float = true → (q <=? 1)%float = true →
  (x * q <=? x)%float = true.
Proof.
  rewrite is_finite_spec, !leb_spec, mul_spec.
  pose proof (Prim2SF_valid x) as Hvx. pose proof (Prim2SF_valid q) as Hvq.
  pose proof (Prim2SF_valid (x * q)) as Hvr. rewrite mul_spec in Hvr.
  change (Prim2SF 0) with (S754_zero false).
  change (Prim2SF 1) with (S754_finite false 4503599627370496 (-52)).
  destruct (Prim2SF x) as [sx|sx| |sx mx ex], (Prim2SF q) as [sq|sq| |sq mq eq];
    try destruct sx; try destruct sq; try discriminate; intros _ _ _ Hq1;
    try reflexivity.
  unfold SF64mul in *. cbn [SFmul xorb] in *.
  pose proof (valid_canonical _ _ _ Hvx) as Hcx.
  pose proof (valid_canonical _ _ _ Hvq) as Hcq.
  destruct (canonical_leb_inv mq eq 4503599627370496 (-52) Hcq eq_refl Hq1) as [Heq Hmq].
  pose proof (canonical_bounded _ _ _ Hvx) as Hbx.
  pose proof (digits2_pos_bounds mx) as [Hlx Hux].
  pose proof (digits2_pos_bounds mq) as [Hlq Huq].
  assert (Hmq' : Z.pos mq ≤ 2 ^ (- eq)).
  { change 4503599627370496 with (2 ^ 52) in Hmq. rewrite <- Z.pow_add_r in Hmq by lia.
    by replace (52 + (-52 - eq)) with (- eq) in Hmq by lia. }
  apply round_le_leb; [done|done|].
  rewrite Pos2Z.inj_mul. apply binary_round_aux_le; [done|done|lia| |lia|].
  - (* the product of two doubles is on a grid finer than the doubles *)
    assert (Hd : Z.pos (digits2_pos mx) + Z.pos (digits2_pos mq) - 1
                 ≤ Zdigits2 (Z.pos mx * Z.pos mq)).
    { pose proof (Zdigits2_ge_pow2 (Z.pos mx * Z.pos mq)
                    (Z.pos (digits2_pos mx) - 1 + (Z.pos (digits2_pos mq) - 1))
                    ltac:(lia)) as H.
      rewrite Z.pow_add_r in H by lia.
      specialize (H ltac:(apply Z.mul_le_mono_nonneg; lia)). lia. }
    unfold canonical in Hcx, Hcq.
    pose proof (fexp_mono _ _ (proj1 (Z.add_le_mono_r _ _ (ex + eq)) Hd)) as Hf.
    unfold fexp, SpecFloat.emin, prec, emax in *. lia.
  - replace (ex - (ex + eq)) with (- eq) by lia.
    apply Z.mul_le_mono_nonneg_l; lia.
Qed.

(** Taking from a float that is finite and not negative a part of it leaves a
    float between 0 and it. *)
Lemma float_sub_le (x d : float) :
  (0 <=? x)%float = true → is_finite x = true →
  (0 <=? d)%float = true → (d <=? x)%float = true →
  (0 <=? x - d)%float = true ∧ (x - d <=? x)%float = true.
Proof.
  rewrite is_finite_spec, !leb_spec, sub_spec.
  pose proof (Prim2SF_valid x) as Hvx. pose proof (Prim2SF_valid d) as Hvd.
  pose proof (Prim2SF_valid (x - d)) as Hvr. rewrite sub_spec in Hvr.
  change (Prim2SF 0) with (S754_zero false).
  destruct (Prim2SF x) as [sx|sx| |sx mx ex], (Prim2SF d) as [sd|sd| |sd md ed];
    try destruct sx; try destruct sd; try discriminate; intros _ _ _ Hdx;
    try (split; reflexivity).
  - split; [reflexivity|apply SFleb_refl_finite].
  - split; [reflexivity|apply SFleb_refl_finite].
  - pose proof (valid_canonical _ _ _ Hvx) as Hcx.
    pose proof (valid_canonical _ _ _ Hvd) as Hcd.
    destruct (canonical_leb_inv md ed mx ex Hcd Hcx Hdx) as [Hed Hmd].
    pose proof (canonical_bounded _ _ _ Hvx) as Hbx.
    pose proof (canonical_emin _ _ Hcd) as Hemin.
    unfold SF64sub, SFsub in *. cbv zeta in *. cbn [cond_Zopp] in *.
    change IntDef.Z.min with Z.min in *. rewrite (Z.min_r ex ed) in * by done.
    destruct (shl_align_spec mx ex ed Hed) as [Hsx _].
    destruct (shl_align_spec md ed ed ltac:(lia)) as [Hsd _].
    rewrite Z.sub_diag, Z.mul_1_r in Hsd. rewrite Hsx, Hsd in *.
    destruct (Z.pos mx * 2 ^ (ex - ed) - Z.pos md) as [|p|p] eqn:Hdiff; [done| |lia].
    cbn [binary_normalize] in *. unfold binary_round in *.
    set (t := fexp prec emax (Z.pos (digits2_pos p) + ed)) in *.
    assert (Hal : ∃ mz ez, shl_align p ed t = (mz, ez) ∧ ez ≤ ed ∧
                           Z.pos mz = Z.pos p * 2 ^ (ed - ez) ∧
                           ez ≤ fexp prec emax (Zdigits2 (Z.pos mz) + ez)).
    { destruct (Z.le_gt_cases t ed) as [Hle|Hgt].
      - destruct (shl_align_spec p ed t Hle) as [Hmz Hez].
        destruct (shl_align p ed t) as [mz ez]. cbn [fst snd] in Hmz, Hez.
        exists mz, ez. split; [done|]. split; [lia|]. split; [by rewrite Hez|].
        rewrite Hmz, Zdigits2_mul_pow2, Hez by lia.
        change (Zdigits2 (Z.pos p)) with (Z.pos (digits2_pos p)).
        replace (Z.pos (digits2_pos p) + (ed - t) + t)
          with (Z.pos (digits2_pos p) + ed) by lia.
        change (t ≤ t). lia.
      - exists p, ed. split; [|split; [lia|split]].
        + unfold shl_align. destruct (t - ed) eqn:H; try done. lia.
        + rewrite Z.sub_diag. lia.
        + change (Zdigits2 (Z.pos p)) with (Z.pos (digits2_pos p)). fold t. lia. }
    destruct Hal as (mz & ez & Hal & Hez & Hmz & Hfine). rewrite Hal in *.
    split; [apply binary_round_aux_nonneg; lia|].
    apply round_le_leb; [done|done|].
    apply binary_round_aux_le; [done|done|lia|done|lia|].
    rewrite Hmz. replace (ex - ez) with ((ex - ed) + (ed - ez)) by lia.
    rewrite Z.pow_add_r, Z.mul_assoc by lia.
    apply Z.mul_le_mono_nonneg_r; [apply Z.pow_nonneg|]; lia.
Qed.

(** *** The quotient of two positive ints *)

Lemma int_truediv_pos (a b : positive) q :
  int_truediv (Z.pos a) (Z.pos b) = Ok q →
  Prim2SF q = SFdiv prec emax (S754_finite false a 0) (S754_finite false b 0) ∧
  ∀ s, Prim2SF q ≠ S754_infinity s.
Proof.
  unfold int_truediv. cbv zeta.
  change (Z.to_pos (Z.abs (Z.pos a))) with a. change (Z.to_pos (Z.abs (Z.pos b))) with b.
  change (Zsign_bit (Z.pos a)) with false. change (Zsign_bit (Z.pos b)) with false.
  pose proof (SFdiv_int_valid_binary false false a b) as Hv.
  unfold is_inf. rewrite (Prim2SF_SF2Prim _ Hv).
  set (r := SFdiv prec emax _ _) in *. intros H.
  assert (Hq : q = SF2Prim r ∧ ∀ s, r ≠ S754_infinity s).
  { destruct r; cbv beta iota in H; first [discriminate H | (split; [congruence | done])]. }
  destruct Hq as [-> Hi]. by rewrite Prim2SF_SF2Prim.
Qed.

Lemma int_truediv_nonneg (a b : positive) q :
  int_truediv (Z.pos a) (Z.pos b) = Ok q → (0 <=? q)%float = true.
Proof.
  intros [Hq _]%int_truediv_pos. rewrite leb_spec, Hq.
  destruct (SFdiv_int_core false false a b) as (qi & e' & l & -> & He' & Hqi & _).
  apply binary_round_aux_nonneg. rewrite Hqi. apply Z.div_pos; [|lia].
  apply Z.mul_nonneg_nonneg; [lia|apply Z.pow_nonneg; lia].
Qed.

(** A quotient of at least 1 rounds to a float of at least 1. *)
Lemma int_truediv_ge_1 (a b : positive) q :
  (b ≤ a)%positive → int_truediv (Z.pos a) (Z.pos b) = Ok q → (1 <=? q)%float = true.
Proof.
  intros Hba Hok. destruct (int_truediv_pos a b q Hok) as [Hq Hinf].
  pose proof (Prim2SF_valid q) as Hv. rewrite leb_spec.
  change (Prim2SF 1) with (S754_finite false 4503599627370496 (-52)).
  rewrite Hq in *.
  destruct (SFdiv_int_core false false a b) as (qi & e' & l & Hr & He' & Hqi & _).
  rewrite Hr in *. cbn [xorb] in *.
  assert (Hp : 0 < 2 ^ (- e')) by (apply Z.pow_pos_nonneg; lia).
  assert (Hge : 2 ^ (- e') ≤ qi).
  { rewrite Hqi. apply Z.div_le_lower_bound; [lia|]. nia. }
  destruct qi as [|p|p]; [lia| |lia].
  destruct (binary_round_aux_ge 4503599627370496 (-52) p e' l eq_refl (proj1 He'))
    as [Hi|(m' & e2 & Hf & Hle)].
  - unfold Zval. change 4503599627370496 with (2 ^ 52).
    rewrite <- Z.pow_add_r by (unfold SpecFloat.emin, prec, emax; lia).
    apply Z.le_trans with (2 ^ (- e') * 2 ^ (e' - emin)).
    + rewrite <- Z.pow_add_r by lia. apply pow2_le. lia.
    + apply Z.mul_le_mono_nonneg_r; [apply Z.pow_nonneg|]; lia.
  - by destruct (Hinf false).
  - rewrite Hf in *. apply canonical_leb; [done|by apply valid_canonical in Hv|done].
Qed.

(** [min(q, 1.0)] for a float that is not negative. *)
Lemma py_min_1 (q : float) :
  (0 <=? q)%float = true →
  (0 <=? py_min q 1)%float = true ∧ (py_min q 1 <=? 1)%float = true ∧
  ((1 <=? q)%float = true → (py_min q 1 =? 1)%float = true).
Proof.
  unfold py_min. destruct (1 <? q)%float eqn:Hlt; [by intros _|].
  revert Hlt. rewrite !leb_spec, ltb_spec, FloatAxioms.eqb_spec.
  change (Prim2SF 0) with (S754_zero false).
  change (Prim2SF 1) with (S754_finite false 4503599627370496 (-52)).
  generalize 4503599627370496%positive (-52). intros m1 e1.
  destruct (Prim2SF q) as [s|s| |s m e]; try destruct s; try discriminate; try done.
  unfold SFltb, SFleb, SFeqb, SFcompare.
  change (PosDef.Pos.compare_cont Eq m1 m) with (m1 ?= m)%positive.
  change (PosDef.Pos.compare_cont Eq m m1) with (m ?= m1)%positive.
  destruct (Z.compare_spec e1 e), (Z.compare_spec e e1); try lia; try done.
  destruct (Pos.compare_spec m1 m), (Pos.compare_spec m m1); try lia; try done.
Qed.

(** *** Division rounds to nearest *)
















(** ** Section 5: the three exceptions, and what is returned without one *)


(** * Further properties

    What the functions of the script do on arguments that the script does not
    pass to them, at the edges of their domains, and what the run as a whole
    does to the debugger and the console. *)

(** ** Section 3: the rates at their edges *)

(** X1: sales tax never lowers a price: for a price and a tax rate that are
    finite and not negative, [apply_tax] returns a total that is not below the
    price. *)
Theorem apply_tax_not_below_price (price tax_rate : float) :
  (0 <=? price)%float = true → is_finite price = true →
  (0 <=? tax_rate)%float = true → is_finite tax_rate = true →
  ∃ total, apply_tax price tax_rate = Ok total ∧
           (price <=? total)%float = true ∧ (0 <=? total)%float = true.
Proof.
  intros Hp Hpf Hr Hrf. eexists. split; [reflexivity|].
  apply float_add_nonneg; [done|]. apply float_mul_nonneg; auto.
Qed.

Lemma apply_tax_not_below_price_witness :
  ∃ total, apply_tax 212.5 0.09 = Ok total ∧
           (212.5 <=? total)%float = true ∧ (0 <=? total)%float = true.
Proof.
  exact (apply_tax_not_below_price 212.5 0.09 eq_refl eq_refl eq_refl eq_refl).
Defined.

(** X2: a discount of 0 percent and a tax rate of 0 leave a finite price as
    it is: [apply_discount price 0] and [apply_tax price 0.0] return a float
    equal to [price]. *)
Theorem zero_rates_are_neutral (price : float) :
  is_finite price = true →
  (∃ final, apply_discount price 0 = Ok final ∧ (final =? price)%float = true) ∧
  (∃ total, apply_tax price 0 = Ok total ∧ (total =? price)%float = true).
Proof.
  rewrite is_finite_spec. intros Hf. split.
  - exists (price - price * 0)%float. split; [reflexivity|].
    rewrite FloatAxioms.eqb_spec, sub_spec, mul_spec. change (Prim2SF 0) with (S754_zero false).
    destruct (Prim2SF price) as [s|s| |s m e]; try discriminate.
    + by destruct s.
    + cbn [SFmul SFsub]. apply SFeqb_refl_finite.
  - exists (price + price * 0)%float. split; [reflexivity|].
    rewrite FloatAxioms.eqb_spec, add_spec, mul_spec. change (Prim2SF 0) with (S754_zero false).
    destruct (Prim2SF price) as [s|s| |s m e]; try discriminate.
    + by destruct s.
    + cbn [SFmul SFadd]. apply SFeqb_refl_finite.
Qed.

Lemma zero_rates_are_neutral_witness :
  (∃ final, apply_discount 250 0 = Ok final ∧ (final =? 250)%float = true) ∧
  (∃ total, apply_tax 250 0 = Ok total ∧ (total =? 250)%float = true).
Proof. exact (zero_rates_are_neutral 250 eq_refl). Defined.

(** The fraction that a percentage from 0 to 100 stands for is a float
    between 0 and 1. *)
Lemma percent_fraction (pct : Z) :
  0 ≤ pct ≤ 100 →
  ∃ q, int_truediv pct 100 = Ok q ∧
       (0 <=? q)%float = true ∧ (q <=? 1)%float = true ∧ is_finite q = true.
Proof.
  intros Hp.
  assert (Hall : forallb (fun n => match int_truediv (Z.of_nat n) 100 with
                                   | Ok q => ((0 <=? q) && (q <=? 1))%float && is_finite q
                                   | Raise _ => false
                                   end) (seq 0 101) = true) by (by vm_compute).
  rewrite forallb_forall in Hall. specialize (Hall (Z.to_nat pct)).
  rewrite Z2Nat.id in Hall by lia.
  specialize (Hall ltac:(apply in_seq; lia)).
  destruct (int_truediv pct 100) as [q|e]; [|discriminate].
  exists q. split; [done|].
  apply andb_prop in Hall as [Hall H3]. by apply andb_prop in Hall as [H1 H2].
Qed.

(** X3: a discount between 0 and 100 percent of a price that is finite and
    not negative leaves a price between 0 and the price: [apply_discount]
    returns a float that is not negative and not above what it was given. *)
Theorem apply_discount_bounds (price : float) (discount_pct : Z) :
  (0 <=? price)%float = true → is_finite price = true → 0 ≤ discount_pct ≤ 100 →
  ∃ final, apply_discount price discount_pct = Ok final ∧
           (0 <=? final)%float = true ∧ (final <=? price)%float = true.
Proof.
  intros Hp Hpf Hpct. destruct (percent_fraction _ Hpct) as (q & Hq & Hq0 & Hq1 & Hqf).
  exists (price - price * q)%float. unfold apply_discount. rewrite Hq.
  split; [reflexivity|]. apply float_sub_le; [done|done| |].
  - apply float_mul_nonneg; auto.
  - by apply float_mul_le.
Qed.

Lemma apply_discount_bounds_witness :
  ∃ final, apply_discount 250 15 = Ok final ∧
           (0 <=? final)%float = true ∧ (final <=? 250)%float = true.
Proof. exact (apply_discount_bounds 250 15 eq_refl eq_refl ltac:(lia)). Defined.

(** ** Section 5: the range of the division, blanks and signs in a number *)

(** X4: the true division of two ints in [risky_division] returns a finite
    float whenever the divisor is not 0 and the quotient is below [2^1023] in
    absolute value, and raises [OverflowError] whenever the quotient is
    [2^1024] or more: the exception is the one of a quotient that no float
    holds, never of large operands as such. *)
Theorem risky_division_range (a b : Z) :
  b ≠ 0 →
  (Z.abs a < 2 ^ 1023 * Z.abs b →
   ∃ q, risky_division a b = Ok q ∧ is_finite q = true) ∧
  (2 ^ 1024 * Z.abs b ≤ Z.abs a → raises (risky_division a b) OverflowError).
Proof.
  intros Hb. split; [by apply int_truediv_finite|].
  unfold risky_division, int_truediv.
  - intros Hge.
    assert (H0 : 0 < 2 ^ 1024) by (apply Z.pow_pos_nonneg; lia).
    destruct b as [|pb|pb]; [done| |]; (destruct a as [|pa|pa]; [cbn in Hge; lia|..]);
      cbv zeta; cbn [Z.abs Z.to_pos] in *;
      rewrite SFdiv_int_overflow by done; by destruct (xorb _ _).
Qed.

Lemma risky_division_range_witness :
  (∃ q, risky_division 7 2 = Ok q ∧ is_finite q = true) ∧
  raises (risky_division (2 ^ 1025) 2) OverflowError.
Proof.
  split.
  - apply (risky_division_range 7 2); [discriminate|reflexivity].
  - apply (risky_division_range (2 ^ 1025) 2); [discriminate|by vm_compute].
Defined.

Lemma blank_cons c s :
  blank (String c s) ↔ c ∈ [" "; "009"; "010"; "011"; "012"; "013"]%char ∧ blank s.
Proof. unfold blank. cbn [list_ascii_of_string]. by rewrite Forall_cons. Qed.

Lemma blank_is_space c :
  c ∈ [" "; "009"; "010"; "011"; "012"; "013"]%char → is_space c = true.
Proof.
  intros H. repeat (apply elem_of_cons in H as [->|H]; [reflexivity|]).
  by apply elem_of_nil in H.
Qed.

Lemma append_String c s t : String c s +:+ t = String c (s +:+ t).
Proof. reflexivity. Qed.

Lemma append_Empty t : "" +:+ t = t.
Proof. reflexivity. Qed.

Lemma lstrip_blank s : blank s → lstrip s = "".
Proof.
  induction s as [|c s IH]; [done|]. intros [Hc Hs]%blank_cons.
  cbn [lstrip]. rewrite (blank_is_space c Hc). by apply IH.
Qed.

Lemma rstrip_blank s : blank s → rstrip s = "".
Proof.
  induction s as [|c s IH]; [done|]. intros [Hc Hs]%blank_cons.
  cbn [rstrip]. rewrite (IH Hs), (blank_is_space c Hc). done.
Qed.

Lemma lstrip_app_blank l s : blank l → lstrip (l +:+ s) = lstrip s.
Proof.
  induction l as [|c l IH]; [done|]. intros [Hc Hl]%blank_cons.
  rewrite append_String. cbn [lstrip]. rewrite (blank_is_space c Hc). by apply IH.
Qed.

Lemma rstrip_app_blank s r : blank r → rstrip (s +:+ r) = rstrip s.
Proof.
  intros Hr. induction s as [|c s IH].
  - by rewrite append_Empty, rstrip_blank.
  - rewrite append_String. cbn [rstrip]. by rewrite IH.
Qed.

Lemma lstrip_app s r : lstrip s ≠ "" → lstrip (s +:+ r) = lstrip s +:+ r.
Proof.
  induction s as [|c s IH]; [done|]. rewrite append_String. cbn [lstrip].
  destruct (is_space c); [exact IH|done].
Qed.

(** Blanks around a text do not change what is left of it. *)
Lemma strip_pad l s r : blank l → blank r → strip (l +:+ s +:+ r) = strip s.
Proof.
  intros Hl Hr. unfold strip. rewrite lstrip_app_blank by done.
  destruct (string_dec (lstrip s) "") as [He|Hne].
  - rewrite He. cbn [rstrip].
    assert (H : lstrip (s +:+ r) = "").
    { clear Hl. induction s as [|c s IH].
      - by apply lstrip_blank.
      - rewrite append_String. cbn [lstrip] in *.
        destruct (is_space c); [by apply IH|done]. }
    by rewrite H.
  - rewrite lstrip_app by done. by apply rstrip_app_blank.
Qed.

Lemma uint_of_char_not_digit c o : is_digit c = false → uint_of_char c o = None.
Proof.
  intros Hc. destruct (uint_of_char c o) as [d|] eqn:H; [|done].
  apply uint_of_char_Some in H as [H _]. congruence.
Qed.

Lemma digit_run_not_digit c t : is_digit c = false → digit_run (String c t) = None.
Proof.
  intros Hc. cbn [digit_run]. destruct t as [|u t']; [by apply uint_of_char_not_digit|].
  destruct (Ascii.eqb u "_"); by apply uint_of_char_not_digit.
Qed.

Lemma rstrip_head c t :
  rstrip (String c t) = "" ∨ ∃ t', rstrip (String c t) = String c t'.
Proof.
  cbn [rstrip]. destruct (rstrip t); [|right; by eexists].
  destruct (is_space c); [by left|right; by eexists].
Qed.

Lemma is_space_blank c :
  is_space c = true → c ∈ [" "; "009"; "010"; "011"; "012"; "013"]%char.
Proof.
  destruct c as [[] [] [] [] [] [] [] []]; try discriminate; intros _;
    repeat constructor.
Qed.

(** X5: [parse_number] ignores ASCII whitespace around its argument, and
    nothing else: padded with blanks an ASCII text parses to the same integer,
    or fails as it does without them; the text of an int of at most 4300
    digits, padded with blanks, parses to that int; a text of blanks only (the
    empty text too) raises [ValueError]; and so does an ASCII text that starts
    with a character that is no blank, no digit and no sign, as the
    separators 28 to 31 are. *)
Theorem parse_number_ignores_blanks (l r : string) :
  blank l → blank r →
  (∀ value n, ascii_text value →
     (parse_number (l +:+ value +:+ r) = Ok n ↔ parse_number value = Ok n)) ∧
  (∀ n, str_limit n → parse_number (l +:+ str_of_int n +:+ r) = Ok n) ∧
  raises (parse_number (l +:+ r)) ValueError ∧
  (∀ c value, ascii_text (String c value) → ¬ blank (String c "") →
     is_digit c = false → c ≠ "+"%char → c ≠ "-"%char →
     raises (parse_number (l +:+ String c value +:+ r)) ValueError).
Proof.
  intros Hl Hr.
  assert (H1 : ∀ value n,
             parse_number (l +:+ value +:+ r) = Ok n ↔ parse_number value = Ok n).
  { intros value n. unfold parse_number.
    split; apply int_of_str_strip; by rewrite strip_pad. }
  split; [intros value n _; apply H1|]. split; [|split].
  - intros n Hn. apply H1. by apply int_of_str_of_int.
  - unfold parse_number.
    destruct (int_of_str_outcome (l +:+ r)) as [(n & _ & Hlit)|Hraises]; [|done].
    replace (l +:+ r) with (l +:+ "" +:+ r) in Hlit by done.
    rewrite strip_pad in Hlit by done. done.
  - intros c value _ Hnb Hd Hp Hm. unfold parse_number.
    destruct (int_of_str_outcome (l +:+ String c value +:+ r)) as [(n & _ & Hlit)|Hraises];
      [exfalso|done].
    rewrite strip_pad in Hlit by done.
    assert (Hs : is_space c = false).
    { destruct (is_space c) eqn:Hs; [|done]. exfalso. apply Hnb.
      apply blank_cons. split; [by apply is_space_blank|constructor]. }
    unfold strip in Hlit. cbn [lstrip] in Hlit. rewrite Hs in Hlit.
    destruct (rstrip_head c value) as [He|[t' He]]; rewrite He in Hlit; [done|].
    unfold int_literal in Hlit. rewrite (digit_run_not_digit c t' Hd) in Hlit.
    destruct c as [[] [] [] [] [] [] [] []]; try done.
Qed.

Lemma parse_number_ignores_blanks_witness :
  parse_number ("  " +:+ str_of_int 42 +:+ String "010" "") = Ok 42.
Proof.
  assert (Hl : blank "  ") by (repeat constructor).
  assert (Hr : blank (String "010" "")) by (repeat constructor).
  assert (Hn : str_limit 42) by reflexivity.
  exact (proj1 (proj2 (parse_number_ignores_blanks "  " (String "010" "") Hl Hr)) 42 Hn).
Defined.

(** The text of an int that is not negative and has at most 4300 digits: its
    digits, which no stripping changes and which are within the limit. *)
Lemma str_of_int_digits n :
  0 ≤ n → str_limit n →
  ∃ d k, digit_run (str_of_int n) = Some d ∧ Z.of_uint d = n ∧
         scan_run true (str_of_int n) = Some k ∧
         (int_max_str_digits <? k)%nat = false ∧
         ∀ c, In c (list_ascii_of_string (str_of_int n)) → is_space c = false.
Proof.
  intros Hn Hlim. unfold str_of_int. destruct n as [|p|p]; [|clear Hn|lia].
  - exists (Decimal.D0 Decimal.Nil), 1%nat. split; [done|]. split; [done|].
    split; [done|]. split; [done|]. intros c [<-|[]]. done.
  - cbn [Z.to_int NilZero.string_of_int].
    pose proof (DecimalPos.Unsigned.to_uint_nonnil p) as Hnn.
    assert (Hs : NilZero.string_of_uint (Pos.to_uint p)
                 = NilEmpty.string_of_uint (Pos.to_uint p))
      by (by destruct (Pos.to_uint p)).
    rewrite Hs. exists (Pos.to_uint p), (Decimal.nb_digits (Pos.to_uint p)).
    split; [by apply digit_run_string_of_uint|].
    split; [unfold Z.of_uint; by rewrite DecimalPos.Unsigned.of_to|].
    split; [by apply scan_run_string_of_uint|].
    split; [by apply within_limit|].
    intros c Hc. by apply is_digit_not_space, string_of_uint_digits with (Pos.to_uint p).
Qed.

(** X6: a sign is accepted once and only in front of a digit:
    [parse_number] reads ["+"] followed by the text of an int that is not
    negative and has at most 4300 digits as that int and ["-"] followed by it
    as its opposite, and it raises [ValueError] on a sign that is followed, in
    an ASCII text, by a character that is no digit (another sign, a blank, an
    underscore, a letter) or by nothing. *)
Theorem parse_number_sign :
  (∀ n, 0 ≤ n → str_limit n →
     parse_number ("+" +:+ str_of_int n) = Ok n ∧
     parse_number ("-" +:+ str_of_int n) = Ok (- n)) ∧
  (∀ c t, ascii_text (String c t) → is_digit c = false →
     raises (parse_number ("+" +:+ String c t)) ValueError ∧
     raises (parse_number ("-" +:+ String c t)) ValueError) ∧
  raises (parse_number "+") ValueError ∧ raises (parse_number "-") ValueError.
Proof.
  split; [|split; [|by split]].
  - intros n Hn Hlim.
    destruct (str_of_int_digits n Hn Hlim) as (d & k & Hd & Hz & Hscan & Hk & Hsp).
    assert (Hst : ∀ sign, is_space sign = false →
              strip (String sign (str_of_int n)) = String sign (str_of_int n)).
    { intros sign Hsign. unfold strip. cbn [lstrip]. rewrite Hsign.
      apply rstrip_no_space. intros c [<-|Hc]; [done|by apply Hsp]. }
    unfold parse_number, int_of_str. cbv zeta. rewrite !append_String, !append_Empty.
    rewrite !Hst by done. cbn [unsigned_part]. rewrite Hscan, Hk.
    unfold int_literal. rewrite Hd. cbn. by rewrite Hz.
  - intros c t _ Hc. unfold parse_number.
    rewrite !append_String, !append_Empty.
    assert (Hst : ∀ sign, (sign = "+" ∨ sign = "-")%char →
              int_literal (strip (String sign (String c t))) = None).
    { intros sign Hsign. unfold strip.
      assert (Hs : is_space sign = false) by (by destruct Hsign as [-> | ->]).
      cbn [lstrip]. rewrite Hs.
      change (rstrip (String sign (String c t)))
        with (match rstrip (String c t) with
              | "" => if is_space sign then "" else String sign ""
              | t' => String sign t'
              end).
      rewrite Hs. destruct (rstrip_head c t) as [-> | [t' ->]].
      - by destruct Hsign as [-> | ->].
      - unfold int_literal. rewrite (digit_run_not_digit c t' Hc).
        by destruct Hsign as [-> | ->]. }
    split.
    + destruct (int_of_str_outcome (String "+" (String c t))) as [(n & _ & Hl)|Hr]; [|done].
      rewrite Hst in Hl by auto. done.
    + destruct (int_of_str_outcome (String "-" (String c t))) as [(n & _ & Hl)|Hr]; [|done].
      rewrite Hst in Hl by auto. done.
Qed.

(** ** Section 6: orders that are not negative, orders at the edges *)

(** The sum of products that are not negative is not negative. *)
Lemma sum_of_products_nonneg items :
  Forall (fun item => (0 <=? oi_price item)%float = true ∧
                      is_finite (oi_price item) = true ∧
                      0 ≤ oi_qty item < 2 ^ 1023) items →
  (0 <=? sum_of_products items)%float = true.
Proof.
  intros Hitems. unfold sum_of_products.
  assert (H : ∀ acc, (0 <=? acc)%float = true →
            (0 <=? fold_left (fun acc item =>
                      (acc + oi_price item * nearest_float (oi_qty item))%float)
                     items acc)%float = true); [|by apply H].
  induction Hitems as [|item items (Hp & Hpf & Hq) _ IH]; intros acc Hacc; [done|].
  cbn [fold_left]. apply IH. apply float_add_nonneg; [done|].
  destruct (float_of_int_nonneg _ Hq) as (q & Hq' & Hq0 & Hqf).
  rewrite <- (float_of_int_Ok _ _ Hq'). apply float_mul_nonneg; auto.
Qed.

(** X7: an order whose id has at most 4300 digits, whose prices are finite
    and not negative and whose quantities are between 0 and [2^1023] is
    processed without an error, its subtotal is not negative and the total
    returned is not below the subtotal. *)
Theorem process_order_total_not_below_subtotal (order_id : Z) (items : list order_item) :
  str_limit order_id →
  Forall (fun item => (0 <=? oi_price item)%float = true ∧
                      is_finite (oi_price item) = true ∧
                      0 ≤ oi_qty item < 2 ^ 1023) items →
  ∃ subtotal evs total,
    order_subtotal items = Ok subtotal ∧
    emits (process_order order_id items) evs total ∧
    (0 <=? subtotal)%float = true ∧ (subtotal <=? total)%float = true.
Proof.
  intros _ Hitems.
  assert (Hq : Forall (fun item => ∃ q, float_of_int (oi_qty item) = Ok q) items).
  { eapply Forall_impl; [exact Hitems|]. intros item (_ & _ & Hq).
    destruct (float_of_int_nonneg _ Hq) as (q & Hq' & _). by exists q. }
  pose proof (order_subtotal_spec items Hq) as Hs.
  pose proof (sum_of_products_nonneg items Hitems) as Hs0.
  exists (sum_of_products items), (order_events order_id (sum_of_products items)),
    (sum_of_products items + sum_of_products items * 0.08)%float.
  split; [done|]. split; [by apply process_order_emits|]. split; [done|].
  apply float_add_nonneg; [done|]. apply float_mul_nonneg; auto.
Qed.

Lemma process_order_total_not_below_subtotal_witness :
  ∃ subtotal evs total,
    order_subtotal large_order = Ok subtotal ∧
    emits (process_order 1002 large_order) evs total ∧
    (0 <=? subtotal)%float = true ∧ (subtotal <=? total)%float = true.
Proof.
  apply (process_order_total_not_below_subtotal 1002 large_order); [reflexivity|].
  repeat constructor; cbn; lia.
Defined.

(** X8: the edges of [process_order], for an order id of at most 4300
    digits.  An order without items has a subtotal of 0: one line is printed,
    with three amounts of 0.00, no breakpoint is hit and 0.0 is returned.  The
    breakpoint is for subtotals above 500 only: an order of exactly 500.00
    does not hit it, an order of 500.01 does. *)
Theorem process_order_edges (order_id : Z) :
  str_limit order_id →
  emits (process_order order_id [])
    [ Print ("  Order #" +:+ str_of_int order_id
             +:+ ": subtotal=$0.00, tax=$0.00, total=$0.00") ] 0%float ∧
  emits (process_order order_id [ {| oi_name := "Bundle"; oi_price := 250; oi_qty := 2 |} ])
    [ Print ("  Order #" +:+ str_of_int order_id
             +:+ ": subtotal=$500.00, tax=$40.00, total=$540.00") ] 540%float ∧
  emits (process_order order_id [ {| oi_name := "Bundle"; oi_price := 500.01; oi_qty := 1 |} ])
    [ DebugBreakpoint;
      Print ("  ⚠ Large order #" +:+ str_of_int order_id
             +:+ " detected (subtotal: $500.01)");
      Print ("  Order #" +:+ str_of_int order_id
             +:+ ": subtotal=$500.01, tax=$40.00, total=$540.01") ]
    (500.01 + 500.01 * 0.08)%float.
Proof.
  intros _. split; [|split].
  - exact (process_order_emits order_id [] 0 eq_refl).
  - exact (process_order_emits order_id
             [ {| oi_name := "Bundle"; oi_price := 250; oi_qty := 2 |} ] 500 eq_refl).
  - exact (process_order_emits order_id
             [ {| oi_name := "Bundle"; oi_price := 500.01; oi_qty := 1 |} ] 500.01 eq_refl).
Qed.

Lemma process_order_edges_witness :
  emits (process_order 1003 [])
    [ Print "  Order #1003: subtotal=$0.00, tax=$0.00, total=$0.00" ] 0%float.
Proof. exact (proj1 (process_order_edges 1003 ltac:(reflexivity))). Defined.

(** ** Section 7: the batch loop on any data *)

Lemma mapM_outcome_inv {A B} (f : A → outcome B) xs ys :
  mapM f xs = Ok ys → Forall2 (fun x y => f x = Ok y) xs ys.
Proof.
  revert ys. induction xs as [|x xs IH]; intros ys H.
  - injection H as <-. constructor.
  - cbn [mapM] in H. destruct (f x) as [y|e] eqn:Hx; [|discriminate].
    cbn [mbind outcome_bind] in H.
    destruct (mapM f xs) as [ys'|e] eqn:Hxs; [|discriminate].
    injection H as <-. constructor; [done|by apply IH].
Qed.

Lemma mapM_outcome_total {A B} (f : A → outcome B) xs :
  Forall (fun x => ∃ y, f x = Ok y) xs → ∃ ys, mapM f xs = Ok ys.
Proof.
  induction 1 as [|x xs [y Hx] _ [ys IH]]; [by exists []|].
  exists (y :: ys). cbn [mapM]. rewrite Hx. cbn [mbind outcome_bind]. by rewrite IH.
Qed.

(** The indices of the loop: the multiples of the batch size below the
    length. *)
Lemma py_range_batches total batch_size :
  0 ≤ total → 0 < batch_size →
  py_range 0 total batch_size
  = Ok (map (fun k => Z.of_nat k * batch_size)
          (seq 0 (Z.to_nat ((total + batch_size - 1) / batch_size)))).
Proof.
  intros Ht Hb. unfold py_range. destruct batch_size as [|p|p]; [lia| |lia].
  cbv zeta. by replace (total - 0 + Z.pos p - 1) with (total + Z.pos p - 1) by lia.
Qed.

(** Each index of the loop is below the length. *)
Lemma batch_index_lt total batch_size (k : nat) :
  0 < batch_size →
  (k < Z.to_nat ((total + batch_size - 1) / batch_size))%nat →
  Z.of_nat k * batch_size < total.
Proof.
  intros Hb Hk.
  assert (Hq : Z.of_nat k + 1 ≤ (total + batch_size - 1) / batch_size) by lia.
  pose proof (Z.mul_div_le (total + batch_size - 1) batch_size Hb). nia.
Qed.

(** The slice of a pass is the next [batch_size] items. *)
Lemma py_slice_batch (data : list Z) batch_size (k : nat) :
  0 < batch_size → Z.of_nat k * batch_size < Z.of_nat (length data) →
  py_slice data (Z.of_nat k * batch_size) (Z.of_nat k * batch_size + batch_size)
  = take (Z.to_nat batch_size) (drop (k * Z.to_nat batch_size) data).
Proof.
  intros Hb Hk. unfold py_slice, slice_bound. cbv zeta.
  assert (H1 : (Z.of_nat k * batch_size <? 0) = false) by (apply Z.ltb_ge; nia).
  assert (H2 : (Z.of_nat k * batch_size + batch_size <? 0) = false)
    by (apply Z.ltb_ge; nia).
  rewrite H1, H2.
  assert (Ha : Z.to_nat (Z.min (Z.of_nat (length data)) (Z.max 0 (Z.of_nat k * batch_size)))
               = (k * Z.to_nat batch_size)%nat) by nia.
  rewrite Ha.
  set (rest := drop (k * Z.to_nat batch_size) data).
  assert (Hrest : length rest = (length data - k * Z.to_nat batch_size)%nat)
    by apply length_drop.
  destruct (Z.le_gt_cases (Z.of_nat k * batch_size + batch_size) (Z.of_nat (length data)))
    as [Hle|Hgt].
  - f_equal. nia.
  - rewrite (take_ge rest (Z.to_nat batch_size)) by nia.
    apply take_ge. nia.
Qed.

(** The batches of the passes of a loop that completes. *)
Lemma batch_passes_inv (data : list Z) (batch_size : Z) (passes : list batch_vars) :
  0 < batch_size → batch_passes data batch_size = Ok passes →
  length passes
  = Z.to_nat ((Z.of_nat (length data) + batch_size - 1) / batch_size) ∧
  ∀ (k : nat) vars, passes !! k = Some vars →
    batch_id vars = Z.of_nat k + 1 ∧
    batch vars = take (Z.to_nat batch_size) (drop (k * Z.to_nat batch_size) data) ∧
    processed vars = map (fun x => x ^ 2) (batch vars).
Proof.
  intros Hb Hp. unfold batch_passes in Hp. cbv zeta in Hp.
  rewrite py_range_batches in Hp by lia. cbn [mbind outcome_bind] in Hp.
  apply mapM_outcome_inv in Hp.
  pose proof (Forall2_length _ _ _ Hp) as Hlen.
  rewrite length_map, length_seq in Hlen. split; [done|].
  intros k vars Hk.
  assert (Hkl : (k < length passes)%nat) by (by apply lookup_lt_Some with vars).
  destruct (Forall2_lookup_r _ _ _ _ _ Hp Hk) as (i & Hi & Hpass).
  rewrite list_lookup_fmap, lookup_seq_lt in Hi by lia. cbn in Hi.
  injection Hi as <-.
  unfold batch_pass in Hpass. cbv zeta in Hpass.
  destruct (int_truediv (Z.of_nat k * batch_size + batch_size) (Z.of_nat (length data)))
    as [q|e]; [|discriminate].
  cbn [mbind outcome_bind mret outcome_ret] in Hpass. injection Hpass as <-.
  cbn [batch_id batch processed].
  rewrite Z.div_mul by lia.
  rewrite py_slice_batch; [done|done|].
  apply batch_index_lt; [done|lia].
Qed.

(** A loop on data that is not empty, with a batch size that leaves the
    progress fraction in the range of a float, completes. *)
Lemma batch_passes_Ok (data : list Z) (batch_size : Z) :
  data ≠ [] → 0 < batch_size < 2 ^ 1023 →
  ∃ passes, batch_passes data batch_size = Ok passes.
Proof.
  intros Hd [Hb Hu]. unfold batch_passes. cbv zeta.
  rewrite py_range_batches by lia. cbn [mbind outcome_bind].
  apply mapM_outcome_total. apply Forall_forall. intros i Hi.
  apply list_elem_of_fmap in Hi as (k & -> & Hk).
  apply elem_of_seq in Hk as [_ Hk]. cbn in Hk.
  pose proof (batch_index_lt _ _ k Hb Hk) as Hlt.
  assert (Hn : 0 < Z.of_nat (length data)) by (destruct data; [done|cbn; lia]).
  unfold batch_pass. cbv zeta.
  destruct (int_truediv_Ok (Z.of_nat k * batch_size + batch_size) (Z.of_nat (length data)))
    as [q ->]; [lia| |by eexists].
  assert (0 < 2 ^ 1023) by (apply Z.pow_pos_nonneg; lia). nia.
Qed.

(** Cutting a list into pieces of [b] items and joining the pieces. *)
Lemma concat_chunks {A} (l : list A) (b n : nat) :
  concat (map (fun k => take b (drop (k * b) l)) (seq 0 n)) = take (n * b) l.
Proof.
  induction n as [|n IH]; [done|].
  rewrite seq_S, map_app, concat_app, IH. cbn [map concat plus].
  rewrite app_nil_r, take_take_drop. f_equal. lia.
Qed.

(** X9: with a batch size that is positive, the passes of the loop cut the
    data into consecutive batches: joined in order the batches give the data
    back, there are [ceil (len data / batch_size)] of them, they are numbered
    from 1, none is empty, each but the last has exactly [batch_size] items and
    the last at most that many, and [processed] holds the squares of the
    batch. *)
Theorem batch_passes_partition (data : list Z) (batch_size : Z) (passes : list batch_vars) :
  0 < batch_size → batch_passes data batch_size = Ok passes →
  concat (map batch passes) = data ∧
  Z.of_nat (length passes) = (Z.of_nat (length data) + batch_size - 1) / batch_size ∧
  map batch_id passes = map Z.of_nat (seq 1 (length passes)) ∧
  ∀ (k : nat) vars, passes !! k = Some vars →
    batch vars ≠ [] ∧
    Z.of_nat (length (batch vars)) ≤ batch_size ∧
    ((S k < length passes)%nat → Z.of_nat (length (batch vars)) = batch_size) ∧
    processed vars = map (fun x => x ^ 2) (batch vars).
Proof.
  intros Hb Hp. destruct (batch_passes_inv data batch_size passes Hb Hp) as [Hlen Hk].
  set (n := Z.of_nat (length data)) in *.
  assert (Hq : 0 ≤ (n + batch_size - 1) / batch_size) by (apply Z.div_pos; lia).
  pose proof (Z.mul_div_le (n + batch_size - 1) batch_size Hb) as Hq1.
  pose proof (Z.mul_succ_div_gt (n + batch_size - 1) batch_size Hb) as Hq2.
  split; [|split; [lia|split]].
  - assert (Hm : map batch passes
                 = map (fun k => take (Z.to_nat batch_size)
                                   (drop (k * Z.to_nat batch_size) data))
                     (seq 0 (length passes))).
    { apply list_eq. intros k. rewrite !list_lookup_fmap.
      destruct (passes !! k) as [vars|] eqn:Hv.
      - rewrite lookup_seq_lt by (by apply lookup_lt_Some with vars). cbn.
        by destruct (Hk k vars Hv) as (_ & -> & _).
      - apply lookup_ge_None in Hv. by rewrite lookup_seq_ge by lia. }
    rewrite Hm, concat_chunks. apply take_ge. unfold n in *. nia.
  - apply list_eq. intros k. rewrite !list_lookup_fmap.
    destruct (passes !! k) as [vars|] eqn:Hv.
    + rewrite lookup_seq_lt by (by apply lookup_lt_Some with vars). cbn.
      destruct (Hk k vars Hv) as (-> & _). f_equal. lia.
    + apply lookup_ge_None in Hv. by rewrite lookup_seq_ge by lia.
  - intros k vars Hv. destruct (Hk k vars Hv) as (_ & Hbatch & Hproc).
    apply lookup_lt_Some in Hv.
    assert (Hlt : Z.of_nat k * batch_size < n) by (apply batch_index_lt; [done|lia]).
    assert (Hl : length (batch vars)
                 = (Z.to_nat batch_size `min` (length data - k * Z.to_nat batch_size))%nat).
    { by rewrite Hbatch, length_take, length_drop. }
    split; [|split; [|split]]; [|lia| |done].
    + intros Hnil. rewrite Hnil in Hl. cbn in Hl. unfold n in *. nia.
    + intros Hnext. unfold n in *. nia.
Qed.

Lemma batch_passes_partition_witness :
  ∃ passes, batch_passes sample_data 4 = Ok passes ∧
            concat (map batch passes) = sample_data.
Proof.
  destruct (batch_passes sample_data 4) as [passes|e] eqn:Hp; [|by vm_compute in Hp].
  exists passes. split; [done|].
  exact (proj1 (batch_passes_partition sample_data 4 passes ltac:(lia) Hp)).
Defined.

(** X10: on data that is not empty and with a batch size between 1 and
    [2^1023], [process_batches] returns after printing one line, which gives
    the number of items and, as the number of batches,
    [ceil (len data / batch_size)]. *)
Theorem process_batches_counts_batches (data : list Z) (batch_size : Z) :
  data ≠ [] → 0 < batch_size < 2 ^ 1023 →
  emits (process_batches data (Some batch_size))
    [Print ("  Processed " +:+ str_of_int (Z.of_nat (length data)) +:+ " items in "
            +:+ str_of_int ((Z.of_nat (length data) + batch_size - 1) / batch_size)
            +:+ " batches.")] ().
Proof.
  intros Hd Hb. destruct (batch_passes_Ok data batch_size Hd Hb) as [passes Hp].
  destruct (batch_passes_inv data batch_size passes (proj1 Hb) Hp) as [Hlen Hk].
  assert (Hn : 0 < Z.of_nat (length data)) by (destruct data; [done|cbn; lia]).
  assert (Hq : 0 < (Z.of_nat (length data) + batch_size - 1) / batch_size).
  { apply Z.div_str_pos. lia. }
  destruct (last passes) as [vars|] eqn:Hlast.
  2: { rewrite last_lookup in Hlast. apply lookup_ge_None in Hlast. lia. }
  pose proof Hlast as Hl. rewrite last_lookup in Hl. destruct (Hk _ _ Hl) as (Hid & _).
  replace ((Z.of_nat (length data) + batch_size - 1) / batch_size) with (batch_id vars)
    by lia.
  by apply process_batches_summary with passes.
Qed.

Lemma process_batches_counts_batches_witness :
  emits (process_batches [10; 20; 30; 40; 50] (Some 2))
    [Print "  Processed 5 items in 3 batches."] ().
Proof.
  exact (process_batches_counts_batches [10; 20; 30; 40; 50] 2
           ltac:(discriminate) (conj eq_refl eq_refl)).
Defined.

(** X11: a batch size that is not positive never gives a result, whatever the
    data: with 0 the call of [range] raises [ValueError]; with a negative one
    the loop makes no pass and the summary line raises [UnboundLocalError].
    Nothing is printed in either case. *)
Theorem process_batches_nonpositive_batch_size (data : list Z) (batch_size : Z) :
  batch_size ≤ 0 →
  ∃ e, fails (process_batches data (Some batch_size)) [] e ∧
       exn_cls e = if batch_size =? 0 then ValueError else UnboundLocalError.
Proof.
  intros Hb. destruct batch_size as [|p|p]; [|lia|].
  - eexists. split; [by apply process_batches_raises|done].
  - destruct (process_batches_unbound data (Some (Z.neg p))) as [msg H].
    + unfold batch_passes, py_range. cbv zeta. cbn [default from_option id].
      assert (Hq : (0 - Z.of_nat (length data) - Z.neg p - 1) / - Z.neg p < 1)
        by (apply Z.div_lt_upper_bound; lia).
      by replace (Z.to_nat ((0 - Z.of_nat (length data) - Z.neg p - 1) / - Z.neg p))
        with 0%nat by lia.
    + by exists (Exn UnboundLocalError msg).
Qed.

Lemma process_batches_nonpositive_batch_size_witness :
  ∃ e, fails (process_batches [1; 2; 3] (Some (-2))) [] e ∧
       exn_cls e = UnboundLocalError.
Proof.
  exact (process_batches_nonpositive_batch_size [1; 2; 3] (-2) ltac:(lia)).
Defined.

(** The progress fraction of the passes of a loop that completes. *)
Lemma batch_passes_pct (data : list Z) (batch_size : Z) (passes : list batch_vars) :
  0 < batch_size → batch_passes data batch_size = Ok passes →
  ∀ (k : nat) vars, passes !! k = Some vars →
    ∃ q, int_truediv (Z.of_nat k * batch_size + batch_size) (Z.of_nat (length data)) = Ok q ∧
         pct vars = py_min q 1.
Proof.
  intros Hb Hp. unfold batch_passes in Hp. cbv zeta in Hp.
  rewrite py_range_batches in Hp by lia. cbn [mbind outcome_bind] in Hp.
  apply mapM_outcome_inv in Hp.
  pose proof (Forall2_length _ _ _ Hp) as Hlen.
  rewrite length_map, length_seq in Hlen.
  intros k vars Hk.
  assert (Hkl : (k < length passes)%nat) by (by apply lookup_lt_Some with vars).
  destruct (Forall2_lookup_r _ _ _ _ _ Hp Hk) as (i & Hi & Hpass).
  rewrite list_lookup_fmap, lookup_seq_lt in Hi by lia. cbn in Hi.
  injection Hi as <-.
  unfold batch_pass in Hpass. cbv zeta in Hpass.
  destruct (int_truediv (Z.of_nat k * batch_size + batch_size) (Z.of_nat (length data)))
    as [q|e]; [|discriminate].
  cbn [mbind outcome_bind mret outcome_ret] in Hpass. injection Hpass as <-.
  by exists q.
Qed.

(** X12: in every pass of the batch loop the progress fraction [pct] lies
    between 0 and 1, and in the last pass it is 1: the quotient
    [(i + batch_size) / total] of the last pass is at least 1 and [min] cuts
    it. *)
Theorem batch_passes_progress (data : list Z) (batch_size : Z) (passes : list batch_vars) :
  0 < batch_size → batch_passes data batch_size = Ok passes →
  (∀ (k : nat) vars, passes !! k = Some vars →
     (0 <=? pct vars)%float = true ∧ (pct vars <=? 1)%float = true) ∧
  (∀ vars, last passes = Some vars → (pct vars =? 1)%float = true).
Proof.
  intros Hb Hp.
  pose proof (batch_passes_pct data batch_size passes Hb Hp) as Hpct.
  destruct (batch_passes_inv data batch_size passes Hb Hp) as [Hlen _].
  assert (Hpos : ∀ (k : nat) vars, passes !! k = Some vars →
    ∃ (a b : positive) q, Z.of_nat k * batch_size + batch_size = Z.pos a ∧
      Z.of_nat (length data) = Z.pos b ∧ int_truediv (Z.pos a) (Z.pos b) = Ok q ∧
      pct vars = py_min q 1).
  { intros k vars Hk. destruct (Hpct k vars Hk) as (q & Hq & Hv).
    assert (Hkl : (k < length passes)%nat) by (by apply lookup_lt_Some with vars).
    rewrite Hlen in Hkl. pose proof (batch_index_lt _ _ k Hb Hkl) as Hlt.
    destruct (Z.of_nat k * batch_size + batch_size) as [|a|a] eqn:Ha; [nia| |nia].
    destruct (Z.of_nat (length data)) as [|b|b] eqn:Hn; [nia| |nia].
    by exists a, b, q. }
  split.
  - intros k vars Hk. destruct (Hpos k vars Hk) as (a & b & q & _ & _ & Hq & ->).
    destruct (py_min_1 q (int_truediv_nonneg a b q Hq)) as (H0 & H1 & _). done.
  - intros vars Hl. rewrite last_lookup in Hl.
    destruct (Hpos _ vars Hl) as (a & b & q & Ha & Hn & Hq & ->).
    destruct (py_min_1 q (int_truediv_nonneg a b q Hq)) as (_ & _ & H1).
    apply H1. apply (int_truediv_ge_1 a b q); [|done].
    assert (Hk : (0 < length passes)%nat).
    { apply lookup_lt_Some in Hl. destruct passes; cbn in *; lia. }
    assert (Hle : Z.pos b ≤ Z.pos a); [|lia].
    rewrite <- Ha, <- Hn.
    assert (Hs : Z.of_nat (Nat.pred (length passes)) = Z.of_nat (length passes) - 1) by lia.
    rewrite Hs, Hlen, Z2Nat.id by (apply Z.div_pos; lia).
    pose proof (Z.div_mod (Z.of_nat (length data) + batch_size - 1) batch_size ltac:(lia))
      as Hdm.
    pose proof (Z.mod_pos_bound (Z.of_nat (length data) + batch_size - 1) batch_size Hb)
      as Hmb.
    set (c := (Z.of_nat (length data) + batch_size - 1) / batch_size) in *.
    set (r := (Z.of_nat (length data) + batch_size - 1) mod batch_size) in *.
    replace ((c - 1) * batch_size + batch_size) with (batch_size * c) by ring.
    lia.
Qed.

Lemma batch_passes_progress_witness :
  ∃ passes, batch_passes [1; 2; 3; 4; 5] 2 = Ok passes ∧
    (∀ (k : nat) vars, passes !! k = Some vars →
       (0 <=? pct vars)%float = true ∧ (pct vars <=? 1)%float = true) ∧
    (∀ vars, last passes = Some vars → (pct vars =? 1)%float = true).
Proof.
  eexists. split; [vm_compute; reflexivity|].
  apply (batch_passes_progress [1; 2; 3; 4; 5] 2); [lia|vm_compute; reflexivity].
Defined.

(** ** Section 8: the output is an interleaving *)

Lemma interleaving_snoc {A} (ls : list (list A)) out i p x :
  interleaving ls out → ls !! i = Some p →
  interleaving (<[i := p ++ [x]]> ls) (out ++ [x]).
Proof.
  intros H. revert i p. induction H as [ls Hnil|ls j y rest out Hj H IH]; intros i p Hi.
  - assert (p = []) as -> by (by apply (Forall_lookup_1 _ _ _ _ Hnil Hi)).
    pose proof (lookup_lt_Some _ _ _ Hi) as Hlt.
    apply (interleaving_next _ i x []).
    + by apply list_lookup_insert_eq.
    + rewrite list_insert_insert_eq. apply interleaving_done. by apply Forall_insert.
  - pose proof (lookup_lt_Some _ _ _ Hi) as Hlt. cbn [app].
    destruct (decide (i = j)) as [->|Hne].
    + assert (p = y :: rest) as -> by congruence.
      apply (interleaving_next _ j y (rest ++ [x])).
      * by apply list_lookup_insert_eq.
      * rewrite list_insert_insert_eq.
        specialize (IH j rest). rewrite list_insert_insert_eq in IH.
        apply IH. by apply list_lookup_insert_eq.
    + apply (interleaving_next _ j y rest).
      * by rewrite list_lookup_insert_ne.
      * rewrite list_insert_insert_ne by done. apply IH.
        by rewrite list_lookup_insert_ne.
Qed.

Lemma interleaving_start {A} (ls : list (list A)) out :
  interleaving ls out → interleaving (ls ++ [[]]) out.
Proof.
  induction 1 as [ls Hnil|ls j y rest out Hj H IH].
  - apply interleaving_done. apply Forall_app. split; [done|by constructor].
  - apply (interleaving_next _ j y rest).
    + by apply lookup_app_l_Some.
    + rewrite insert_app_l by (by apply lookup_lt_Some in Hj). exact IH.
Qed.

Lemma interleaving_length (ls : list (list event)) out :
  interleaving ls out → length out = sum_list (map length ls).
Proof.
  induction 1 as [ls Hnil|ls j y rest out Hj H IH].
  - induction Hnil as [|l ls -> _ IH]; [done|exact IH].
  - cbn [length]. by rewrite IH, (sum_list_insert ls j y rest).
Qed.

Lemma pool_interleaved_init : pool_interleaved pool_init.
Proof.
  exists [], []. split; [done|]. split; [intros i p rest name steps Hp; done|].
  split; [by apply interleaving_done|done].
Qed.

Lemma pool_interleaved_step st st' :
  pool_inv st → pool_interleaved st → pool_next st st' → pool_interleaved st'.
Proof.
  intros (Hlen & _ & Hmain) (performed & lines & Hpl & Hperf & Hint & Hout) [a Hstep].
  unfold pool_interleaved, printed_by_workers in *.
  destruct a as [|i]; cbn [pool_step] in Hstep.
  - destruct (pool_main st) as [[|[name steps] todo]|k|] eqn:Hpc.
    + injection Hstep as <-. by exists performed, lines.
    + injection Hstep as <-. destruct Hmain as [Hdrop _].
      exists (performed ++ [[]]), lines. cbn [pool_threads pool_out pool_main].
      split; [by rewrite !length_app, Hpl|].
      split; [|split; [by apply interleaving_start|done]].
      intros i p rest name' steps' Hp Hr Hspec.
      destruct (decide (i < length (pool_threads st))%nat) as [Hlt|Hge].
      * rewrite lookup_app_l in Hp, Hr by lia. by apply (Hperf i).
      * assert (i = length (pool_threads st)) as ->.
        { apply lookup_lt_Some in Hr. rewrite length_app in Hr. cbn in Hr. lia. }
        rewrite lookup_app_r in Hr by lia. rewrite lookup_app_r in Hp by lia.
        rewrite Hpl, Nat.sub_diag in Hp. rewrite Nat.sub_diag in Hr.
        injection Hp as <-. injection Hr as <-.
        assert (Hs : worker_specs !! length (pool_threads st) = Some (name, steps)).
        { rewrite <- (Nat.add_0_r (length _)), <- lookup_drop, Hdrop. done. }
        rewrite Hs in Hspec. injection Hspec as <- <-.
        by rewrite thread_events_worker.
    + destruct (pool_threads st !! k) as [[|ev rest]|]; [| |].
      * injection Hstep as <-. by exists performed, lines.
      * discriminate.
      * injection Hstep as <-. exists performed, lines.
        cbn [pool_threads pool_out pool_main]. rewrite app_nil_r in Hout. by rewrite Hout.
    + discriminate.
  - destruct (pool_threads st !! i) as [[|ev rest]|] eqn:Hi; [discriminate| |discriminate].
    injection Hstep as <-. cbn [pool_threads pool_out pool_main].
    assert (Hnr : pool_main st ≠ Returned).
    { intros Hr. rewrite Hr in Hmain. destruct Hmain as (_ & Hall & _).
      by specialize (Hall _ _ Hi). }
    assert (Hout' : pool_out st = lines).
    { destruct (pool_main st); by rewrite ?app_nil_r in Hout. }
    destruct (lookup_lt_is_Some_2 performed i) as [p Hp].
    { rewrite Hpl. by apply lookup_lt_Some in Hi. }
    exists (<[i := p ++ [ev]]> performed), (lines ++ [ev]).
    split; [by rewrite !length_insert|]. split; [|split].
    + intros j q rest' name steps Hq Hr Hspec.
      destruct (decide (i = j)) as [<-|Hne].
      * rewrite list_lookup_insert_eq in Hq by (by apply lookup_lt_Some in Hp).
        rewrite list_lookup_insert_eq in Hr by (by apply lookup_lt_Some in Hi).
        injection Hq as <-. injection Hr as <-.
        rewrite <- app_assoc. by apply (Hperf i).
      * rewrite list_lookup_insert_ne in Hq, Hr by done. by apply (Hperf j).
    + by apply interleaving_snoc.
    + rewrite Hout'. destruct (pool_main st); by rewrite ?app_nil_r.
Qed.

Lemma pool_interleaved_reachable st : pool_reachable st → pool_interleaved st.
Proof.
  intros Hreach.
  refine (rtc_ind_r pool_interleaved pool_init pool_interleaved_init _ st Hreach).
  intros y z Hy Hstep IH. apply pool_interleaved_step with y; [|done|done].
  by apply pool_inv_reachable.
Qed.

Lemma run_pool_interleaving (sched : list nat) :
  ∃ lines,
    pool_out (run_pool (pool_steps pool_init) sched pool_init).1
    = lines ++ [Print threads_summary] ∧
    interleaving
      [ worker_events "Downloader" 4; worker_events "Processor" 3;
        worker_events "Uploader" 5 ] lines.
Proof.
  pose proof (run_pool_reachable (pool_steps pool_init) sched pool_init) as Hreach.
  pose proof (run_pool_finishes (pool_steps pool_init) sched pool_init (le_n _)) as Hret.
  destruct (pool_inv_reachable _ Hreach) as (_ & _ & Hmain).
  destruct (pool_interleaved_reachable _ Hreach)
    as (performed & lines & Hpl & Hperf & Hint & Hout).
  unfold printed_by_workers in Hout. rewrite Hret in Hmain, Hout.
  destruct Hmain as (Hfull & Hall & _).
  assert (Hw : performed = [ worker_events "Downloader" 4; worker_events "Processor" 3;
                             worker_events "Uploader" 5 ]).
  { apply list_eq. intros i.
    destruct (performed !! i) as [p|] eqn:Hp.
    - destruct (lookup_lt_is_Some_2 (pool_threads (run_pool (pool_steps pool_init) sched
                                                     pool_init).1) i) as [rest Hr].
      { rewrite <- Hpl. by apply lookup_lt_Some in Hp. }
      pose proof (Hall _ _ Hr) as ->.
      assert (Hi : (i < 3)%nat).
      { apply lookup_lt_Some in Hr. by rewrite Hfull in Hr. }
      destruct i as [|[|[|i]]]; [| | |lia].
      + by rewrite (Hperf 0%nat p [] "Downloader" 4 Hp Hr eq_refl), app_nil_r.
      + by rewrite (Hperf 1%nat p [] "Processor" 3 Hp Hr eq_refl), app_nil_r.
      + by rewrite (Hperf 2%nat p [] "Uploader" 5 Hp Hr eq_refl), app_nil_r.
    - apply lookup_ge_None in Hp. rewrite Hpl, Hfull in Hp. symmetry.
      by apply lookup_ge_None. }
  exists lines. split; [done|]. by rewrite <- Hw.
Qed.

(** X13: under every scheduler the output of the threaded section is an
    interleaving of the lines of the three workers, the lines of each worker
    in the order in which it prints them, followed by the summary line: 15
    lines of the workers and the summary, whatever the schedule.  Which
    worker prints first is up to the scheduler: it is Downloader under one
    schedule and Processor under another. *)
Theorem workers_lines_interleave :
  (∀ sched, ∃ lines,
     pool_out (run_pool (pool_steps pool_init) sched pool_init).1
     = lines ++ [Print threads_summary] ∧
     interleaving
       [ worker_events "Downloader" 4; worker_events "Processor" 3;
         worker_events "Uploader" 5 ] lines ∧
     length lines = 15%nat) ∧
  head (pool_out (run_pool (pool_steps pool_init) [] pool_init).1)
  = Some (Print "  [Downloader] Step 1/4") ∧
  head (pool_out (run_pool (pool_steps pool_init) [0; 0; 0; 0; 1]%nat pool_init).1)
  = Some (Print "  [Processor] Step 1/3").
Proof.
  split; [|split; by vm_compute].
  intros sched. destruct (run_pool_interleaving sched) as (lines & Hout & Hint).
  exists lines. split; [done|]. split; [done|].
  by rewrite (interleaving_length _ _ Hint).
Qed.

(** ** Section 9: the transactions of any list *)

Lemma emits_unique {A} (m : M A) evs evs' a a' :
  emits m evs a → emits m evs' a' → evs = evs' ∧ a = a'.
Proof.
  intros H H'. specialize (H (World [] [] [])). rewrite H' in H.
  cbn in H. by injection H as -> ->.
Qed.

Lemma txn_loop_lines (k : nat) txs vars :
  Z.of_nat (k + length txs) < 2 ^ 53 →
  ∃ lines vars',
    emits (for_fold (zip (map Z.of_nat (seq k (length txs))) txs) txn_body vars)
      (map Print lines) vars' ∧
    length lines = length txs.
Proof.
  revert k vars. induction txs as [|txn txs IH]; intros k vars Hk.
  - exists [], vars. split; [apply emits_ret|done].
  - cbn [length seq map zip zip_with for_fold].
    destruct (txn_body_emits vars (Z.of_nat k) txn) as [avg Hb].
    { cbn [length] in Hk. lia. }
    match type of Hb with emits _ [Print ?s] ?v =>
      destruct (IH (S k) v) as (lines & vars' & He & Hlen);
        [cbn [length] in Hk; lia|]; exists (s :: lines), vars'
    end.
    split; [|cbn; by rewrite Hlen].
    exact (emits_bind _ _ [_] _ _ _ Hb He).
Qed.

(** The whole function prints one line for each transaction, then the two
    lines of the summary. *)
Lemma analyze_transactions_lines txns :
  Z.of_nat (length txns) < 2 ^ 53 →
  ∃ lines,
    emits (analyze_transactions txns)
      (map Print
         (lines ++
          [ "
  Summary: " +:+ str_of_int (Z.of_nat (length txns)) +:+ " transactions, "
            +:+ str_of_int (count_high (map txn_amount txns)) +:+ " high-value";
            "  Final total: $" +:+ fmt_f true 2 (py_sum (map txn_amount txns)) ])) () ∧
    length lines = length txns.
Proof.
  intros Hlen.
  destruct (txn_loop_lines 0 txns txn_init Hlen) as (lines & vars' & Hl & Hll).
  destruct (txn_loop_from 0 txns txn_init Hlen) as (evs & He & _).
  destruct (emits_unique _ _ _ _ _ Hl He) as [<- _].
  exists lines. split; [|done]. rewrite map_app. unfold analyze_transactions.
  eapply emits_bind; [exact He|]. cbn [high_value_count running_total txn_init].
  rewrite Z.add_0_l.
  refine (emits_bind _ _ [_] [_] _ _ _ _); apply emits_print.
Qed.

(** X14: [analyze_transactions] never raises, whatever the transactions (the
    empty list too): it prints one status line for each transaction and then
    the two lines of the summary, which give the number of transactions, the
    number of amounts above 100, never more than the number of transactions,
    and the sum of the amounts. *)
Theorem analyze_transactions_summary (txns : list transaction) :
  Z.of_nat (length txns) < 2 ^ 53 →
  ∃ lines,
    emits (analyze_transactions txns)
      (map Print
         (lines ++
          [ "
  Summary: " +:+ str_of_int (Z.of_nat (length txns)) +:+ " transactions, "
            +:+ str_of_int (count_high (map txn_amount txns)) +:+ " high-value";
            "  Final total: $" +:+ fmt_f true 2 (py_sum (map txn_amount txns)) ])) () ∧
    length lines = length txns ∧
    0 ≤ count_high (map txn_amount txns) ≤ Z.of_nat (length txns).
Proof.
  intros Hlen. destruct (analyze_transactions_lines txns Hlen) as (lines & He & Hl).
  exists lines. split; [done|]. split; [done|]. unfold count_high.
  pose proof (length_filter (fun a => float_gt_int a 100 = true) (map txn_amount txns)) as H.
  rewrite length_map in H. lia.
Qed.

Lemma analyze_transactions_summary_witness :
  emits (analyze_transactions [])
    [ Print "
  Summary: 0 transactions, 0 high-value"; Print "  Final total: $0.00" ] ().
Proof.
  destruct (analyze_transactions_summary [] eq_refl) as (lines & He & Hl & _).
  destruct lines; [exact He|discriminate Hl].
Defined.

(** ** The whole run: what it does besides printing *)

Lemma interactions_app evs1 evs2 :
  interactions (evs1 ++ evs2) = interactions evs1 ++ interactions evs2.
Proof. apply List.filter_app. Qed.

Lemma interactions_prints {A} (f : A → string) (l : list A) :
  interactions (map (fun x => Print (f x)) l) = [].
Proof. induction l as [|x l IH]; [done|exact IH]. Qed.

Lemma interactions_map_Print (lines : list string) : interactions (map Print lines) = [].
Proof. induction lines as [|x l IH]; [done|exact IH]. Qed.

Lemma completes_emits {A} (m : M A) evs a :
  emits m evs a → completes m 0 (interactions evs).
Proof. intros Hm w _. exists a, evs, (schedule w). by rewrite Hm. Qed.

Lemma completes_bind {A B} (m : M A) (f : A → M B) k1 k2 acts1 acts2 :
  completes m k1 acts1 → (∀ a, completes (f a) k2 acts2) →
  completes (m ≫= f) (k1 + k2) (acts1 ++ acts2).
Proof.
  intros Hm Hf w Hw.
  destruct (Hm w ltac:(lia)) as (a & evs1 & sched1 & Hm' & Ha1).
  destruct (Hf a (World (drop k1 (stdin w)) (trace w ++ evs1) sched1))
    as (b & evs2 & sched2 & Hf' & Ha2).
  { cbn [stdin]. rewrite length_drop. lia. }
  exists b, (evs1 ++ evs2), sched2.
  unfold mbind, M_bind. rewrite Hm', Hf'. cbn [stdin trace].
  by rewrite drop_drop, <- app_assoc, interactions_app, Ha1, Ha2.
Qed.

(** A statement that prints and does nothing else to the outside. *)
Lemma completes_bind_prints {A B} (m : M A) (f : A → M B) evs a k acts :
  emits m evs a → interactions evs = [] → completes (f a) k acts →
  completes (m ≫= f) k acts.
Proof.
  intros Hm Hp Hf w Hw.
  destruct (Hf (World (stdin w) (trace w ++ evs) (schedule w)) Hw)
    as (b & evs2 & sched2 & Hf' & Ha).
  exists b, (evs ++ evs2), sched2.
  unfold mbind, M_bind. rewrite Hm, Hf'. cbn [stdin trace].
  by rewrite <- app_assoc, interactions_app, Hp, Ha.
Qed.

Lemma completes_pause : completes pause 1 [Prompt pause_prompt].
Proof.
  intros [[|line rest] tr sched] Hw; [cbn in Hw; lia|].
  by exists (), [Prompt pause_prompt], sched.
Qed.

Lemma starves_pause : starves pause 1.
Proof.
  intros [[|line rest] tr sched] Hw; [|cbn in Hw; lia].
  by exists [], sched.
Qed.

Lemma starves_bind_l {A B} (m : M A) (f : A → M B) k :
  starves m k → starves (m ≫= f) k.
Proof.
  intros Hm w Hw. destruct (Hm w Hw) as (evs & sched & Hm').
  exists evs, sched. unfold mbind, M_bind. by rewrite Hm'.
Qed.

Lemma starves_bind_emits {A B} (m : M A) (f : A → M B) evs a k :
  emits m evs a → starves (f a) k → starves (m ≫= f) k.
Proof.
  intros Hm Hf w Hw.
  destruct (Hf (World (stdin w) (trace w ++ evs) (schedule w)) Hw) as (evs2 & sched2 & Hf').
  exists (evs ++ evs2), sched2.
  unfold mbind, M_bind. rewrite Hm, Hf'. cbn [trace]. by rewrite <- !app_assoc.
Qed.

(** A statement that reads [k1] lines, then one that reads [k2]. *)
Lemma starves_bind {A B} (m : M A) (f : A → M B) k1 k2 :
  finishes m k1 [] → starves m k1 → (∀ a, starves (f a) k2) →
  starves (m ≫= f) (k1 + k2).
Proof.
  intros Hfin Hm Hf w Hw.
  destruct (Nat.lt_ge_cases (length (stdin w)) k1) as [Hlt|Hge].
  - by apply (starves_bind_l m f k1 Hm w).
  - destruct (Hfin w Hge) as (a & evs1 & sched1 & Hm').
    destruct (Hf a (World (drop k1 (stdin w)) (trace w ++ evs1 ++ []) sched1))
      as (evs2 & sched2 & Hf').
    { cbn [stdin]. rewrite length_drop. lia. }
    exists (evs1 ++ evs2), sched2.
    unfold mbind, M_bind. rewrite Hm', Hf'. cbn [trace].
    by rewrite app_nil_r, <- !app_assoc.
Qed.

Lemma starves_0 {A} (m : M A) : starves m 0.
Proof. intros w Hw. lia. Qed.

Lemma completes_bind_act {A B} (m : M A) (f : A → M B) ev a k acts :
  emits m [ev] a → is_print ev = false → completes (f a) k acts →
  completes (m ≫= f) k (ev :: acts).
Proof.
  intros Hm Hp Hf w Hw.
  destruct (Hf (World (stdin w) (trace w ++ [ev]) (schedule w)) Hw)
    as (b & evs2 & sched2 & Hf' & Ha).
  exists b, (ev :: evs2), sched2.
  unfold mbind, M_bind. rewrite Hm, Hf'. cbn [stdin trace].
  split; [by rewrite <- app_assoc|]. unfold interactions in *. cbn. by rewrite Hp, Ha.
Qed.

Lemma banner_prints section_number title :
  ∃ evs, emits (banner section_number title) evs () ∧ interactions evs = [].
Proof. eexists. split; [unfold banner; repeat emits_step|reflexivity]. Qed.

Ltac completes_prints tac :=
  eapply completes_bind_prints; [tac|try reflexivity|cbv beta].

Ltac starves_emit tac :=
  eapply starves_bind_emits; [tac|cbv beta].

(** *** The sections, one by one *)

Lemma section1_completes :
  completes section1 1
    [DebugListen "0.0.0.0" 5678; DebugWaitForClient; Prompt pause_prompt].
Proof.
  unfold section1. destruct (banner_prints 1 "Remote Debugging Setup") as (evs & Hb & Hp).
  completes_prints ltac:(exact Hb); [exact Hp|].
  completes_prints ltac:(apply emits_print).
  eapply completes_bind_act; [apply emits_emit|reflexivity|].
  completes_prints ltac:(apply emits_print).
  eapply completes_bind_act; [apply emits_emit|reflexivity|].
  completes_prints ltac:(apply emits_print).
  apply completes_pause.
Qed.

Lemma section1_starves : starves section1 1.
Proof.
  unfold section1. destruct (emits_banner 1 "Remote Debugging Setup") as [evs Hb].
  starves_emit ltac:(exact Hb).
  starves_emit ltac:(apply emits_print).
  starves_emit ltac:(apply emits_emit).
  starves_emit ltac:(apply emits_print).
  starves_emit ltac:(apply emits_emit).
  starves_emit ltac:(apply emits_print).
  apply starves_pause.
Qed.

Lemma section2_completes : completes section2 1 [Prompt pause_prompt].
Proof.
  unfold section2.
  destruct (banner_prints 2 "Basic Breakpoints & Variable Inspection") as (evs & Hb & Hp).
  completes_prints ltac:(exact Hb); [exact Hp|].
  completes_prints ltac:(apply emits_print).
  completes_prints ltac:(apply explore_variables_emits).
  apply completes_pause.
Qed.

Lemma section2_starves : starves section2 1.
Proof.
  unfold section2.
  destruct (emits_banner 2 "Basic Breakpoints & Variable Inspection") as [evs Hb].
  starves_emit ltac:(exact Hb).
  starves_emit ltac:(apply emits_print).
  starves_emit ltac:(apply explore_variables_emits).
  apply starves_pause.
Qed.

Lemma section3_body_prints :
  ∃ evs, emits section3_body evs () ∧ interactions evs = [].
Proof.
  eexists. split.
  - unfold section3_body, banner. rewrite calculate_total_script_call.
    repeat emits_step.
  - reflexivity.
Qed.

Lemma section3_completes : completes section3 1 [Prompt pause_prompt].
Proof.
  unfold section3. destruct section3_body_prints as (evs & He & Hp).
  completes_prints ltac:(exact He); [exact Hp|].
  apply completes_pause.
Qed.

Lemma section3_starves : starves section3 1.
Proof.
  unfold section3. destruct section3_body_prints as (evs & He & _).
  starves_emit ltac:(exact He). apply starves_pause.
Qed.

Lemma section4_completes : completes section4 1 [Prompt pause_prompt].
Proof.
  unfold section4, catalog_loop. cbn [v_catalog].
  destruct (banner_prints 4 "Conditional Breakpoints") as (evs & Hb & Hp).
  destruct (catalog_loop_emits catalog
              {| v_catalog := catalog; v_item := None; v_label := None |})
    as (vars & He & _).
  completes_prints ltac:(exact Hb); [exact Hp|].
  completes_prints ltac:(apply emits_print).
  completes_prints ltac:(exact He).
  change [Prompt pause_prompt] with ([Prompt pause_prompt] ++ []).
  apply (completes_bind _ _ 1 0); [apply completes_pause|intros _].
  apply (completes_emits _ [] vars), emits_ret.
Qed.

Lemma section4_starves : starves section4 1.
Proof.
  unfold section4, catalog_loop. cbn [v_catalog].
  destruct (emits_banner 4 "Conditional Breakpoints") as [evs Hb].
  destruct (catalog_loop_emits catalog
              {| v_catalog := catalog; v_item := None; v_label := None |})
    as (vars & He & _).
  starves_emit ltac:(exact Hb).
  starves_emit ltac:(apply emits_print).
  starves_emit ltac:(exact He).
  apply starves_bind_l, starves_pause.
Qed.

Lemma section5_completes : completes section5 1 [Prompt pause_prompt].
Proof.
  unfold section5. destruct (banner_prints 5 "Exception Breakpoints") as (evs & Hb & Hp).
  completes_prints ltac:(exact Hb); [exact Hp|].
  completes_prints ltac:(apply emits_print).
  completes_prints ltac:(apply section5_demos_emits).
  apply completes_pause.
Qed.

Lemma section5_starves : starves section5 1.
Proof.
  unfold section5. destruct (emits_banner 5 "Exception Breakpoints") as [evs Hb].
  starves_emit ltac:(exact Hb).
  starves_emit ltac:(apply emits_print).
  starves_emit ltac:(apply section5_demos_emits).
  apply starves_pause.
Qed.

Lemma section6_completes : completes section6 1 [DebugBreakpoint; Prompt pause_prompt].
Proof.
  unfold section6.
  destruct (banner_prints 6 "Programmatic Breakpoints (debugpy.breakpoint())")
    as (evs & Hb & Hp).
  completes_prints ltac:(exact Hb); [exact Hp|].
  completes_prints ltac:(apply emits_print).
  completes_prints ltac:(exact (process_order_emits 1001 small_order 65 eq_refl)).
  change [DebugBreakpoint; Prompt pause_prompt]
    with (interactions (order_events 1002 1049.93) ++ [Prompt pause_prompt]).
  apply (completes_bind _ _ 0 1).
  - apply completes_emits with (sum_of_products large_order
                                 + sum_of_products large_order * 0.08)%float.
    exact (process_order_emits 1002 large_order 1049.93 eq_refl).
  - intros _. apply completes_pause.
Qed.

Lemma section6_starves : starves section6 1.
Proof.
  unfold section6.
  destruct (emits_banner 6 "Programmatic Breakpoints (debugpy.breakpoint())") as [evs Hb].
  starves_emit ltac:(exact Hb).
  starves_emit ltac:(apply emits_print).
  starves_emit ltac:(exact (process_order_emits 1001 small_order 65 eq_refl)).
  starves_emit ltac:(exact (process_order_emits 1002 large_order 1049.93 eq_refl)).
  apply starves_pause.
Qed.

Lemma section7_completes : completes section7 1 [Prompt pause_prompt].
Proof.
  unfold section7. destruct (banner_prints 7 "Logpoints") as (evs & Hb & Hp).
  destruct process_batches_sample_data_passes as (passes & vars & Hpass & Hl).
  completes_prints ltac:(exact Hb); [exact Hp|].
  completes_prints ltac:(apply emits_print).
  completes_prints ltac:(exact (process_batches_summary sample_data (Some 4) _ _ Hpass Hl)).
  apply completes_pause.
Qed.

Lemma section7_starves : starves section7 1.
Proof.
  unfold section7. destruct (emits_banner 7 "Logpoints") as [evs Hb].
  destruct process_batches_sample_data_passes as (passes & vars & Hpass & Hl).
  starves_emit ltac:(exact Hb).
  starves_emit ltac:(apply emits_print).
  starves_emit ltac:(exact (process_batches_summary sample_data (Some 4) _ _ Hpass Hl)).
  apply starves_pause.
Qed.

(** *** The threads only print *)

Lemma interactions_cons_nil ev evs :
  interactions (ev :: evs) = [] → is_print ev = true ∧ interactions evs = [].
Proof. unfold interactions. cbn. by destruct (is_print ev). Qed.

Lemma worker_events_prints name steps : interactions (worker_events name steps) = [].
Proof.
  unfold worker_events. rewrite interactions_app.
  by rewrite (interactions_prints (worker_status name steps)).
Qed.

Lemma pool_step_prints st a st' :
  interactions (pool_out st) = [] →
  Forall (fun th => interactions th = []) (pool_threads st) →
  pool_step st a = Some st' →
  interactions (pool_out st') = [] ∧
  Forall (fun th => interactions th = []) (pool_threads st').
Proof.
  intros Ho Ht Hs. destruct a as [|i]; cbn [pool_step] in Hs.
  - destruct (pool_main st) as [[|[name steps] todo]|k|].
    + injection Hs as <-. by split.
    + injection Hs as <-. cbn [pool_out pool_threads]. split; [done|].
      apply Forall_app. split; [done|]. constructor; [|done].
      rewrite thread_events_worker. apply worker_events_prints.
    + destruct (pool_threads st !! k) as [[|ev rest]|]; [| |].
      * injection Hs as <-. by split.
      * discriminate.
      * injection Hs as <-. cbn [pool_out pool_threads]. split; [|done].
        by rewrite interactions_app, Ho.
    + discriminate.
  - destruct (pool_threads st !! i) as [[|ev rest]|] eqn:Hi; [discriminate| |discriminate].
    injection Hs as <-. cbn [pool_out pool_threads].
    pose proof (Forall_lookup_1 _ _ _ _ Ht Hi) as Hth. cbn beta in Hth.
    apply interactions_cons_nil in Hth as [Hev Hrest].
    split.
    + rewrite interactions_app, Ho. unfold interactions. cbn. by rewrite Hev.
    + by apply Forall_insert.
Qed.

Lemma run_pool_prints fuel sched st :
  interactions (pool_out st) = [] →
  Forall (fun th => interactions th = []) (pool_threads st) →
  interactions (pool_out (run_pool fuel sched st).1) = [].
Proof.
  revert sched st. induction fuel as [|fuel IH]; intros sched st Ho Ht; [done|].
  cbn [run_pool]. cbv zeta.
  destruct (enabled st !! (hd 0%nat sched `mod` length (enabled st))%nat ≫= pool_step st)
    as [st'|] eqn:Hs; [|done].
  apply bind_Some in Hs as (a & _ & Hs).
  destruct (pool_step_prints st a st' Ho Ht Hs) as [Ho' Ht']. by apply IH.
Qed.

Lemma run_threads_completes : completes run_threads 0 [].
Proof.
  intros w _. unfold run_threads.
  pose proof (run_pool_prints (pool_steps pool_init) (schedule w) pool_init eq_refl
                ltac:(constructor)) as Hp.
  destruct (run_pool (pool_steps pool_init) (schedule w) pool_init) as [st sched].
  by exists (), (pool_out st), sched.
Qed.

Lemma section8_completes : completes section8 1 [Prompt pause_prompt].
Proof.
  unfold section8. destruct (banner_prints 8 "Multi-threaded Debugging") as (evs & Hb & Hp).
  completes_prints ltac:(exact Hb); [exact Hp|].
  completes_prints ltac:(apply emits_print).
  change [Prompt pause_prompt] with ([] ++ [Prompt pause_prompt]).
  apply (completes_bind _ _ 0 1); [apply run_threads_completes|].
  intros _. apply completes_pause.
Qed.

Lemma section8_starves : starves section8 1.
Proof.
  unfold section8. destruct (emits_banner 8 "Multi-threaded Debugging") as [evs Hb].
  starves_emit ltac:(exact Hb).
  starves_emit ltac:(apply emits_print).
  apply (starves_bind _ _ 0 1); [apply finishes_run_threads|apply starves_0|].
  intros _. apply starves_pause.
Qed.

Lemma section9_completes : completes section9 0 [].
Proof.
  unfold section9.
  destruct (banner_prints 9 "Watch Expressions & Debug Console") as (evs & Hb & Hp).
  destruct (analyze_transactions_lines transactions) as (lines & Ha & _); [done|].
  completes_prints ltac:(exact Hb); [exact Hp|].
  completes_prints ltac:(apply emits_print).
  pose proof (completes_emits _ _ _ Ha) as Hc.
  by rewrite interactions_map_Print in Hc.
Qed.

Lemma epilogue_completes : completes epilogue 0 [].
Proof. apply (completes_emits _ _ () epilogue_emits). Qed.

Lemma after_section5_completes :
  completes after_section5 3
    [DebugBreakpoint; Prompt pause_prompt; Prompt pause_prompt; Prompt pause_prompt].
Proof.
  unfold after_section5.
  apply (completes_bind _ _ 1 2 [_; _] [_; _]); [apply section6_completes|intros _].
  apply (completes_bind _ _ 1 1 [_] [_]); [apply section7_completes|intros _].
  apply (completes_bind _ _ 1 0 [_] []); [apply section8_completes|intros _].
  apply (completes_bind _ _ 0 0 [] []); [apply section9_completes|intros _].
  apply epilogue_completes.
Qed.

Lemma script_completes :
  completes script 8
    [ DebugListen "0.0.0.0" 5678; DebugWaitForClient;
      Prompt pause_prompt; Prompt pause_prompt; Prompt pause_prompt;
      Prompt pause_prompt; Prompt pause_prompt;
      DebugBreakpoint;
      Prompt pause_prompt; Prompt pause_prompt; Prompt pause_prompt ].
Proof.
  unfold script.
  apply (completes_bind _ _ 1 7 [_; _; _] (_ :: _)); [apply section1_completes|intros _].
  apply (completes_bind _ _ 1 6 [_] (_ :: _)); [apply section2_completes|intros _].
  apply (completes_bind _ _ 1 5 [_] (_ :: _)); [apply section3_completes|intros _].
  apply (completes_bind _ _ 1 4 [_] (_ :: _)); [apply section4_completes|intros _].
  apply (completes_bind _ _ 1 3 [_] (_ :: _)); [apply section5_completes|intros _].
  apply after_section5_completes.
Qed.

Lemma after_section5_starves : starves after_section5 3.
Proof.
  unfold after_section5.
  apply (starves_bind _ _ 1 2); [apply section6_finishes|apply section6_starves|intros _].
  apply (starves_bind _ _ 1 1); [apply section7_finishes|apply section7_starves|intros _].
  apply (starves_bind _ _ 1 0); [apply section8_finishes|apply section8_starves|intros _].
  apply starves_0.
Qed.

Lemma script_starves : starves script 8.
Proof.
  unfold script.
  apply (starves_bind _ _ 1 7); [apply section1_finishes|apply section1_starves|intros _].
  apply (starves_bind _ _ 1 6); [apply section2_finishes|apply section2_starves|intros _].
  apply (starves_bind _ _ 1 5); [apply section3_finishes|apply section3_starves|intros _].
  apply (starves_bind _ _ 1 4); [apply section4_finishes|apply section4_starves|intros _].
  apply (starves_bind _ _ 1 3); [apply section5_finishes|apply section5_starves|intros _].
  apply after_section5_starves.
Qed.

(** X15: a run whose eight pauses are answered reads exactly eight lines,
    returns, and besides printing does this, in this order, under every thread
    schedule: it opens the debug listener on 0.0.0.0:5678, waits for the
    client, prompts five times (Sections 1 to 5), hits the one programmatic
    breakpoint (the large order of Section 6) and prompts three more times
    (Sections 6 to 8).  The trace ends with the closing lines. *)
Theorem script_interactions (w : world) :
  (8 ≤ length (stdin w))%nat →
  ∃ evs sched,
    script w = (Ok (), World (drop 8 (stdin w)) (trace w ++ evs ++ epilogue_events) sched) ∧
    interactions (evs ++ epilogue_events)
    = [ DebugListen "0.0.0.0" 5678; DebugWaitForClient;
        Prompt pause_prompt; Prompt pause_prompt; Prompt pause_prompt;
        Prompt pause_prompt; Prompt pause_prompt;
        DebugBreakpoint;
        Prompt pause_prompt; Prompt pause_prompt; Prompt pause_prompt ].
Proof.
  intros Hw.
  destruct (script_completes w Hw) as ([] & evs & sched & Hrun & Hacts).
  destruct (script_finishes w Hw) as ([] & evs' & sched' & Hrun').
  rewrite Hrun in Hrun'. injection Hrun' as Hevs <-.
  apply app_inv_head in Hevs. subst evs.
  by exists evs', sched.
Qed.

Lemma script_interactions_witness :
  ∃ evs sched,
    script (World ["a"; "b"; "c"; "d"; "e"; "f"; "g"; "h"; "i"] [] [])
    = (Ok (), World ["i"] (evs ++ epilogue_events) sched) ∧
    length (interactions (evs ++ epilogue_events)) = 11%nat.
Proof.
  destruct (script_interactions (World ["a"; "b"; "c"; "d"; "e"; "f"; "g"; "h"; "i"] [] [])
              ltac:(cbn; lia)) as (evs & sched & Hrun & Hacts).
  exists evs, sched. split; [exact Hrun|by rewrite Hacts].
Defined.

(** X16: on a console that gives fewer than eight lines the script does not
    reach its end: it stops with [EOFError], raised by the pause that finds
    the input used up, right after that pause wrote its prompt. *)
Theorem script_needs_eight_lines (w : world) :
  (length (stdin w) < 8)%nat →
  ∃ evs sched,
    script w = (Raise (Exn EOFError "EOF when reading a line"),
                World [] (trace w ++ evs ++ [Prompt pause_prompt]) sched).
Proof. apply script_starves. Qed.

Lemma script_needs_eight_lines_witness :
  ∃ evs sched,
    script (World [] [] [])
    = (Raise (Exn EOFError "EOF when reading a line"),
       World [] (evs ++ [Prompt pause_prompt]) sched).
Proof.
  exact (script_needs_eight_lines (World [] [] []) ltac:(cbn; lia)).
Defined.
